(** * Contact scraper: normalisation, deduplication, URL prioritisation and
      the contact-extraction cascade

    A shallow embedding of the parts of [oxylabs_integration.py],
    [ai_extractor.py], [uni_scraper/pipelines.py] and
    [uni_scraper/spiders/contact_spider.py] that the specification's
    testable properties talk about.

    Conventions.
    - A Python [str] is a [string]; its characters are read as the code
      points 0..255, so the whitespace, digit and case tables below are
      Python's tables restricted to that range.
    - A Python [dict] with string keys is a [gmap string pyval]; a contact
      is such a dict.
    - A Python [set] used for membership only is a [gset]; a set that is
      iterated is given by the sequence in which the loop enumerates it.
    - The HTML parser, the regular-expression engine and the LLM endpoint
      are collaborators outside the repository: they are the fields of an
      interface ([Env]), and every result holds for all implementations. *)

From Stdlib Require Import ZArith Ascii String Bool Lia.
From stdpp Require Import base gmap strings list fin_maps sorting.

Local Open Scope Z_scope.

(* ===================================================================== *)
(** * Python strings                                                      *)
(* ===================================================================== *)

Module PyStr.

Definition code (c : ascii) : N := N_of_ascii c.

(** [str.isspace] for one character: U+0009..U+000D, U+001C..U+001F,
    U+0020, U+0085 and U+00A0. *)
Definition isspace (c : ascii) : bool :=
  let n := code c in
  ((9 <=? n) && (n <=? 13) || (28 <=? n) && (n <=? 32)
   || (n =? 133) || (n =? 160))%N.

(** [str.isdigit] for one character: 0-9 and the superscripts U+00B2,
    U+00B3, U+00B9. *)
Definition isdigit_char (c : ascii) : bool :=
  let n := code c in
  ((48 <=? n) && (n <=? 57) || (n =? 178) || (n =? 179) || (n =? 185))%N.

(** [str.lower] for one character: A-Z and U+00C0..U+00DE except the
    multiplication sign U+00D7 move up by 32. *)
Definition lower_char (c : ascii) : ascii :=
  let n := code c in
  if ((65 <=? n) && (n <=? 90)
      || (192 <=? n) && (n <=? 222) && negb (n =? 215))%N
  then ascii_of_N (n + 32) else c.

Fixpoint lower (s : string) : string :=
  match s with
  | EmptyString => EmptyString
  | String c s' => String (lower_char c) (lower s')
  end.

Definition len (s : string) : Z := Z.of_nat (String.length s).

(** Truth value of a string: [bool(s)]. *)
Definition nonempty (s : string) : bool :=
  match s with EmptyString => false | String _ _ => true end.

Fixpoint lstrip (s : string) : string :=
  match s with
  | EmptyString => EmptyString
  | String c s' => if isspace c then lstrip s' else s
  end.

Fixpoint rstrip (s : string) : string :=
  match s with
  | EmptyString => EmptyString
  | String c s' =>
      match rstrip s' with
      | EmptyString => if isspace c then EmptyString else String c EmptyString
      | r => String c r
      end
  end.

(** [s.strip()] *)
Definition strip (s : string) : string := rstrip (lstrip s).

(** [s.isdigit()]: at least one character and all of them digits. *)
Fixpoint all_digits (s : string) : bool :=
  match s with
  | EmptyString => true
  | String c s' => isdigit_char c && all_digits s'
  end.

Definition isdigit (s : string) : bool := nonempty s && all_digits s.

Fixpoint startswith (p s : string) : bool :=
  match p, s with
  | EmptyString, _ => true
  | String a p', String b s' => bool_decide (a = b) && startswith p' s'
  | String _ _, EmptyString => false
  end.

(** [sub in s] *)
Fixpoint contains (sub s : string) : bool :=
  startswith sub s ||
  match s with
  | EmptyString => false
  | String _ s' => contains sub s'
  end.

(** [c in s] for a one-character needle, as a recursion of its own. *)
Fixpoint has_char (c : ascii) (s : string) : bool :=
  match s with
  | EmptyString => false
  | String a s' => bool_decide (a = c) || has_char c s'
  end.

(** [s.split(sep)] for a one-character separator: always at least one
    part, one more than the number of separators. *)
Fixpoint split (sep : ascii) (s : string) : list string :=
  match s with
  | EmptyString => [EmptyString]
  | String c s' =>
      if bool_decide (c = sep) then EmptyString :: split sep s'
      else match split sep s' with
           | p :: ps => String c p :: ps
           | [] => [String c EmptyString]
           end
  end.

(** [sep.join(parts)] *)
Fixpoint join (sep : string) (parts : list string) : string :=
  match parts with
  | [] => EmptyString
  | [p] => p
  | p :: ps => p +:+ sep +:+ join sep ps
  end.

(** [s.replace(old, "")] for a non-empty [old]: every occurrence found
    scanning left to right is removed. The fuel is the length of [s]. *)
Fixpoint drop_str (n : nat) (s : string) : string :=
  match n, s with
  | O, _ => s
  | S n', String _ s' => drop_str n' s'
  | S _, EmptyString => EmptyString
  end.

Fixpoint remove_all_aux (fuel : nat) (old s : string) : string :=
  match fuel with
  | O => s
  | S fuel' =>
      match s with
      | EmptyString => EmptyString
      | String c s' =>
          if startswith old s
          then remove_all_aux fuel' old (drop_str (String.length old) s)
          else String c (remove_all_aux fuel' old s')
      end
  end.

Definition remove_all (old s : string) : string :=
  remove_all_aux (String.length s) old s.

End PyStr.

Import PyStr.

(* ===================================================================== *)
(** * Python values and dicts                                             *)
(* ===================================================================== *)

(** The values a contact field can hold: [None], a [str], or a value of
    another type (a JSON number stands for those: the code only asks
    [isinstance(v, str)] and for the truth value). *)
Inductive pyval :=
  | PNone
  | PStr (s : string)
  | PNum (n : Z).

Global Instance pyval_eq_dec : EqDecision pyval.
Proof. solve_decision. Defined.

Definition pyval_to_sum (v : pyval) : unit + (string + Z) :=
  match v with
  | PNone => inl tt
  | PStr s => inr (inl s)
  | PNum n => inr (inr n)
  end.

Definition pyval_of_sum (x : unit + (string + Z)) : pyval :=
  match x with
  | inl _ => PNone
  | inr (inl s) => PStr s
  | inr (inr n) => PNum n
  end.

Global Instance pyval_countable : Countable pyval.
Proof.
  apply (inj_countable' pyval_to_sum pyval_of_sum).
  by intros [].
Defined.

(** [bool(v)] *)
Definition truthy (v : pyval) : bool :=
  match v with
  | PNone => false
  | PStr s => nonempty s
  | PNum n => negb (n =? 0)
  end.

(** A contact is a dict from field names to values. *)
Abbreviation contact := (gmap string pyval).

(** [d.get(k)] and [d.get(k, dflt)] *)
Definition dict_get (d : contact) (k : string) : pyval :=
  default PNone (d !! k).

Definition dict_get_default (d : contact) (k : string) (dflt : pyval) : pyval :=
  default dflt (d !! k).

(* ===================================================================== *)
(** * oxylabs_integration.py: clean_contact_data                          *)
(* ===================================================================== *)

(** The email block of [clean_contact_data]. *)
Definition clean_email_field (email : pyval) : pyval :=
  match email with
  | PStr e =>
      if nonempty e && has_char "@" e then
        let e := strip e in
        match split "@" e with
        | [local; domain] => PStr (strip local +:+ "@" +:+ strip domain)
        | _ => PStr e
        end
      else PNone
  | _ => PNone
  end.

(** The phone block. *)
Definition clean_phone_field (phone : pyval) : pyval :=
  match phone with
  | PStr p =>
      if nonempty p then
        let p := strip p in
        if nonempty p && (7 <=? len p) && negb (isdigit p) then PStr p
        else PNone
      else PNone
  | _ => PNone
  end.

(** The block shared by name, designation, university and department. *)
Definition clean_text_field (v : pyval) : pyval :=
  match v with
  | PStr s =>
      if nonempty s then
        let s := strip s in
        if nonempty s && (2 <? len s) then PStr s else PNone
      else PNone
  | _ => PNone
  end.

Definition clean_contact_data (c : contact) : contact :=
  let cleaned : contact := ∅ in
  let cleaned := <["email" := clean_email_field (dict_get c "email")]> cleaned in
  let cleaned := <["phone" := clean_phone_field (dict_get c "phone")]> cleaned in
  let cleaned := <["name" := clean_text_field (dict_get c "name")]> cleaned in
  let cleaned :=
    <["designation" := clean_text_field (dict_get c "designation")]> cleaned in
  let cleaned :=
    <["university" := clean_text_field (dict_get c "university")]> cleaned in
  let cleaned :=
    <["department" := clean_text_field (dict_get c "department")]> cleaned in
  let cleaned :=
    <["source_url" := dict_get_default c "source_url" (PStr "")]> cleaned in
  let cleaned :=
    <["scraped_date" := dict_get_default c "scraped_date" (PStr "")]> cleaned in
  cleaned.

(* ===================================================================== *)
(** * oxylabs_integration.py: clean_and_deduplicate_contacts              *)
(* ===================================================================== *)

(** The loop state: [unique_contacts] and [seen_emails]. *)
Record dedup_state := DedupState {
  unique_contacts : list contact;
  seen_emails : gset pyval
}.

(** One iteration of the [for contact in contacts] loop. *)
Definition dedup_step (st : dedup_state) (c : contact) : dedup_state :=
  let cleaned_contact := clean_contact_data c in
  let email := dict_get_default cleaned_contact "email" (PStr "") in
  if truthy email && bool_decide (email ∉ seen_emails st) then
    {| unique_contacts := unique_contacts st ++ [cleaned_contact];
       seen_emails := {[email]} ∪ seen_emails st |}
  else st.

Definition clean_and_deduplicate_contacts (contacts : list contact)
  : list contact :=
  unique_contacts (foldl dedup_step (DedupState [] ∅) contacts).

(** A raw contact as the extractors build it (all eight keys present). *)
Definition mk_contact (name email phone designation university department
                       source_url scraped_date : pyval) : contact :=
  <["scraped_date" := scraped_date]> (<["source_url" := source_url]>
  (<["department" := department]> (<["university" := university]>
  (<["designation" := designation]> (<["phone" := phone]>
  (<["email" := email]> (<["name" := name]> ∅))))))).

(* ===================================================================== *)
(** * oxylabs_integration.py: discover_urls, Phase 2 and the return       *)
(* ===================================================================== *)

(** [keyword_scores], in the order of the dict literal. *)
Definition keyword_scores : list (string * Z) :=
  [ ("professor", 120); ("lecturer", 120); ("dr-", 120); ("prof-", 120);
    ("associate-professor", 120); ("assistant-professor", 120);
    ("contact", 100); ("contacts", 100); ("contact-us", 100);
    ("contactus", 100); ("directory", 100); ("staff-directory", 100);
    ("faculty-directory", 100); ("people-directory", 100);
    ("staff", 80); ("faculty", 80); ("team", 80); ("people", 80);
    ("employee", 80); ("personnel", 80); ("academic-staff", 80);
    ("faculty-members", 80); ("teaching-staff", 80); ("research-staff", 80);
    ("about", 60); ("about-us", 60); ("aboutus", 60);
    ("department", 60); ("departments", 60); ("school", 60);
    ("administration", 60); ("management", 60); ("leadership", 60);
    ("dean", 60); ("head", 60); ("director", 60); ("institute", 60);
    ("office", 40); ("offices", 40); ("support", 40);
    ("service", 40); ("help", 40); ("enquiry", 40);
    ("enquiries", 40); ("inquiry", 40); ("advisor", 40);
    ("counselor", 40); ("counsellor", 40);
    ("profile", 20); ("bio", 20); ("biography", 20);
    ("member", 20); ("research", 20); ("academic", 20) ].

(** An entry of [url_scores]. *)
Record url_score := UrlScore {
  url : string;
  score : Z;
  keywords : list string
}.

(** The inner loop [for keyword, keyword_score in keyword_scores.items()],
    threading [score] and [matched_keywords]. *)
Definition match_keywords (table : list (string * Z)) (url_lower : string)
  : Z * list string :=
  foldl (λ (acc : Z * list string) (kw : string * Z),
           if contains kw.1 url_lower
           then (acc.1 + kw.2, acc.2 ++ [kw.1])
           else acc)
        (0, []) table.

(** The body of [for url in discovered_urls]. *)
Definition score_url (u : string) : url_score :=
  let url_lower := lower u in
  let r := match_keywords keyword_scores url_lower in
  {| url := u; score := r.1; keywords := r.2 |}.

(** The keyword score of a URL. *)
Definition keyword_score (u : string) : Z := score (score_url u).

(** [items.sort(key=..., reverse=True)]. Python's sort is stable, also
    with [reverse=True]; the stable sort of a list is unique, and it is
    computed here by insertion from the right: an item goes in front of
    the first item whose key is not larger than its own, so that it stays
    ahead of the equal-key items that followed it. *)
Fixpoint insert_desc {A} (key : A → Z) (x : A) (l : list A) : list A :=
  match l with
  | [] => [x]
  | y :: l' => if key x <? key y then y :: insert_desc key x l' else x :: l
  end.

Definition sort_desc {A} (key : A → Z) (l : list A) : list A :=
  foldr (insert_desc key) [] l.

(** [l[:n]] for an integer [n] of either sign. *)
Definition slice_to {A} (l : list A) (n : Z) : list A :=
  if 0 <=? n then take (Z.to_nat n) l
  else take (Z.to_nat (Z.of_nat (length l) + n)) l.

(** Phase 2 and the final slice of [discover_urls], for the sequence in
    which the loop enumerates [discovered_urls]. Phase 3 is skipped:
    [enable_ai_url_filter] is [False] (its default). The result is
    [(final_urls, len(prioritized_urls))]. *)
Definition prioritize_urls (discovered_urls : list string) (max_pages : Z)
  : list string * Z :=
  let url_scores := score_url <$> discovered_urls in
  let url_scores := sort_desc score url_scores in
  let high_priority := filter (λ item, 60 ≤ score item) url_scores in
  let medium_priority :=
    filter (λ item, 20 ≤ score item ∧ score item < 60) url_scores in
  let low_priority :=
    filter (λ item, 0 < score item ∧ score item < 20) url_scores in
  let no_priority := filter (λ item, score item = 0) url_scores in
  let prioritized_urls :=
    (url <$> high_priority) ++ (url <$> medium_priority) ++
    (url <$> low_priority) ++ (url <$> no_priority) in
  let final_urls := slice_to prioritized_urls max_pages in
  (final_urls, Z.of_nat (length prioritized_urls)).

(** Three discovered URLs with keyword scores 80, 100 and 80. *)
Definition url_a : string := "https://u.my/staff".
Definition url_b : string := "https://u.my/contact".
Definition url_c : string := "https://u.my/team".

(* ===================================================================== *)
(** * The collaborators of the extractors                                 *)
(* ===================================================================== *)

(** What one request to the LLM endpoint comes to in
    [AIContactExtractor._call_openrouter]: an exception (transport error,
    timeout, a status other than 200, a reply that is not a JSON object),
    content that [json.loads] rejects (the method then returns [{}]), or
    the parsed object handed to [_clean_extracted_data]. *)
Inductive llm_outcome :=
  | LlmRaise
  | LlmBadJson
  | LlmData (data : contact).

(** The HTML parser (BeautifulSoup, and Scrapy's selectors for the
    spider), the regular-expression engine, the clock, the LLM endpoint
    and the [str] methods whose tables leave the code points 0..255. An
    [element] is a tag, a text node or the parsed document. *)
Class Env := {
  element : Type;
  (** [BeautifulSoup(html, 'html.parser')] *)
  parse_html : string → element;
  (** [tag.select(selector)], [tag.select_one(selector)] *)
  select : element → string → list element;
  select_one : element → string → option element;
  (** [tag.get_text()], [tag.get_text(strip=True)],
      [tag.get_text(separator='\n', strip=True)], [str(tag)] *)
  get_text : element → string;
  get_text_strip : element → string;
  get_text_lines : element → string;
  to_html : element → string;
  (** [tag.find_all('a', href=re.compile(r'^mailto:', re.I))],
      [tag.find_all('a', href=re.compile(r'^mailto:'))],
      [tag.find_all('a', href=re.compile(r'^tel:'))] *)
  find_mailto_links_nocase : element → list element;
  find_mailto_links : element → list element;
  find_tel_links : element → list element;
  (** [link['href']] of a link found by one of the three searches *)
  href : element → string;
  (** [tag.find_parent()], [tag.find(name)], [tag.find_all(names)],
      [tag.get('class', [])] *)
  find_parent : element → option element;
  find_tag : element → string → option element;
  find_all_tags : element → list string → list element;
  class_list : element → list string;
  (** [soup.find_all(text=re.compile(re.escape(email)))] *)
  find_text_nodes : element → string → list element;
  (** Scrapy: [sel.css(query)], [sel.css(query).getall()],
      [sel.css(query).get()] *)
  css : element → string → list element;
  css_getall : element → string → list string;
  css_get : element → string → option string;
  (** [pattern.findall(text)] and [re.match(pattern, text)] *)
  re_findall : string → string → list string;
  re_match : string → string → bool;
  (** [for x in set(l)]: some enumeration of the distinct members *)
  set_iter : list string → list string;
  set_iter_elem : ∀ l x, x ∈ set_iter l ↔ x ∈ l;
  set_iter_NoDup : ∀ l, NoDup (set_iter l);
  (** [s.isalpha()], [s.capitalize()] *)
  isalpha : string → bool;
  capitalize : string → string;
  (** [time.strftime('%Y-%m-%d %H:%M:%S')], evaluated anew for every
      record: the text it returns at the scraper's evaluation number [n]
      of it (counted from 0). Nothing is assumed of two readings: they
      may be equal or differ. The call with another format that names
      the optional dump of the raw HTML is not counted. *)
  strftime_now : nat → string;
  (** The answer of the endpoint to its request number [n] (counted from
      0) for the prompt built from an HTML context and an email. *)
  call_openrouter : nat → string → string → llm_outcome
}.

(* ===================================================================== *)
(** * More string primitives                                              *)
(* ===================================================================== *)

(** [str.isupper] for one character: A-Z and U+00C0..U+00DE except U+00D7. *)
Definition isupper_char (c : ascii) : bool :=
  let n := code c in
  ((65 <=? n) && (n <=? 90)
   || (192 <=? n) && (n <=? 222) && negb (n =? 215))%N.

(** [word and word[0].isupper()] *)
Definition first_isupper (word : string) : bool :=
  match word with
  | String c _ => isupper_char c
  | EmptyString => false
  end.

(** [s.replace(a, b)] for one-character [a] and [b]. *)
Fixpoint replace_char (a b : ascii) (s : string) : string :=
  match s with
  | EmptyString => EmptyString
  | String c s' => String (if bool_decide (c = a) then b else c) (replace_char a b s')
  end.

(** [s[:n]] for a natural [n]. *)
Fixpoint take_str (n : nat) (s : string) : string :=
  match n, s with
  | O, _ => EmptyString
  | S n', String c s' => String c (take_str n' s')
  | S _, EmptyString => EmptyString
  end.

(** [s.split()]: the maximal runs of characters that are not whitespace. *)
Fixpoint split_ws_aux (cur : string) (s : string) : list string :=
  match s with
  | EmptyString => if nonempty cur then [cur] else []
  | String c s' =>
      if isspace c
      then (if nonempty cur then [cur] else []) ++ split_ws_aux EmptyString s'
      else split_ws_aux (cur +:+ String c EmptyString) s'
  end.

Definition split_ws (s : string) : list string := split_ws_aux EmptyString s.

(** [s.split(sep)[0]] for a non-empty [sep]: the text before the first
    occurrence of [sep], or all of [s]. *)
Fixpoint before_first (sep s : string) : string :=
  match s with
  | EmptyString => EmptyString
  | String c s' =>
      if startswith sep s then EmptyString else String c (before_first sep s')
  end.

(** [l[-n:]] for a positive [n]. *)
Definition last_n {A} (n : nat) (l : list A) : list A :=
  drop (length l - n) l.

(** The first result that a loop with [break] settles on. *)
Fixpoint find_first {A B} (f : A → option B) (l : list A) : option B :=
  match l with
  | [] => None
  | x :: l' => match f x with Some y => Some y | None => find_first f l' end
  end.

(** [any(x in s for x in needles)] *)
Definition any_in (needles : list string) (s : string) : bool :=
  existsb (λ x, contains x s) needles.

(** [d[k] = v] when a value was found, nothing otherwise. *)
Definition set_if_found (k : string) (found : option string) (d : contact)
  : contact :=
  match found with
  | Some v => <[k := PStr v]> d
  | None => d
  end.

(** [v or ''] for a field that holds a string or [None]. *)
Definition str_or_empty (v : pyval) : string :=
  match v with
  | PStr s => s
  | _ => EmptyString
  end.

(* ===================================================================== *)
(** * ai_extractor.py: AIContactExtractor                                 *)
(* ===================================================================== *)

(** The extractor object: its [enabled] flag and the number of requests
    it has sent to the endpoint so far. *)
Record ai_extractor := AiExtractor {
  enabled : bool;
  requests_sent : nat
}.

(** [value.lower() not in ['n/a', 'null', 'none']] *)
Definition not_placeholder (s : string) : bool :=
  negb (bool_decide (lower s ∈ ["n/a"; "null"; "none"])).

(** The name block of [_clean_extracted_data]. *)
Definition ai_clean_name (v : pyval) : pyval :=
  match v with
  | PStr name =>
      if nonempty name then
        let name := strip name in
        if nonempty name && (2 <? len name) && negb (has_char "@" (lower name))
        then
          if negb (any_in ["contact"; "email"; "click here"; "n/a"; "null"; "none"]
                          (lower name))
          then PStr name else PNone
        else PNone
      else PNone
  | _ => PNone
  end.

(** The designation and department blocks. *)
Definition ai_clean_text (v : pyval) : pyval :=
  match v with
  | PStr s =>
      if nonempty s then
        let s := strip s in
        if nonempty s && (2 <? len s) && not_placeholder s then PStr s
        else PNone
      else PNone
  | _ => PNone
  end.

(** The phone block. *)
Definition ai_clean_phone (v : pyval) : pyval :=
  match v with
  | PStr phone =>
      if nonempty phone then
        let phone := strip phone in
        if nonempty phone && (7 <=? len phone) && not_placeholder phone
        then PStr phone else PNone
      else PNone
  | _ => PNone
  end.

Definition _clean_extracted_data (data : contact) : contact :=
  let cleaned : contact :=
    <["department" := PNone]> (<["phone" := PNone]>
    (<["designation" := PNone]> (<["name" := PNone]> ∅))) in
  let cleaned := <["name" := ai_clean_name (dict_get data "name")]> cleaned in
  let cleaned :=
    <["designation" := ai_clean_text (dict_get data "designation")]> cleaned in
  let cleaned := <["phone" := ai_clean_phone (dict_get data "phone")]> cleaned in
  let cleaned :=
    <["department" := ai_clean_text (dict_get data "department")]> cleaned in
  cleaned.

Section extraction.

Context `{Env}.

(** The loop [for attempt in range(max_retries + 1)] of
    [extract_contact_info], with [remaining = max_retries - attempt]. *)
Fixpoint extraction_attempts (remaining : nat) (ex : ai_extractor)
    (html_context email : string) : contact * ai_extractor :=
  let ex' := {| enabled := enabled ex; requests_sent := S (requests_sent ex) |} in
  match call_openrouter (requests_sent ex) html_context email with
  | LlmData data => (_clean_extracted_data data, ex')
  | LlmBadJson => (∅, ex')
  | LlmRaise =>
      match remaining with
      | O => (∅, ex')
      | S remaining' => extraction_attempts remaining' ex' html_context email
      end
  end.

Definition extract_contact_info (ex : ai_extractor)
    (html_context email : string) (max_retries : nat)
  : contact * ai_extractor :=
  if negb (enabled ex) then (∅, ex)
  else
    let html_context :=
      if 4000 <? len html_context then take_str 4000 html_context
      else html_context in
    extraction_attempts max_retries ex html_context email.

(* ===================================================================== *)
(** * oxylabs_integration.py: OxylabsScraper                              *)
(* ===================================================================== *)

(** The attributes of the scraper that the extraction reads and writes,
    and the number of times it has read the clock for a record's
    [scraped_date] so far. *)
Record scraper := Scraper {
  use_ai : bool;
  ai_extractor_obj : option ai_extractor;
  ai_extractions_count : Z;
  ai_success_count : Z;
  clock_reads : nat
}.

Definition email_pattern : string :=
  "\b[A-Za-z0-9._%+-]+@[A-Za-z0-9.-]+\.[A-Z|a-z]{2,}\b".

Definition phone_pattern : string :=
  "(\+?\d{1,3}[-.\s]?)?\(?\d{3}\)?[-.\s]?\d{3}[-.\s]?\d{4}|\+?\d{10,}".

(** The double quote, for attribute selectors. *)
Definition dq : string := String (ascii_of_nat 34) EmptyString.

(** The selector [[class*=...]] with its value in double quotes. *)
Definition class_has (value : string) : string :=
  "[class*=" +:+ dq +:+ value +:+ dq +:+ "]".

Definition looks_like_name (text : string) : bool :=
  if negb (nonempty text) || (len text <? 3) || (100 <? len text) then false
  else
    let exclude_keywords :=
      ["email"; "phone"; "contact"; "enquiry"; "inquiry"; "general";
       "information"; "click"; "here"; "http"; "www"; "subject"; "message";
       "please"; "copyright"; "university"; "college"; "school";
       "department"; "faculty"; "office"] in
    let text_lower := lower text in
    if any_in exclude_keywords text_lower then false
    else
      let title_patterns :=
        ["^(Dr\.?|Prof\.?|Professor|Mr\.?|Mrs\.?|Ms\.?|Miss)\s+[A-Z]";
         "^[A-Z][a-z]+\s+[A-Z]";
         "^[A-Z][a-z]+\s+[A-Z][a-z]+\s+[A-Z]"] in
      if existsb (λ pattern, re_match pattern text) title_patterns then true
      else
        let words := split_ws text in
        let n := Z.of_nat (length words) in
        if (2 <=? n) && (n <=? 5) then
          let capitalized :=
            Z.of_nat (length (filter
              (λ word, first_isupper word = true) words)) in
          (* capitalized >= len(words) * 0.5 *)
          n <=? 2 * capitalized
        else false.

Definition looks_like_designation (text : string) : bool :=
  if negb (nonempty text) || (len text <? 5) || (150 <? len text) then false
  else
    let designation_keywords :=
      ["professor"; "lecturer"; "dean"; "head"; "director"; "manager";
       "coordinator"; "senior"; "junior"; "associate"; "assistant";
       "officer"; "executive"; "lead"; "leader"; "chief"; "specialist";
       "consultant"; "advisor"; "counselor"; "program"; "programme";
       "faculty"; "department"; "academic"; "research"] in
    let text_lower := lower text in
    any_in designation_keywords text_lower.

(** One evaluation of [time.strftime('%Y-%m-%d %H:%M:%S')]: the reading,
    and the scraper with one more reading counted. *)
Definition read_clock (self : scraper) : string * scraper :=
  (strftime_now (clock_reads self),
   {| use_ai := use_ai self;
      ai_extractor_obj := ai_extractor_obj self;
      ai_extractions_count := ai_extractions_count self;
      ai_success_count := ai_success_count self;
      clock_reads := S (clock_reads self) |}).

(** The fresh record of the contextual extractors; [now] is the reading
    of the clock when it is made. *)
Definition new_context_contact (email source_url now : string) : contact :=
  mk_contact PNone (PStr email) PNone PNone PNone PNone
             (PStr source_url) (PStr now).

(** Strategy 1: a display name from a [first.last] or [first_last]
    mailbox name. *)
Definition fallback_name (email : string) (c : contact) : contact :=
  if nonempty email && has_char "@" email then
    let username := default EmptyString (head (split "@" email)) in
    if has_char "." username || has_char "_" username then
      let parts := split "." (replace_char "_" "." username) in
      if (2 <=? Z.of_nat (length parts))
         && forallb (λ p, (1 <? len p) && isalpha (remove_all "-" p)) parts
      then <["name" := PStr (join " " (capitalize <$> parts))]> c
      else c
    else c
  else c.

(** [parent = element], then [find_parent()] [n] times, leaving the loop
    as soon as there is no parent. *)
Fixpoint nth_parent (n : nat) (e : element) : option element :=
  match n with
  | O => Some e
  | S n' => match find_parent e with
            | Some p => nth_parent n' p
            | None => None
            end
  end.

(** [if not contact['phone']: tel_links = ...] *)
Definition phone_from_tel_links (parent : element) (c : contact) : contact :=
  if negb (truthy (dict_get c "phone")) then
    match find_tel_links parent with
    | link :: _ => <["phone" := PStr (strip (remove_all "tel:" (href link)))]> c
    | [] => c
    end
  else c.

Definition heading_tags : list string := ["h1"; "h2"; "h3"; "h4"; "h5"; "h6"].

(** The heading loop of [extract_contact_from_context]. *)
Definition name_from_headings (parent : element) (c : contact) : contact :=
  set_if_found "name"
    (find_first (λ heading_tag,
       match find_tag parent heading_tag with
       | Some heading =>
           let heading_text := get_text_strip heading in
           if nonempty heading_text && looks_like_name heading_text
           then Some heading_text else None
       | None => None
       end) heading_tags) c.

(** The body of [for tag in parent.find_all([...])]. *)
Definition class_tag_step (c : contact) (tag : element) : contact :=
  let tag_classes := lower (join " " (class_list tag)) in
  let c :=
    if any_in ["name"; "staff"; "faculty"; "person"; "profile"; "author";
               "contact-name"] tag_classes
    then
      let text := get_text_strip tag in
      if nonempty text && looks_like_name text
      then <["name" := PStr text]> c else c
    else c in
  if any_in ["title"; "position"; "designation"; "role"; "job"] tag_classes
  then
    let text := get_text_strip tag in
    if nonempty text && looks_like_designation text
    then <["designation" := PStr text]> c else c
  else c.

(** The body of [for parent_level in range(3)]. *)
Definition parent_level_step (email_element : element) (c : contact)
    (parent_level : nat) : contact :=
  match nth_parent (parent_level + 1) email_element with
  | Some parent =>
      let c := phone_from_tel_links parent c in
      let c := name_from_headings parent c in
      foldl class_tag_step c
            (find_all_tags parent ["strong"; "b"; "span"; "div"; "p"])
  | None => c
  end.

(** [if ai_result.get(k) and not contact.get(k): contact[k] = ai_result[k]] *)
Definition fill_field (k : string) (ai_result c : contact) : contact :=
  if truthy (dict_get ai_result k) && negb (truthy (dict_get c k))
  then <[k := dict_get ai_result k]> c
  else c.

(** The block under [if ai_result:]. *)
Definition fill_missing_fields (ai_result c : contact) : contact :=
  if bool_decide (ai_result ≠ ∅) then
    let c := fill_field "name" ai_result c in
    let c := fill_field "designation" ai_result c in
    let c := fill_field "phone" ai_result c in
    let c := fill_field "department" ai_result c in
    c
  else c.

(** Whether the name branch of that block counts a success. *)
Definition name_filled (ai_result c : contact) : bool :=
  bool_decide (ai_result ≠ ∅)
  && truthy (dict_get ai_result "name") && negb (truthy (dict_get c "name")).

Definition needs_ai (c : contact) : bool :=
  let name := dict_get c "name" in
  negb (truthy name) || has_char "@" (str_or_empty name)
  || (len (str_or_empty name) <? 3).

(** Strategy 3 of [extract_contact_from_context]. *)
Definition ai_completion (self : scraper) (email_element : element)
    (email : string) (c : contact) : contact * scraper :=
  match ai_extractor_obj self with
  | Some ex =>
      if use_ai self && needs_ai c then
        let up e := default e (find_parent e) in
        let context_element := up (up email_element) in
        let html_context := take_str 4000 (to_html context_element) in
        let '(ai_result, ex') := extract_contact_info ex html_context email 2 in
        (fill_missing_fields ai_result c,
         {| use_ai := use_ai self;
            ai_extractor_obj := Some ex';
            ai_extractions_count := ai_extractions_count self + 1;
            ai_success_count :=
              ai_success_count self
              + (if name_filled ai_result c then 1 else 0);
            clock_reads := clock_reads self |})
      else (c, self)
  | None => (c, self)
  end.

(** [return contact if contact.get('email') else None] *)
Definition contact_if_email (c : contact) : option contact :=
  if truthy (dict_get c "email") then Some c else None.

Definition extract_contact_from_context (self : scraper)
    (email_element : element) (email source_url : string) (soup : element)
  : option contact * scraper :=
  let '(now, self) := read_clock self in
  let c := new_context_contact email source_url now in
  let c := fallback_name email c in
  let c := foldl (parent_level_step email_element) c [0; 1; 2]%nat in
  let '(c, self) := ai_completion self email_element email c in
  (contact_if_email c, self).

(** [lines = [l.strip() for l in parent_text.split('\n') if l.strip()]] *)
Definition stripped_lines (parent_text : string) : list string :=
  strip <$> filter (λ l, nonempty (strip l) = true) (split "010" parent_text).

(** [for j in range(lo, hi)]: the lines with index in [lo, hi). *)
Definition lines_between (lo hi : nat) (lines : list string) : list string :=
  take (hi - lo) (drop lo lines).

(** The two inner loops run for the first line that holds the email. *)
Definition name_and_designation_near (email : string) (lines : list string)
    (i : nat) (c : contact) : contact :=
  let c :=
    set_if_found "name"
      (find_first (λ line,
         let potential_name := strip line in
         if nonempty potential_name && looks_like_name potential_name
         then Some potential_name else None)
         (lines_between (Nat.max 0 (i - 3)) i lines)) c in
  set_if_found "designation"
    (find_first (λ line,
       let potential_designation := strip line in
       if nonempty potential_designation
          && looks_like_designation potential_designation
       then Some potential_designation else None)
       (lines_between i (Nat.min (length lines) (i + 3)) lines)) c.

(** Index of the first line that holds the email. *)
Fixpoint first_line_with (email : string) (lines : list string) (i : nat)
  : option nat :=
  match lines with
  | [] => None
  | line :: rest =>
      if contains email line then Some i
      else first_line_with email rest (S i)
  end.

(** The heading loop of [find_email_context] (no test that the text is
    non-empty before [looks_like_name]). *)
Definition name_from_headings_plain (context_element : element) (c : contact)
  : contact :=
  set_if_found "name"
    (find_first (λ heading_tag,
       match find_tag context_element heading_tag with
       | Some heading =>
           let heading_text := get_text_strip heading in
           if looks_like_name heading_text then Some heading_text else None
       | None => None
       end) heading_tags) c.

(** The body of [for text_elem in all_text_elements]. *)
Definition text_elem_step (email : string) (c : contact) (text_elem : element)
  : contact :=
  match find_parent text_elem with
  | Some parent =>
      let c := phone_from_tel_links parent c in
      let context_element := default parent (find_parent parent) in
      let c := name_from_headings_plain context_element c in
      let parent_text := get_text_lines context_element in
      let lines := stripped_lines parent_text in
      match first_line_with email lines 0 with
      | Some i => name_and_designation_near email lines i c
      | None => c
      end
  | None => c
  end.

(** [find_email_context]; [now] is the reading of the clock when the
    record is made. *)
Definition find_email_context (soup : element)
    (email source_url now : string) : option contact :=
  let c := new_context_contact email source_url now in
  let c := fallback_name email c in
  let all_text_elements := find_text_nodes soup email in
  let c := foldl (text_elem_step email) c all_text_elements in
  contact_if_email c.

(** A selector loop of [extract_contact_from_element]: the stripped text
    of the first selector whose match has text. *)
Definition first_text (e : element) (selectors : list string) : option string :=
  find_first (λ selector,
    match select_one e selector with
    | Some found =>
        if nonempty (strip (get_text found)) then Some (strip (get_text found))
        else None
    | None => None
    end) selectors.

(** [extract_contact_from_element]; [now] is the reading of the clock
    when the record is made. *)
Definition extract_contact_from_element (e : element)
    (source_url now : string) : contact :=
  let c := mk_contact PNone PNone PNone PNone PNone PNone
                      (PStr source_url) (PStr now) in
  let text_content := get_text e in
  let emails := re_findall email_pattern text_content in
  let c := <["email" := match emails with x :: _ => PStr x | [] => PNone end]> c in
  let c :=
    if negb (truthy (dict_get c "email")) then
      match find_mailto_links e with
      | link :: _ =>
          <["email" := PStr (strip (remove_all "mailto:" (href link)))]> c
      | [] => c
      end
    else c in
  let phones := re_findall phone_pattern text_content in
  let c := <["phone" := match phones with x :: _ => PStr x | [] => PNone end]> c in
  let c := phone_from_tel_links e c in
  let c := set_if_found "name"
    (first_text e [".name"; ".person-name"; "h1"; "h2"; "h3"; "h4"; ".title";
                   class_has "name"; "strong"; "b"]) c in
  let c := set_if_found "designation"
    (first_text e [".designation"; ".title"; ".position"; ".job-title";
                   class_has "designation"; class_has "position";
                   class_has "role"]) c in
  let c := set_if_found "university"
    (first_text e [".university"; ".institution"; ".organization";
                   class_has "university"; class_has "institution"]) c in
  let c := set_if_found "department"
    (first_text e [".department"; ".dept"; class_has "department"]) c in
  c.

Definition contact_selectors : list string :=
  [".contact-card"; ".contact-info"; ".person-card";
   ".staff-member"; ".faculty-member"; ".team-member"; ".profile";
   ".employee"; ".directory-entry"; ".counselor"; ".advisor";
   ".staff-card"; ".faculty-card"; ".person-profile";
   class_has "staff-member"; class_has "faculty-member";
   class_has "person-card"; class_has "contact-card";
   class_has "team-member"; class_has "employee"].

(** [contact and (contact.get('email') or contact.get('phone'))] *)
Definition has_email_or_phone (c : contact) : bool :=
  bool_decide (c ≠ ∅)
  && (truthy (dict_get c "email") || truthy (dict_get c "phone")).

(** The body of [for element in contact_elements]: the clock is read
    once for the element's record, which is kept when it has an email or
    a phone. *)
Definition element_step (source_url : string)
    (st : list contact * scraper) (e : element) : list contact * scraper :=
  let '(contacts, self) := st in
  let '(now, self) := read_clock self in
  let c := extract_contact_from_element e source_url now in
  if has_email_or_phone c then (contacts ++ [c], self) else (contacts, self).

(** The selector loop: the elements of the first selector that matches
    anything, each extracted and kept when it has an email or a phone. *)
Definition structural_contacts (self : scraper) (soup : element)
    (source_url : string) : list contact * scraper :=
  match find_first (λ selector,
          match select soup selector with
          | [] => None
          | contact_elements => Some contact_elements
          end) contact_selectors with
  | Some contact_elements =>
      foldl (element_step source_url) ([], self) contact_elements
  | None => ([], self)
  end.

(** [email = mailto_link.get('href', '').replace('mailto:', '').strip()] *)
Definition mailto_address (mailto_link : element) : string :=
  strip (remove_all "mailto:" (href mailto_link)).

(** The body of [for mailto_link in mailto_links], threading the list of
    contacts and the scraper. *)
Definition mailto_step (source_url : string) (soup : element)
    (st : list contact * scraper) (mailto_link : element)
  : list contact * scraper :=
  let '(contacts, self) := st in
  let email := mailto_address mailto_link in
  if nonempty email && has_char "@" email then
    match extract_contact_from_context self mailto_link email source_url soup with
    | (Some c, self') =>
        if bool_decide (c ≠ ∅) then (contacts ++ [c], self') else (contacts, self')
    | (None, self') => (contacts, self')
    end
  else (contacts, self).

(** The body of [for email in set(emails)]: the clock is read once for
    the email's record. *)
Definition text_email_step (source_url : string) (soup : element)
    (st : list contact * scraper) (email : string) : list contact * scraper :=
  let '(contacts, self) := st in
  let '(now, self) := read_clock self in
  match find_email_context soup email source_url now with
  | Some c =>
      if bool_decide (c ≠ ∅) then (contacts ++ [c], self) else (contacts, self)
  | None => (contacts, self)
  end.

(** The content handed over by the fetcher: the HTML text, or a dict that
    holds it under one of three keys (the values are taken to be strings,
    so the [str(html_content)] conversion is the identity). Writing the
    raw HTML to the output folder is left out. *)
Inductive html_content :=
  | ContentStr (s : string)
  | ContentDict (d : gmap string string).

(** The first block of [extract_contacts_from_html]: the HTML text, read
    from the dict under [html], [content] or [text] in that order;
    [None] stands for the early [return []]. *)
Definition content_html (content : html_content) : option string :=
  match content with
  | ContentStr s => Some s
  | ContentDict d =>
      match d !! "html" with
      | Some s => Some s
      | None =>
          match d !! "content" with
          | Some s => Some s
          | None => d !! "text"
          end
      end
  end.

(** The addresses that tier 3 anchors on: the mailto targets and the
    addresses found in the page text. *)
Definition page_anchors (soup : element) : list string :=
  (mailto_address <$> find_mailto_links_nocase soup)
  ++ re_findall email_pattern (get_text soup).

(** The two contextual paths, run when the structural tier found nothing. *)
Definition contextual_contacts (self : scraper) (soup : element)
    (source_url : string) : list contact * scraper :=
  let '(contacts, self) :=
    foldl (mailto_step source_url soup) ([], self)
          (find_mailto_links_nocase soup) in
  match contacts with
  | _ :: _ => (contacts, self)
  | [] =>
      let all_text := get_text soup in
      let emails := re_findall email_pattern all_text in
      foldl (text_email_step source_url soup) ([], self) (set_iter emails)
  end.

Definition extract_contacts_from_html (self : scraper)
    (content : html_content) (source_url : string)
  : list contact * scraper :=
  match content_html content with
  | None => ([], self)
  | Some html =>
      let soup := parse_html html in
      let '(contacts, self) := structural_contacts self soup source_url in
      match contacts with
      | _ :: _ => (contacts, self)
      | [] => contextual_contacts self soup source_url
      end
  end.

(** The two bookkeeping fields of a record made at the clock's reading
    number [n]. *)
Definition carries_meta (source_url : string) (c : contact) (n : nat) : Prop :=
  c !! "source_url" = Some (PStr source_url)
  ∧ c !! "scraped_date" = Some (PStr (strftime_now n)).

(** Reading numbers in strictly increasing order, all from [lo] on and
    below [hi]. *)
Fixpoint readings_between (lo hi : nat) (ns : list nat) : Prop :=
  match ns with
  | [] => (lo ≤ hi)%nat
  | n :: ns => (lo ≤ n)%nat ∧ readings_between (S n) hi ns
  end.

(** The contacts gathered so far, each with its own reading of the clock,
    the readings in the order of the contacts and all before the
    scraper's next reading. *)
Definition stamped_so_far (source_url : string) (lo : nat)
    (st : list contact * scraper) : Prop :=
  ∃ ns, Forall2 (carries_meta source_url) st.1 ns
        ∧ readings_between lo (clock_reads st.2) ns.

(* ===================================================================== *)
(** * uni_scraper/spiders/contact_spider.py: ContactSpider                *)
(* ===================================================================== *)

(** A selector loop of the spider's [extract_contact_from_element] for
    designation, university and department: the first non-empty
    [css(selector).get()], stripped. *)
Definition first_css_text (e : element) (selectors : list string)
  : option string :=
  find_first (λ selector,
    match css_get e selector with
    | Some text => if nonempty text then Some (strip text) else None
    | None => None
    end) selectors.

(** The name loop asks for more than two characters after stripping. *)
Definition first_css_name (e : element) (selectors : list string)
  : option string :=
  find_first (λ selector,
    match css_get e selector with
    | Some name =>
        if nonempty name && (2 <? len (strip name)) then Some (strip name)
        else None
    | None => None
    end) selectors.

(** The attribute selector of links whose [href] starts with a scheme. *)
Definition href_starts (scheme : string) : string :=
  "a[href^=" +:+ dq +:+ scheme +:+ dq +:+ "]::attr(href)".

(** [if not contact.get('name') and contact.get('email')]: the last words
    before the email in the flattened text. *)
Definition name_before_email (text_content : string) (c : contact) : contact :=
  if negb (truthy (dict_get c "name")) && truthy (dict_get c "email") then
    let text_parts :=
      split_ws (before_first (str_or_empty (dict_get c "email")) text_content) in
    if 2 <=? Z.of_nat (length text_parts) then
      let potential_name := join " " (last_n 4 text_parts) in
      if nonempty potential_name
         && (5 <? len potential_name) && (len potential_name <? 50)
      then <["name" := PStr (strip potential_name)]> c
      else c
    else c
  else c.

Definition spider_extract_contact_from_element (e : element)
    (source_url : string) : contact :=
  let c : contact := <["source_url" := PStr source_url]> ∅ in
  let text_content := join " " (css_getall e "*::text") in
  let emails := re_findall email_pattern text_content in
  let c := <["email" := match emails with x :: _ => PStr x | [] => PNone end]> c in
  let c :=
    if negb (truthy (dict_get c "email")) then
      match css_getall e (href_starts "mailto:") with
      | link :: _ => <["email" := PStr (strip (remove_all "mailto:" link))]> c
      | [] => c
      end
    else c in
  let phones := re_findall phone_pattern text_content in
  let c := <["phone" := match phones with x :: _ => PStr x | [] => PNone end]> c in
  let c :=
    if negb (truthy (dict_get c "phone")) then
      match css_getall e (href_starts "tel:") with
      | link :: _ => <["phone" := PStr (strip (remove_all "tel:" link))]> c
      | [] => c
      end
    else c in
  let c := set_if_found "name"
    (first_css_name e [".name::text"; ".person-name::text"; "h1::text";
                       "h2::text"; "h3::text"; "h4::text"; ".title::text";
                       class_has "name" +:+ "::text"; "strong::text";
                       "b::text"]) c in
  let c := name_before_email text_content c in
  let c := set_if_found "designation"
    (first_css_text e [".designation::text"; ".title::text"; ".position::text";
                       ".job-title::text"; class_has "designation" +:+ "::text";
                       class_has "position" +:+ "::text";
                       class_has "role" +:+ "::text"]) c in
  let c := set_if_found "university"
    (first_css_text e [".university::text"; ".institution::text";
                       ".organization::text";
                       class_has "university" +:+ "::text";
                       class_has "institution" +:+ "::text"]) c in
  let c := set_if_found "department"
    (first_css_text e [".department::text"; ".dept::text";
                       class_has "department" +:+ "::text"]) c in
  c.

Definition spider_contact_selectors : list string :=
  [".contact-card"; ".contact-info"; ".contact"; ".person-card";
   ".staff-member"; ".faculty-member"; ".team-member"; ".profile";
   ".employee"; ".directory-entry"; class_has "contact";
   class_has "staff"; class_has "faculty"; class_has "member"].

(** The contacts that [for element in elements: ... yield contact]
    yields. *)
Definition yield_valid (elements : list element) (response_url : string)
  : list contact :=
  filter (λ c, has_email_or_phone c = true)
         ((λ e, spider_extract_contact_from_element e response_url)
            <$> elements).

(** [ContactSpider.extract_contacts]: the sequence of yielded contacts. *)
Definition extract_contacts (response : element) (response_url : string)
  : list contact :=
  match find_first (λ selector,
          match css response selector with
          | [] => None
          | contact_elements => Some contact_elements
          end) spider_contact_selectors with
  | Some contact_elements => yield_valid contact_elements response_url
  | None =>
      match css response "table tr, .directory-list li, ul.contacts li" with
      | _ :: _ as table_rows => yield_valid table_rows response_url
      | [] =>
          let page_text := lower response_url in
          if any_in ["contact"; "staff"; "faculty"; "directory"; "people";
                     "team"; "about"] page_text
          then yield_valid [response] response_url
          else []
      end
  end.

End extraction.

(* ===================================================================== *)
(** * uni_scraper/pipelines.py: DataCleaningPipeline.clean_email          *)
(* ===================================================================== *)

(** [[a-zA-Z0-9]] *)
Definition alnum_char (c : ascii) : bool :=
  let n := code c in
  ((48 <=? n) && (n <=? 57) || (65 <=? n) && (n <=? 90)
   || (97 <=? n) && (n <=? 122))%N.

(** [[a-zA-Z]] *)
Definition letter_char (c : ascii) : bool :=
  let n := code c in
  ((65 <=? n) && (n <=? 90) || (97 <=? n) && (n <=? 122))%N.

(** [[a-zA-Z0-9._%+-]] *)
Definition local_char (c : ascii) : bool :=
  alnum_char c || bool_decide (c ∈ ["."; "_"; "%"; "+"; "-"]%char).

(** [[a-zA-Z0-9.-]] *)
Definition domain_char (c : ascii) : bool :=
  alnum_char c || bool_decide (c ∈ ["."; "-"]%char).

Fixpoint all_chars (p : ascii → bool) (s : string) : bool :=
  match s with
  | EmptyString => true
  | String c s' => p c && all_chars p s'
  end.

(** The text before and after the last [.], if there is one. *)
Fixpoint rsplit_dot (s : string) : option (string * string) :=
  match s with
  | EmptyString => None
  | String c s' =>
      match rsplit_dot s' with
      | Some (d, t) => Some (String c d, t)
      | None => if bool_decide (c = "."%char) then Some (EmptyString, s')
                else None
      end
  end.

(** [$] without [re.MULTILINE] matches at the end and just before a
    newline that ends the string: the subject without that newline. *)
Fixpoint before_final_newline (s : string) : string :=
  match s with
  | EmptyString => EmptyString
  | String c EmptyString => if bool_decide (c = "010"%char) then EmptyString else s
  | String c s' => String c (before_final_newline s')
  end.

(** [re.match(r'^[a-zA-Z0-9._%+-]+@[a-zA-Z0-9.-]+\.[a-zA-Z]{2,}$', s)] as
    a recogniser. Neither class holds an [@], so a match has exactly one;
    the last class holds no [.], so the literal dot is the last one of
    the subject. *)
Definition address_pattern_matches (s : string) : bool :=
  match split "@" (before_final_newline s) with
  | [local; rest] =>
      nonempty local && all_chars local_char local &&
      match rsplit_dot rest with
      | Some (domain, tld) =>
          nonempty domain && all_chars domain_char domain
          && (2 <=? len tld) && all_chars letter_char tld
      | None => false
      end
  | _ => false
  end.

(** [re.sub(r'^mailto:', '', email)] *)
Definition sub_mailto_prefix (email : string) : string :=
  if startswith "mailto:" email then drop_str 7 email else email.

(** [DataCleaningPipeline.clean_email]; [process_item] calls it when the
    item's email is truthy. *)
Definition clean_email (email : string) : option string :=
  let email := strip (lower email) in
  let email := sub_mailto_prefix email in
  if address_pattern_matches email then Some email else None.

(* ===================================================================== *)
(** * Notions used to state the results                                   *)
(* ===================================================================== *)

(** No leading whitespace. *)
Definition starts_clean (s : string) : bool :=
  match s with
  | EmptyString => true
  | String c _ => negb (isspace c)
  end.

(** The dedup key of a record: the value the loop reads with
    [cleaned_contact.get('email', '')]. *)
Definition email_key (r : contact) : pyval :=
  dict_get_default r "email" (PStr "").

(** The records the loop appends, given the emails seen so far. *)
Fixpoint kept (seen : gset pyval) (cs : list contact) : list contact :=
  match cs with
  | [] => []
  | c :: cs' =>
      let r := clean_contact_data c in
      if truthy (email_key r) && bool_decide (email_key r ∉ seen)
      then r :: kept ({[email_key r]} ∪ seen) cs'
      else kept seen cs'
  end.

(** What every kept record looks like. *)
Definition output_record (seen : gset pyval) (r : contact) : Prop :=
  clean_contact_data r = r ∧ truthy (email_key r) = true ∧ email_key r ∉ seen.

(** The eight keys of a contact dict. *)
Definition contact_fields : list string :=
  ["email"; "phone"; "name"; "designation"; "department"; "university";
   "source_url"; "scraped_date"].

(** The email rule in the specification's words: after trimming, exactly
    one "@" splits the input into a local part and a domain part that are
    both non-empty after trimming. *)
Definition spec_email_well_formed (e : string) : bool :=
  match split "@" (strip e) with
  | [local; domain] => nonempty (strip local) && nonempty (strip domain)
  | _ => false
  end.

(** The email rule as the specification states it, for one input value. *)
Definition spec_email_rule (v : pyval) : Prop :=
  clean_email_field v ≠ PNone ↔
  ∃ e, v = PStr e ∧ spec_email_well_formed e = true.

(** The specification's invariant on a cleaned email: lowercased, trimmed
    and a single local\@domain split with both halves present. *)
Definition spec_email_invariant (e : string) : Prop :=
  lower e = e ∧ strip e = e ∧ spec_email_well_formed e = true.

(** Descending in the key. *)
Definition descending {A} (key : A → Z) (l : list A) : Prop :=
  StronglySorted (λ x y, key y ≤ key x) l.

(** What the specification asks of an emitted contact: an email or a
    phone that is not null. *)
Definition has_contact_point (c : contact) : Prop :=
  dict_get c "email" ≠ PNone ∨ dict_get c "phone" ≠ PNone.

(** The fields that the LLM completion may fill. *)
Definition completion_fields : list string :=
  ["name"; "designation"; "phone"; "department"].

(** A contact whose email is one of the given anchoring addresses. *)
Definition anchored (anchors : list string) (c : contact) : Prop :=
  ∃ email, email ∈ anchors ∧ dict_get c "email" = PStr email
           ∧ nonempty email = true.

(** The four free-text fields of a contact. *)
Definition text_fields : list string :=
  ["name"; "designation"; "university"; "department"].

(** The emails seen once the loop has run over [cs], starting from [seen]. *)
Definition seen_after (seen : gset pyval) (cs : list contact) : gset pyval :=
  list_to_set (email_key <$> kept seen cs) ∪ seen.

(** The sum of the weights of a keyword table. *)
Definition sum_weights (table : list (string * Z)) : Z :=
  foldr (λ kw acc, kw.2 + acc) 0 table.

(** The entries of a keyword table that occur in a lowercased URL. *)
Definition matching_keywords (table : list (string * Z)) (url_lower : string)
  : list (string * Z) :=
  filter (λ kw, contains kw.1 url_lower = true) table.

(** The placeholder answers that the LLM sanitiser rejects, and the
    terms it does not accept inside a name. *)
Definition llm_placeholders : list string := ["n/a"; "null"; "none"].

Definition llm_blocked_name_terms : list string :=
  ["contact"; "email"; "click here"; "n/a"; "null"; "none"].

(** What [_call_openrouter] returns for an outcome that is no exception. *)
Definition outcome_result (o : llm_outcome) : contact :=
  match o with
  | LlmData data => _clean_extracted_data data
  | _ => ∅
  end.

(** The context that [extract_contact_info] puts in the prompt. *)
Definition truncated_context (html_context : string) : string :=
  if 4000 <? len html_context then take_str 4000 html_context
  else html_context.

(** The keys that the extractors assign after they have created a record. *)
Definition written_keys : list string :=
  ["name"; "email"; "phone"; "designation"; "university"; "department"].

(* ===================================================================== *)
(** * A small page, for running the extractors                            *)
(* ===================================================================== *)

(** ASCII letters only. *)
Definition ascii_isalpha_char (c : ascii) : bool :=
  let n := code c in
  ((65 <=? n) && (n <=? 90) || (97 <=? n) && (n <=? 122))%N.

Fixpoint ascii_all_alpha (s : string) : bool :=
  match s with
  | EmptyString => true
  | String c s' => ascii_isalpha_char c && ascii_all_alpha s'
  end.

Definition ascii_isalpha (s : string) : bool := nonempty s && ascii_all_alpha s.

Definition ascii_upper_char (c : ascii) : ascii :=
  let n := code c in
  if ((97 <=? n) && (n <=? 122))%N then ascii_of_N (n - 32) else c.

Definition ascii_capitalize (s : string) : string :=
  match s with
  | EmptyString => EmptyString
  | String c s' => String (ascii_upper_char c) (lower s')
  end.

(** A clock that moves on by a second at every reading (the seconds are
    the last digit of the reading number). *)
Definition sample_clock (n : nat) : string :=
  "2024-01-01 00:00:0" +:+ String (ascii_of_nat (48 + n mod 10)) EmptyString.

(** What the endpoint answers at its fourth request. *)
Definition sample_llm_answer : contact :=
  <["phone" := PStr "+60 3-5555 0199"]>
  (<["designation" := PStr " Senior Lecturer "]>
  (<["name" := PStr "Dr. Jane Roe"]> ∅)).

(** A page of four nodes: the document 0, a block 1 inside it, and in the
    block a mailto link 2 and a tel link 3. No selector matches, the text
    search finds nothing, and the endpoint raises three times before it
    answers. *)
Definition sample_env : Env := {|
  element := nat;
  parse_html := λ _, 0%nat;
  select := λ _ _, [];
  select_one := λ _ _, None;
  get_text := λ _, "Jane Roe jane.roe@uni.edu";
  get_text_strip := λ _, "Jane Roe jane.roe@uni.edu";
  get_text_lines := λ _, "Jane Roe jane.roe@uni.edu";
  to_html := λ _, "<div><a>jane.roe@uni.edu</a></div>";
  find_mailto_links_nocase := λ e, if (e =? 0)%nat then [2%nat] else [];
  find_mailto_links := λ e, if (e =? 0)%nat then [2%nat] else [];
  find_tel_links := λ e, if (e <=? 1)%nat then [3%nat] else [];
  href := λ e, if (e =? 2)%nat then "mailto:jane.roe@uni.edu"
               else if (e =? 3)%nat then "tel:+60 3-5555 0100" else "";
  find_parent := λ e, match e with
                      | O => None
                      | S O => Some 0%nat
                      | _ => Some 1%nat
                      end;
  find_tag := λ _ _, None;
  find_all_tags := λ _ _, [];
  class_list := λ _, [];
  find_text_nodes := λ _ _, [];
  css := λ _ _, [];
  css_getall := λ _ _, [];
  css_get := λ _ _, None;
  re_findall := λ _ _, [];
  re_match := λ _ _, false;
  set_iter := remove_dups;
  set_iter_elem := elem_of_remove_dups;
  set_iter_NoDup := NoDup_remove_dups;
  isalpha := ascii_isalpha;
  capitalize := ascii_capitalize;
  strftime_now := sample_clock;
  call_openrouter := λ n _ _,
    if (n <? 3)%nat then LlmRaise
    else if (n =? 3)%nat then LlmData sample_llm_answer else LlmBadJson
|}.

(** A scraper without the AI step, one whose extractor is about to send
    its first request, and one about to send its fourth. *)
Definition sample_scraper_plain : scraper := Scraper false None 0 0 0.

Definition sample_scraper_failing : scraper :=
  Scraper true (Some (AiExtractor true 0)) 0 0 0.

Definition sample_scraper_answering : scraper :=
  Scraper true (Some (AiExtractor true 3)) 0 0 0.

(** Heuristic results: one with a plausible name, one whose name is an
    address (so that the AI step runs) and that has no phone. *)
Definition sample_heuristic_named : contact :=
  mk_contact (PStr "Jane Roe") (PStr "jane.roe@uni.edu") PNone PNone PNone
             PNone (PStr "https://u.my/contact") (PStr "2024-01-01 00:00:00").

Definition sample_heuristic_suspicious : contact :=
  mk_contact (PStr "jane.roe@uni.edu") (PStr "jane.roe@uni.edu") PNone PNone
             PNone PNone (PStr "https://u.my/contact")
             (PStr "2024-01-01 00:00:00").

(* Raw contacts for the normaliser and the deduplicator. *)

(** A phone-only record, as the structural tier can emit it. *)
Definition phone_only_contact : contact :=
  mk_contact (PStr "Front Desk") PNone (PStr "+60 3-5555 0100") PNone PNone
             PNone (PStr "https://u.my/contact") (PStr "2024-01-01 00:00:00").

(** Two records for one address; the second is the richer one. *)
Definition sparse_contact : contact :=
  mk_contact PNone (PStr "jane.roe@uni.edu") PNone PNone PNone PNone
             (PStr "https://u.my/staff") (PStr "2024-01-01 00:00:00").

Definition rich_contact : contact :=
  mk_contact (PStr "Dr. Jane Roe") (PStr " jane.roe@uni.edu ")
             (PStr "+60 3-5555 0100") (PStr "Senior Lecturer") PNone
             (PStr "Physics") (PStr "https://u.my/people")
             (PStr "2024-01-01 00:00:05").

(** A record whose address has upper-case letters and blanks around it. *)
Definition mixed_case_contact : contact :=
  mk_contact PNone (PStr " Jane.Roe@Uni.EDU ") PNone PNone PNone
             PNone (PStr "https://u.my/staff") (PStr "").

(** A page without anchors whose text holds two addresses, one of them
    twice. *)
Definition sample_text_env : Env := {|
  element := nat;
  parse_html := λ _, 0%nat;
  select := λ _ _, [];
  select_one := λ _ _, None;
  get_text := λ _, "a.b@uni.edu c.d@uni.edu a.b@uni.edu";
  get_text_strip := λ _, "a.b@uni.edu c.d@uni.edu a.b@uni.edu";
  get_text_lines := λ _, "a.b@uni.edu c.d@uni.edu a.b@uni.edu";
  to_html := λ _, "<p>a.b@uni.edu c.d@uni.edu a.b@uni.edu</p>";
  find_mailto_links_nocase := λ _, [];
  find_mailto_links := λ _, [];
  find_tel_links := λ _, [];
  href := λ _, "";
  find_parent := λ _, None;
  find_tag := λ _ _, None;
  find_all_tags := λ _ _, [];
  class_list := λ _, [];
  find_text_nodes := λ _ _, [];
  css := λ _ _, [];
  css_getall := λ _ _, [];
  css_get := λ _ _, None;
  re_findall := λ _ _, ["a.b@uni.edu"; "c.d@uni.edu"; "a.b@uni.edu"];
  re_match := λ _ _, false;
  set_iter := remove_dups;
  set_iter_elem := elem_of_remove_dups;
  set_iter_NoDup := NoDup_remove_dups;
  isalpha := ascii_isalpha;
  capitalize := ascii_capitalize;
  strftime_now := sample_clock;
  call_openrouter := λ _ _ _, LlmRaise
|}.

(* ===================================================================== *)
(** * uni_scraper/pipelines.py: the two item pipelines                    *)
(* ===================================================================== *)

(** The characters outside the class [[^\d\+\-\(\)\s]]: on the code points
    0..255 [\d] is 0-9 (the superscripts are digits for [str.isdigit] but
    not decimal digits for [re]) and [\s] is the table of [str.isspace]. *)
Definition phone_char (c : ascii) : bool :=
  ((48 <=? code c) && (code c <=? 57))%N
  || bool_decide (c ∈ ["+"; "-"; "("; ")"]%char)
  || isspace c.

(** [re.sub('[^...]', '', s)] for a class of single characters: the
    characters of the class' complement are kept, in their order. *)
Fixpoint keep_chars (p : ascii → bool) (s : string) : string :=
  match s with
  | EmptyString => EmptyString
  | String c s' => if p c then String c (keep_chars p s') else keep_chars p s'
  end.

Module DataCleaningPipeline.

(** [DataCleaningPipeline.clean_phone] *)
Definition clean_phone (phone : string) : option string :=
  let phone := strip phone in
  let phone := keep_chars phone_char phone in
  if nonempty phone then Some phone else None.

(** [' '.join(s.split())] followed by [.strip()] *)
Definition normalise_text (s : string) : string :=
  let cleaned := join " " (split_ws s) in
  strip cleaned.

(** [v] as the field value that a cleaner's result stands for. *)
Definition of_option (r : option string) : pyval :=
  match r with
  | Some s => PStr s
  | None => PNone
  end.

(** [if adapter.get(field): adapter[field] = f(adapter[field])] where [f]
    starts with a [str] method: a truthy value that is not a string
    raises [AttributeError] (the result [None]); an unset, null or empty
    field is left as it is. *)
Definition clean_item_field (f : string → pyval) (field : string)
    (item : contact) : option contact :=
  match dict_get item field with
  | PStr s => if nonempty s then Some (<[field := f s]> item) else Some item
  | PNum n => if truthy (PNum n) then None else Some item
  | PNone => Some item
  end.

(** [DataCleaningPipeline.process_item]; [now] is the reading of
    [datetime.now().strftime('%Y-%m-%d %H:%M:%S')]. *)
Definition process_item (now : string) (item : contact) : option contact :=
  item ← clean_item_field (λ s, PStr (normalise_text s)) "name" item;
  item ← clean_item_field (λ s, PStr (normalise_text s)) "designation" item;
  item ← clean_item_field (λ s, PStr (normalise_text s)) "university" item;
  item ← clean_item_field (λ s, PStr (normalise_text s)) "department" item;
  item ← clean_item_field (λ s, of_option (clean_email s)) "email" item;
  item ← clean_item_field (λ s, of_option (clean_phone s)) "phone" item;
  Some (<["scraped_date" := PStr now]> item).

End DataCleaningPipeline.

Module DuplicateFilterPipeline.

(** [DuplicateFilterPipeline.process_item]: the new [emails_seen] and the
    item that is passed on, or [None] where the code raises [DropItem]. *)
Definition process_item (emails_seen : gset pyval) (item : contact)
  : gset pyval * option contact :=
  let email := dict_get item "email" in
  if truthy email then
    if bool_decide (email ∈ emails_seen) then (emails_seen, None)
    else ({[email]} ∪ emails_seen, Some item)
  else (emails_seen, Some item).

(** The pipeline object over the items of a crawl, in the order in which
    they reach it: [emails_seen] starts empty and lives as long as the
    object; the result is the items that were not dropped. *)
Fixpoint process_items (emails_seen : gset pyval) (items : list contact)
  : list contact :=
  match items with
  | [] => []
  | item :: items' =>
      match process_item emails_seen item with
      | (emails_seen', Some item') => item' :: process_items emails_seen' items'
      | (emails_seen', None) => process_items emails_seen' items'
      end
  end.

End DuplicateFilterPipeline.

(** The decimal digits 0-9. *)
Definition ascii_digit (c : ascii) : bool :=
  ((48 <=? code c) && (code c <=? 57))%N.

(** A non-empty text without whitespace. *)
Definition word (w : string) : Prop :=
  nonempty w = true ∧ all_chars (λ c, negb (isspace c)) w = true.

(** A text made of words, one space between two. *)
Definition single_spaced (s : string) : Prop :=
  ∃ words, s = join " " words ∧ Forall word words.

(** The email the duplicate filter reads from an item. *)
Definition item_email (item : contact) : pyval := dict_get item "email".

Definition sample_item : contact :=
  mk_contact (PStr "  Jane
   Roe ") (PStr " MAILTO:Jane.Roe@Uni.EDU ") (PStr "Tel: +60 (3) 5555-1234")
             (PStr "Dean") PNone (PStr "") (PStr "https://u.my/staff") PNone.

(** The items that carry an email the duplicate filter looks at. *)
Definition with_email (item : contact) : bool := truthy (dict_get item "email").

(** A field value as the spider sets it: a string or [None]. *)
Definition str_or_none (v : pyval) : Prop :=
  match v with
  | PNum _ => False
  | _ => True
  end.

(** An item all of whose fields hold strings or [None]. *)
Definition str_valued (item : contact) : Prop :=
  map_Forall (λ _ v, str_or_none v) item.

(** The item the spider yields for the sample page of addresses. *)
Definition sample_spider_item : contact :=
  <["phone" := PStr "a.b@uni.edu"]>
  (<["email" := PStr "a.b@uni.edu"]>
  (<["source_url" := PStr "https://u.my/contact"]> ∅)).

(* ===================================================================== *)
(** * oxylabs_integration.py: URL discovery (Phase 1 of discover_urls)    *)
(* ===================================================================== *)

(** [patterns] of [discover_urls_by_patterns]. *)
Definition patterns : list string :=
  ["/contact"; "/contact-us"; "/contactus"; "/contacts"; "/get-in-touch";
   "/reach-us";
   "/staff"; "/staff-directory"; "/faculty"; "/faculty-directory";
   "/people"; "/team"; "/directory"; "/our-staff"; "/our-faculty";
   "/about/staff"; "/about/faculty";
   "/about/contact"; "/about/contacts"; "/support"; "/help"].

(** [discover_urls_by_patterns]: the loop appends to [pattern_urls]. *)
Definition discover_urls_by_patterns (start_url base_domain : string)
    (discovered_urls : gset string) : list string :=
  foldl (λ pattern_urls pattern,
           let test_url := "https://" +:+ base_domain +:+ pattern in
           if bool_decide (test_url ∉ discovered_urls)
           then pattern_urls ++ [test_url]
           else pattern_urls)
        [] patterns.

(** The mutable variables of [discover_urls] during Phase 1. *)
Record discovery := Discovery {
  discovered_urls : gset string;
  urls_to_process : list string;
  processed_urls : gset string;
  discovery_count : Z
}.

(** [discovered_urls = set([start_url])], [urls_to_process = [start_url]],
    [processed_urls = set()]; the counter is set to 0 before the loop. *)
Definition initial_discovery (start_url : string) : discovery :=
  Discovery {[start_url]} [start_url] ∅ 0.

(** Method 2: [for url in pattern_urls: if url not in discovered_urls: ...],
    with [urls_to_process.insert(0, url)]. *)
Definition add_pattern_urls (pattern_urls : list string) (st : discovery)
  : discovery :=
  foldl (λ st url,
           if bool_decide (url ∉ discovered_urls st)
           then Discovery ({[url]} ∪ discovered_urls st)
                          (url :: urls_to_process st)
                          (processed_urls st) (discovery_count st)
           else st)
        st pattern_urls.

(** [max_discovery_requests] as Method 3 sets it. *)
Definition max_discovery_requests (enable_deep_crawl : bool)
    (deep_crawl_requests : Z) : Z :=
  if enable_deep_crawl then Z.min deep_crawl_requests 100 else 0.

Definition staff_keywords : list string :=
  ["staff"; "faculty"; "directory"; "people"; "team"; "professor";
   "lecturer"; "academic"].

(** [is_staff_url] *)
Definition is_staff_url (url : string) : bool :=
  let url_lower := lower url in
  any_in staff_keywords url_lower.

(** [urls_to_process = priority_queue + regular_queue] *)
Definition staff_first (st : discovery) : discovery :=
  let priority_queue := filter (λ url, is_staff_url url = true)
                               (urls_to_process st) in
  let regular_queue := filter (λ url, is_staff_url url ≠ true)
                              (urls_to_process st) in
  Discovery (discovered_urls st) (priority_queue ++ regular_queue)
            (processed_urls st) (discovery_count st).

(** The extensions the crawl loop passes over. *)
Definition skipped_extensions : list string :=
  [".pdf"; ".doc"; ".docx"; ".xls"; ".xlsx"; ".zip"; ".rar"; ".jpg";
   ".png"; ".gif"; ".css"; ".js"; ".svg"; ".ico"].

(** [s.endswith(c)] for one character. *)
Fixpoint endswith_char (c : ascii) (s : string) : bool :=
  match s with
  | EmptyString => false
  | String a EmptyString => bool_decide (a = c)
  | String _ s' => endswith_char c s'
  end.

Section discovery.

(** [urlparse(url).netloc], or [None] where [urlparse] raises. *)
Variable netloc : string → option string.

(** What fetching a URL gives the crawl loop: the anchors of the page in
    document order, each as [parsed_url.netloc] and [clean_url], up to the
    first anchor at which an exception leaves the [try] block. The list is
    empty when the request fails, the status is not 200, there are no
    results or the content is not a string of more than 100 characters. *)
Variable page_links : string → list (string * string).

Variable base_domain : string.

(** Method 1, the loop over a non-empty [sitemap_urls]; the third
    component is [added_count]. An exception of [urlparse] ends the loop
    with what was added before it. *)
Fixpoint add_sitemap_urls (max_pages : Z) (sitemap_urls : list string)
    (st : discovery) (added_count : Z) : discovery * Z :=
  match sitemap_urls with
  | [] => (st, added_count)
  | url :: rest =>
      match netloc url with
      | None => (st, added_count)
      | Some parsed_netloc =>
          if bool_decide (parsed_netloc = base_domain) then
            let st := Discovery ({[url]} ∪ discovered_urls st)
                                (urls_to_process st ++ [url])
                                (processed_urls st) (discovery_count st) in
            let added_count := added_count + 1 in
            if (max_pages <=? 50) && (max_pages * 3 <=? added_count)
            then (st, added_count)
            else add_sitemap_urls max_pages rest st added_count
          else add_sitemap_urls max_pages rest st added_count
      end
  end.

(** The URLs of the sitemap that the loop of Method 1 reaches when
    nothing stops it early: those before the first one at which
    [urlparse] raises. *)
Fixpoint parsable_prefix (sitemap_urls : list string) : list string :=
  match sitemap_urls with
  | [] => []
  | url :: rest =>
      match netloc url with
      | None => []
      | Some _ => url :: parsable_prefix rest
      end
  end.

(** The URLs that Method 1 adds, counting from [added_count]: of the URLs
    it reaches, those on the base domain; for [max_pages] of at most 50
    only as many of them as it takes for the count to reach
    [max_pages * 3], and at least one. *)
Definition sitemap_added (max_pages : Z) (sitemap_urls : list string)
    (added_count : Z) : list string :=
  let accepted := filter (λ url, netloc url = Some base_domain)
                         (parsable_prefix sitemap_urls) in
  if max_pages <=? 50
  then take (Z.to_nat (Z.max 1 (max_pages * 3 - added_count))) accepted
  else accepted.

(** The test on one anchor of a fetched page. *)
Definition new_page_url (st : discovery) (link : string * string) : bool :=
  let '(parsed_netloc, clean_url) := link in
  bool_decide (parsed_netloc = base_domain)
  && bool_decide (clean_url ∉ discovered_urls st)
  && negb (any_in skipped_extensions (lower clean_url))
  && negb (startswith "mailto:" clean_url)
  && negb (startswith "tel:" clean_url)
  && negb (endswith_char "#" clean_url).

(** The body of [for link in soup.find_all('a', href=True)]. *)
Definition link_step (st : discovery) (link : string * string) : discovery :=
  if new_page_url st link then
    let clean_url := link.2 in
    Discovery ({[clean_url]} ∪ discovered_urls st)
              (if is_staff_url clean_url
               then clean_url :: urls_to_process st
               else urls_to_process st ++ [clean_url])
              (processed_urls st) (discovery_count st)
  else st.

(** The condition of the [while] loop. *)
Definition loop_cond (max_discovery max_requests : Z) (st : discovery) : bool :=
  bool_decide (urls_to_process st ≠ [])
  && (Z.of_nat (size (discovered_urls st)) <? max_discovery)
  && (discovery_count st <? max_requests)
  && (0 <? max_requests).

(** The body of the [while] loop: pop the first URL, pass over it if it
    was processed, otherwise count it, fetch it and walk its anchors. *)
Definition loop_body (st : discovery) : discovery :=
  match urls_to_process st with
  | [] => st
  | current_url :: rest =>
      if bool_decide (current_url ∈ processed_urls st) then
        Discovery (discovered_urls st) rest (processed_urls st)
                  (discovery_count st)
      else
        foldl link_step
              (Discovery (discovered_urls st) rest
                         ({[current_url]} ∪ processed_urls st)
                         (discovery_count st + 1))
              (page_links current_url)
  end.

(** The [while] loop run for at most [fuel] iterations. *)
Fixpoint discovery_loop (max_discovery max_requests : Z) (fuel : nat)
    (st : discovery) : discovery :=
  match fuel with
  | O => st
  | S fuel' =>
      if loop_cond max_discovery max_requests st
      then discovery_loop max_discovery max_requests fuel' (loop_body st)
      else st
  end.

End discovery.

(** The URLs a fetched anchor may add: on the base domain, without a
    skipped extension anywhere in the lower-cased URL, no [mailto:] or
    [tel:] prefix and no trailing [#]. *)
Definition crawlable (base_domain : string) (link : string * string) : Prop :=
  link.1 = base_domain
  ∧ Forall (λ ext, contains ext (lower link.2) = false) skipped_extensions
  ∧ startswith "mailto:" link.2 = false
  ∧ startswith "tel:" link.2 = false
  ∧ endswith_char "#" link.2 = false.

(** Sample collaborators: a site of three pages. *)
Definition sample_netloc (url : string) : option string :=
  if startswith "https://u.my/" url then Some "u.my"
  else if startswith "https://[" url then None
  else Some "other.org".

Definition sample_page_links (url : string) : list (string * string) :=
  if bool_decide (url = "https://u.my/") then
    [("u.my", "https://u.my/about"); ("u.my", "https://u.my/staff");
     ("u.my", "https://u.my/a.pdf"); ("x.org", "https://x.org/staff")]
  else if bool_decide (url = "https://u.my/staff") then
    [("u.my", "https://u.my/staff/jane"); ("u.my", "https://u.my/")]
  else [].

(* ===================================================================== *)
(** * oxylabs_integration.py: scrape_multiple_urls, the clean CSV step    *)
(* ===================================================================== *)

(** How the step after the raw JSON dump ends. *)
Inductive csv_outcome :=
  | NoCsv
    (** [all_contacts] is empty: nothing is cleaned or written *)
  | CsvIndexError
    (** [unique_contacts[0]] on an empty list *)
  | CsvValueError
    (** [DictWriter.writerows] meets a row with a key outside [fieldnames] *)
  | CsvWritten (fieldnames : gset string) (rows : list contact).

(** [if all_contacts: unique_contacts = clean_and_deduplicate_contacts(...)],
    then a [csv.DictWriter] with [fieldnames=unique_contacts[0].keys()]
    writes the header and all rows. *)
Definition clean_csv_step (all_contacts : list contact) : csv_outcome :=
  match all_contacts with
  | [] => NoCsv
  | _ :: _ =>
      let unique_contacts := clean_and_deduplicate_contacts all_contacts in
      match unique_contacts with
      | [] => CsvIndexError
      | first :: _ =>
          let fieldnames := dom first in
          if forallb (λ row, bool_decide (dom row ⊆ fieldnames))
                     unique_contacts
          then CsvWritten fieldnames unique_contacts
          else CsvValueError
      end
  end.

(** A raw contact whose email survives cleaning. *)
Definition has_usable_email (c : contact) : Prop :=
  clean_email_field (dict_get c "email") ≠ PNone.

(* ===================================================================== *)
(** * oxylabs_integration.py: main, the numeric options                   *)
(* ===================================================================== *)

Section main_args.

(** [int(s)], or [None] where [int] raises. *)
Variable py_int : string → option Z.

(** [int(arg.split('=')[1])] inside [try: ... except: pass]: [None]
    where the index or the conversion raises. *)
Definition int_after_equals (arg : string) : option Z :=
  split "=" arg !! 1%nat ≫= py_int.

(** [max_workers] after the loop over [sys.argv]. *)
Definition main_max_workers (argv : list string) : Z :=
  foldl (λ max_workers arg,
           if startswith "--workers=" arg then
             match int_after_equals arg with
             | Some n => Z.min n 30
             | None => max_workers
             end
           else max_workers)
        20 argv.

(** [(enable_deep_crawl, deep_crawl_requests)] after the loop over
    [sys.argv]. *)
Definition main_deep_crawl (argv : list string) : bool * Z :=
  foldl (λ '(enable_deep_crawl, deep_crawl_requests) arg,
           if bool_decide (arg = "--deep-crawl") then
             (true, deep_crawl_requests)
           else if startswith "--deep-crawl=" arg then
             match int_after_equals arg with
             | Some n => (true, Z.max 1 (Z.min n 100))
             | None => (true, deep_crawl_requests)
             end
           else (enable_deep_crawl, deep_crawl_requests))
        (false, 50) argv.

End main_args.

(** A reading of [int] for the samples: decimal digits only. *)
Fixpoint digits_value (acc : Z) (s : string) : option Z :=
  match s with
  | EmptyString => Some acc
  | String c s' =>
      if ((48 <=? code c) && (code c <=? 57))%N
      then digits_value (10 * acc + Z.of_N (code c - 48)) s'
      else None
  end.

Definition sample_int (s : string) : option Z :=
  if nonempty s then digits_value 0 s else None.

(* ===================================================================== *)
(** * ai_extractor.py: analyze_urls_for_contacts                          *)
(* ===================================================================== *)

(** How a call of [analyze_urls_for_contacts] ends: with a value, or with
    the [TypeError] of [results.extend] on a value that is not iterable. *)
Inductive analysis (value : Type) :=
  | Returned (v : value)
  | Raised.

Arguments Returned {value} v.
Arguments Raised {value}.

(** [range(0, n, 50)] *)
Definition batch_starts (n : nat) : list nat :=
  (λ k, 50 * k)%nat <$> seq 0 ((n + 49) / 50).

(** [urls[i:i+50]] for each start [i]. *)
Definition url_batches (urls : list string) : list (list string) :=
  (λ i, take 50 (drop i urls)) <$> batch_starts (length urls).

Section url_analysis.

(** What the answer of the endpoint parses to: any JSON value. *)
Variable value : Type.

(** The empty list [[]]. *)
Variable empty_list : value.

(** [results.extend(batch_results)]: the extended list, or [None] where
    [batch_results] is not iterable. *)
Variable extend : value → value → option value.

(** [_call_openrouter_for_urls] on the prompt built from a list of URLs,
    for the request number counted from 0: the returned value, or [None]
    where the call raises. *)
Variable call_openrouter_for_urls : nat → list string → option value.

(** [for attempt in range(max_retries + 1)]: the result and the requests
    sent so far, each recorded by the URLs of its prompt. *)
Fixpoint url_attempts (remaining : nat) (urls : list string)
    (sent : list (list string)) : value * list (list string) :=
  match remaining with
  | O => (empty_list, sent)
  | S remaining' =>
      match call_openrouter_for_urls (length sent) urls with
      | Some result => (result, sent ++ [urls])
      | None => url_attempts remaining' urls (sent ++ [urls])
      end
  end.

(** [for i in range(0, len(urls), 50)] with the recursive call given as
    [analyze_batch]. *)
Fixpoint analyze_batches
    (analyze_batch : list string → list (list string)
                     → option (analysis value * list (list string)))
    (batches : list (list string)) (results : value)
    (sent : list (list string))
  : option (analysis value * list (list string)) :=
  match batches with
  | [] => Some (Returned results, sent)
  | batch :: batches' =>
      match analyze_batch batch sent with
      | None => None
      | Some (Raised, sent') => Some (Raised, sent')
      | Some (Returned batch_results, sent') =>
          match extend results batch_results with
          | None => Some (Raised, sent')
          | Some results' =>
              analyze_batches analyze_batch batches' results' sent'
          end
      end
  end.

(** [analyze_urls_for_contacts], with a bound on the depth of its
    recursion ([None] when the bound is reached). *)
Fixpoint analyze_urls_for_contacts (depth : nat) (enabled : bool)
    (urls : list string) (max_retries : Z) (sent : list (list string))
  : option (analysis value * list (list string)) :=
  match depth with
  | O => None
  | S depth' =>
      if negb enabled || bool_decide (urls = []) then
        Some (Returned empty_list, sent)
      else if (50 <? length urls)%nat then
        analyze_batches
          (λ batch sent,
             analyze_urls_for_contacts depth' enabled batch max_retries sent)
          (url_batches urls) empty_list sent
      else
        let '(result, sent) :=
          url_attempts (Z.to_nat (max_retries + 1)) urls sent in
        Some (Returned result, sent)
  end.

End url_analysis.

(** A request for some 50 consecutive URLs of the list, or for fewer at
    its end. *)
Definition batch_of (urls batch : list string) : Prop :=
  batch ≠ [] ∧ (length batch ≤ 50)%nat
  ∧ ∃ k : nat, batch = take 50 (drop (50 * k) urls).

(** Sample endpoint: it raises on every second request and answers the
    others with the number of URLs it was asked about. *)
Definition sample_url_endpoint (n : nat) (urls : list string) : option nat :=
  if Nat.even n then None else Some (length urls).

Definition sample_urls (n : nat) : list string :=
  replicate n "https://u.my/page".

(* ===================================================================== *)
(** * oxylabs_integration.py: discover_urls, Phases 2 and 3               *)
(* ===================================================================== *)

Section ai_url_filter.

Variable value : Type.
Variable empty_list : value.
Variable extend : value → value → option value.
Variable call_openrouter_for_urls : nat → list string → option value.

(** [bool(ai_results)] *)
Variable value_truthy : value → bool.

(** How Phase 3 reads [ai_results]: the dict
    [{r['url']: r for r in ai_results}] with, for each URL, the integer
    [int(ai_likelihood * 100)], or [None] for an entry on which that
    conversion or the two comparisons of [ai_likelihood] raise. The
    reading itself is [None] where [len(ai_results)] or the dict
    comprehension raises. An entry whose URL is not a string matches no
    item and is left out. *)
Variable ai_scores_map : value → option (gmap string (option Z)).

(** The body of [for item in uncertain_urls]: [None] where it raises.
    The keys [ai_likelihood] and [ai_reason] that it adds to the item are
    not read again. *)
Definition rescore_item (scores : gmap string (option Z)) (item : url_score)
  : option url_score :=
  match scores !! url item with
  | None => Some item
  | Some None => None
  | Some (Some ai_boost) =>
      let old_score := score item in
      Some (UrlScore (url item) (Z.max old_score ai_boost) (keywords item))
  end.

(** Phases 2 and 3 and the final slice of [discover_urls], for the
    sequence in which the scoring loop enumerates [discovered_urls].
    [enabled] tells whether an extractor could be had and is enabled. Any
    exception inside Phase 3 is caught and leaves [prioritized_urls] as
    Phase 2 computed it. The result is [(final_urls,
    len(prioritized_urls))] and the requests that were sent. *)
Definition discover_urls_ranked (enable_ai_url_filter enabled : bool)
    (discovered_urls : list string) (max_pages : Z)
  : (list string * Z) * list (list string) :=
  let url_scores := score_url <$> discovered_urls in
  let url_scores := sort_desc score url_scores in
  let high_priority := filter (λ item, 60 ≤ score item) url_scores in
  let medium_priority :=
    filter (λ item, 20 ≤ score item ∧ score item < 60) url_scores in
  let low_priority :=
    filter (λ item, 0 < score item ∧ score item < 20) url_scores in
  let no_priority := filter (λ item, score item = 0) url_scores in
  let prioritized_urls :=
    (url <$> high_priority) ++ (url <$> medium_priority) ++
    (url <$> low_priority) ++ (url <$> no_priority) in
  let '(prioritized_urls, sent) :=
    if enable_ai_url_filter && enabled then
      let uncertain_urls := medium_priority ++ low_priority ++ no_priority in
      match uncertain_urls with
      | [] => (prioritized_urls, [])
      | _ :: _ =>
          let urls_to_analyze := url <$> uncertain_urls in
          match analyze_urls_for_contacts value empty_list extend
                  call_openrouter_for_urls 2 true urls_to_analyze 2 [] with
          | Some (Returned ai_results, sent) =>
              if value_truthy ai_results then
                match ai_scores_map ai_results
                      ≫= (λ scores, mapM (rescore_item scores) uncertain_urls)
                with
                | Some uncertain_urls =>
                    let all_items := high_priority ++ uncertain_urls in
                    let all_items := sort_desc score all_items in
                    (url <$> all_items, sent)
                | None => (prioritized_urls, sent)
                end
              else (prioritized_urls, sent)
          | Some (Raised, sent) => (prioritized_urls, sent)
          | None => (prioritized_urls, [])
          end
      end
    else (prioritized_urls, []) in
  let final_urls := slice_to prioritized_urls max_pages in
  ((final_urls, Z.of_nat (length prioritized_urls)), sent).

End ai_url_filter.

(** Sample reading of an answer: whatever the answer, one URL is given
    the boost 90 and another the boost 10. *)
Definition sample_scores_map (answer : nat) : option (gmap string (option Z)) :=
  Some {[ "https://u.my/office" := Some 90; "https://u.my/news" := Some 10 ]}.

(* ===================================================================== *)
(** * The primitives on small inputs                                      *)
(* ===================================================================== *)

Example strip_ex : strip "  a b
 " = "a b".
Proof. reflexivity. Qed.

Example split_ex : split "@" "a@b@" = ["a"; "b"; ""].
Proof. reflexivity. Qed.

Example split_none_ex : split "@" "ab" = ["ab"].
Proof. reflexivity. Qed.

Example lower_ex : lower "Dr-Smith/STAFF" = "dr-smith/staff".
Proof. reflexivity. Qed.

Example remove_all_ex : remove_all "mailto:" "mailto:a@b.c" = "a@b.c".
Proof. reflexivity. Qed.

Example contains_ex : contains "staff" "https://u.my/staff-list" = true.
Proof. reflexivity. Qed.

Example clean_ex :
  clean_contact_data
    (mk_contact (PStr " Jane Roe ") (PStr " Jane.Roe @ Uni.edu ") (PStr "5551234567")
                (PStr "PI") PNone (PStr "Physics") (PStr "https://u.my/staff")
                (PStr "2024-01-01 00:00:00"))
  = mk_contact (PStr "Jane Roe") (PStr "Jane.Roe@Uni.edu") PNone
               PNone PNone (PStr "Physics") (PStr "https://u.my/staff")
               (PStr "2024-01-01 00:00:00").
Proof. vm_compute. reflexivity. Qed.

(* ===================================================================== *)
(** * Facts about the string primitives                                   *)
(* ===================================================================== *)

Section string_facts.

Lemma append_cons c s t : String c s +:+ t = String c (s +:+ t).
Proof. reflexivity. Qed.

Lemma append_empty_l t : "" +:+ t = t.
Proof. reflexivity. Qed.

Lemma lstrip_starts_clean s : starts_clean (lstrip s) = true.
Proof.
  induction s as [|c s IH]; simpl; [done|].
  destruct (isspace c) eqn:Hc; [done|]. simpl. by rewrite Hc.
Qed.

Lemma lstrip_id s : starts_clean s = true → lstrip s = s.
Proof.
  destruct s as [|c s]; simpl; [done|].
  by destruct (isspace c).
Qed.

Lemma rstrip_starts_clean s : starts_clean s = true → starts_clean (rstrip s) = true.
Proof.
  destruct s as [|c s]; simpl; [done|].
  destruct (isspace c) eqn:Hc; [done|]. intros _.
  destruct (rstrip s); simpl; by rewrite Hc.
Qed.

Lemma rstrip_idemp s : rstrip (rstrip s) = rstrip s.
Proof.
  induction s as [|c s IH]; simpl; [done|].
  destruct (rstrip s) as [|d r] eqn:Hr.
  - destruct (isspace c) eqn:Hc; simpl; [done|]. by rewrite Hc.
  - cbn [rstrip]. cbn [rstrip] in IH. by rewrite IH.
Qed.

Lemma strip_starts_clean s : starts_clean (strip s) = true.
Proof. apply rstrip_starts_clean, lstrip_starts_clean. Qed.

Lemma strip_idemp s : strip (strip s) = strip s.
Proof.
  unfold strip at 1. rewrite (lstrip_id (strip s)) by apply strip_starts_clean.
  apply rstrip_idemp.
Qed.

Lemma rstrip_strip s : rstrip (strip s) = strip s.
Proof. apply rstrip_idemp. Qed.

(** Stripping keeps a character that is not whitespace. *)
Lemma has_char_lstrip c s :
  isspace c = false → has_char c (lstrip s) = has_char c s.
Proof.
  intros Hc. induction s as [|a s IH]; simpl; [done|].
  destruct (isspace a) eqn:Ha; [|done].
  rewrite IH. rewrite bool_decide_eq_false_2; [done|congruence].
Qed.

Lemma has_char_rstrip c s :
  isspace c = false → has_char c (rstrip s) = has_char c s.
Proof.
  intros Hc. induction s as [|a s IH]; simpl; [done|].
  destruct (rstrip s) as [|d r] eqn:Hr.
  - simpl in IH. rewrite <- IH.
    destruct (isspace a) eqn:Ha; simpl.
    + rewrite bool_decide_eq_false_2; [done|congruence].
    + by rewrite orb_false_r.
  - cbn [has_char]. by rewrite <- IH.
Qed.

Lemma has_char_strip c s :
  isspace c = false → has_char c (strip s) = has_char c s.
Proof.
  intros Hc. unfold strip.
  by rewrite has_char_rstrip, has_char_lstrip.
Qed.

(** Stripping never adds a character. *)
Lemma has_char_lstrip_false c s :
  has_char c s = false → has_char c (lstrip s) = false.
Proof.
  induction s as [|a s IH]; simpl; [done|].
  intros [? ?]%orb_false_iff.
  destruct (isspace a); [auto|]. simpl. by apply orb_false_iff.
Qed.

Lemma has_char_rstrip_false c s :
  has_char c s = false → has_char c (rstrip s) = false.
Proof.
  induction s as [|a s IH]; simpl; [done|].
  intros [Ha Hs]%orb_false_iff. specialize (IH Hs).
  destruct (rstrip s) as [|d r].
  - destruct (isspace a); simpl; [done|]. by rewrite Ha.
  - cbn [has_char]. cbn [has_char] in IH. by rewrite Ha, IH.
Qed.

Lemma has_char_strip_false c s :
  has_char c s = false → has_char c (strip s) = false.
Proof. intros. by apply has_char_rstrip_false, has_char_lstrip_false. Qed.

Lemma has_char_nonempty c s : has_char c s = true → nonempty s = true.
Proof. by destruct s. Qed.

Lemma has_char_app c a b :
  has_char c (a +:+ b) = has_char c a || has_char c b.
Proof.
  induction a as [|x a IH]; [done|].
  rewrite append_cons. simpl. by rewrite IH, orb_assoc.
Qed.

Lemma has_char_app_sep c a b : has_char c (a +:+ String c b) = true.
Proof.
  induction a as [|x a IH].
  - rewrite append_empty_l. simpl. by rewrite bool_decide_eq_true_2.
  - rewrite append_cons. simpl. by rewrite IH, orb_true_r.
Qed.

(** [split]: its parts are free of the separator. *)
Lemma split_parts sep s :
  Forall (λ p, has_char sep p = false) (split sep s).
Proof.
  induction s as [|c s IH]; simpl.
  - by repeat constructor.
  - case_bool_decide as Hc.
    + by constructor.
    + destruct (split sep s) as [|p ps].
      * repeat constructor. simpl.
        by rewrite bool_decide_eq_false_2.
      * inversion IH; subst. constructor; [|done].
        simpl. by rewrite bool_decide_eq_false_2.
Qed.

Lemma split_no_sep sep s : has_char sep s = false → split sep s = [s].
Proof.
  induction s as [|c s IH]; simpl; [done|].
  intros [Hc Hs]%orb_false_iff. rewrite Hc. by rewrite (IH Hs).
Qed.

Lemma split_app_sep sep a b :
  has_char sep a = false →
  split sep (a +:+ String sep b) = a :: split sep b.
Proof.
  induction a as [|c a IH]; intros Ha.
  - rewrite append_empty_l. simpl. by rewrite bool_decide_eq_true_2.
  - simpl in Ha. apply orb_false_iff in Ha as [Hc Ha].
    rewrite append_cons. simpl. rewrite Hc. by rewrite (IH Ha).
Qed.

(** A string that starts clean and whose first part is followed by a
    character that is not whitespace. *)
Lemma starts_clean_app a c t :
  starts_clean a = true → isspace c = false →
  starts_clean (a +:+ String c t) = true.
Proof.
  destruct a as [|x a]; intros Ha Hc.
  - rewrite append_empty_l. simpl. by rewrite Hc.
  - by rewrite append_cons.
Qed.

Lemma rstrip_cons_clean c t :
  isspace c = false → rstrip (String c t) = String c (rstrip t).
Proof. intros Hc. simpl. destruct (rstrip t); [by rewrite Hc|done]. Qed.

Lemma rstrip_app_clean a c t :
  isspace c = false →
  rstrip (a +:+ String c t) = a +:+ String c (rstrip t).
Proof.
  intros Hc. induction a as [|x a IH].
  - rewrite !append_empty_l. by apply rstrip_cons_clean.
  - rewrite !append_cons. cbn [rstrip]. rewrite IH.
    destruct a; by rewrite ?append_empty_l, ?append_cons.
Qed.

(** A trimmed local part, a non-whitespace separator and a trimmed
    domain part make a trimmed string. *)
Lemma strip_joined a c b :
  isspace c = false →
  strip (strip a +:+ String c (strip b)) = strip a +:+ String c (strip b).
Proof.
  intros Hc. unfold strip at 1.
  rewrite lstrip_id by (apply starts_clean_app; [apply strip_starts_clean|done]).
  rewrite rstrip_app_clean by done. by rewrite rstrip_strip.
Qed.

End string_facts.

(* ===================================================================== *)
(** * Field-level facts about clean_contact_data                          *)
(* ===================================================================== *)

Section clean_fields.

Lemma at_not_space : isspace "@" = false.
Proof. reflexivity. Qed.

(** The value of the email block, case by case. *)
Lemma clean_email_field_str e :
  has_char "@" e = true →
  clean_email_field (PStr e) =
    match split "@" (strip e) with
    | [local; domain] => PStr (strip local +:+ "@" +:+ strip domain)
    | _ => PStr (strip e)
    end.
Proof.
  intros He. unfold clean_email_field.
  by rewrite (has_char_nonempty _ _ He), He.
Qed.

Lemma clean_email_field_null v :
  (∀ e, v = PStr e → has_char "@" e = false) → clean_email_field v = PNone.
Proof.
  intros Hv. destruct v as [|e|n]; try done.
  unfold clean_email_field. rewrite (Hv e eq_refl).
  by rewrite andb_false_r.
Qed.

(** A non-null cleaned email is a string that holds an "@" and has no
    whitespace at either end. *)
Lemma clean_email_field_shape v e :
  clean_email_field v = PStr e →
  has_char "@" e = true ∧ strip e = e.
Proof.
  destruct v as [|e0|n]; try done.
  unfold clean_email_field.
  destruct (nonempty e0 && has_char "@" e0) eqn:Hg; [|done].
  apply andb_true_iff in Hg as [_ Hat].
  assert (Hat' : has_char "@" (strip e0) = true)
    by (by rewrite has_char_strip).
  pose proof (strip_idemp e0) as Hid.
  destruct (split "@" (strip e0)) as [|a [|b [|x l]]]; intros [= <-]; try done.
  change ("@" +:+ strip b) with (String "@" (strip b)). split.
  - apply has_char_app_sep.
  - apply strip_joined, at_not_space.
Qed.

Lemma clean_email_field_idemp v :
  clean_email_field (clean_email_field v) = clean_email_field v.
Proof.
  destruct v as [|e|n]; try done.
  destruct (has_char "@" e) eqn:Hat; cycle 1.
  { rewrite (clean_email_field_null (PStr e)); [done|]. by intros ? [= <-]. }
  rewrite (clean_email_field_str e Hat).
  assert (Hat' : has_char "@" (strip e) = true)
    by (by rewrite has_char_strip).
  pose proof (split_parts "@" (strip e)) as Hparts.
  destruct (split "@" (strip e)) as [|a [|b [|x l]]] eqn:Hsp.
  - rewrite (clean_email_field_str _ Hat'), strip_idemp. by rewrite Hsp.
  - rewrite (clean_email_field_str _ Hat'), strip_idemp. by rewrite Hsp.
  - apply Forall_cons in Hparts as [Ha Hparts].
    apply Forall_cons in Hparts as [Hb _].
    change ("@" +:+ strip b) with (String "@" (strip b)).
    rewrite clean_email_field_str by apply has_char_app_sep.
    rewrite strip_joined by apply at_not_space.
    rewrite split_app_sep by (by apply has_char_strip_false).
    rewrite split_no_sep by (by apply has_char_strip_false).
    by rewrite !strip_idemp.
  - rewrite (clean_email_field_str _ Hat'), strip_idemp. by rewrite Hsp.
Qed.

Lemma clean_phone_field_idemp v :
  clean_phone_field (clean_phone_field v) = clean_phone_field v.
Proof.
  destruct v as [|p|n]; try done. unfold clean_phone_field.
  destruct (nonempty p); [|done].
  destruct (nonempty (strip p) && (7 <=? len (strip p))
            && negb (isdigit (strip p))) eqn:Hg; [|done].
  rewrite strip_idemp, Hg.
  apply andb_true_iff in Hg as [[-> _]%andb_true_iff _]. done.
Qed.

Lemma clean_text_field_idemp v :
  clean_text_field (clean_text_field v) = clean_text_field v.
Proof.
  destruct v as [|s|n]; try done. unfold clean_text_field.
  destruct (nonempty s); [|done].
  destruct (nonempty (strip s) && (2 <? len (strip s))) eqn:Hg; [|done].
  rewrite strip_idemp, Hg.
  apply andb_true_iff in Hg as [-> _]. done.
Qed.

(** Reading the cleaned dict back, key by key. *)
Lemma clean_lookup_email c :
  clean_contact_data c !! "email" = Some (clean_email_field (dict_get c "email")).
Proof. unfold clean_contact_data. by simplify_map_eq. Qed.

Lemma clean_lookup_phone c :
  clean_contact_data c !! "phone" = Some (clean_phone_field (dict_get c "phone")).
Proof. unfold clean_contact_data. by simplify_map_eq. Qed.

Lemma clean_lookup_name c :
  clean_contact_data c !! "name" = Some (clean_text_field (dict_get c "name")).
Proof. unfold clean_contact_data. by simplify_map_eq. Qed.

Lemma clean_lookup_designation c :
  clean_contact_data c !! "designation"
  = Some (clean_text_field (dict_get c "designation")).
Proof. unfold clean_contact_data. by simplify_map_eq. Qed.

Lemma clean_lookup_university c :
  clean_contact_data c !! "university"
  = Some (clean_text_field (dict_get c "university")).
Proof. unfold clean_contact_data. by simplify_map_eq. Qed.

Lemma clean_lookup_department c :
  clean_contact_data c !! "department"
  = Some (clean_text_field (dict_get c "department")).
Proof. unfold clean_contact_data. by simplify_map_eq. Qed.

Lemma clean_lookup_source_url c :
  clean_contact_data c !! "source_url"
  = Some (dict_get_default c "source_url" (PStr "")).
Proof. unfold clean_contact_data. by simplify_map_eq. Qed.

Lemma clean_lookup_scraped_date c :
  clean_contact_data c !! "scraped_date"
  = Some (dict_get_default c "scraped_date" (PStr "")).
Proof. unfold clean_contact_data. by simplify_map_eq. Qed.

(** The cleaned dict has exactly the eight contact keys. *)
Lemma clean_dom c :
  dom (clean_contact_data c)
  = ({["email"; "phone"; "name"; "designation"; "university";
       "department"; "source_url"; "scraped_date"]} : gset string).
Proof. unfold clean_contact_data. rewrite !dom_insert_L. set_solver. Qed.

Lemma clean_contact_data_idemp c :
  clean_contact_data (clean_contact_data c) = clean_contact_data c.
Proof.
  unfold clean_contact_data at 1. unfold dict_get, dict_get_default.
  rewrite clean_lookup_email, clean_lookup_phone, clean_lookup_name,
    clean_lookup_designation, clean_lookup_university,
    clean_lookup_department, clean_lookup_source_url,
    clean_lookup_scraped_date.
  simpl.
  rewrite clean_email_field_idemp, clean_phone_field_idemp,
    !clean_text_field_idemp.
  reflexivity.
Qed.

End clean_fields.

(* ===================================================================== *)
(** * Facts about clean_and_deduplicate_contacts                          *)
(* ===================================================================== *)

Section dedup_facts.

Lemma foldl_dedup_step st cs :
  unique_contacts (foldl dedup_step st cs)
  = unique_contacts st ++ kept (seen_emails st) cs.
Proof.
  revert st. induction cs as [|c cs IH]; intros st; simpl.
  - by rewrite app_nil_r.
  - rewrite IH. unfold dedup_step, email_key.
    destruct (truthy _ && bool_decide _); simpl; [|done].
    by rewrite <- app_assoc.
Qed.

Lemma clean_and_deduplicate_contacts_kept cs :
  clean_and_deduplicate_contacts cs = kept ∅ cs.
Proof. unfold clean_and_deduplicate_contacts. by rewrite foldl_dedup_step. Qed.

Lemma email_key_clean c :
  email_key (clean_contact_data c) = clean_email_field (dict_get c "email").
Proof. unfold email_key, dict_get_default. by rewrite clean_lookup_email. Qed.

Lemma dict_get_clean_email c :
  dict_get (clean_contact_data c) "email"
  = clean_email_field (dict_get c "email").
Proof. unfold dict_get. by rewrite clean_lookup_email. Qed.

(** A cleaned email is either null or a non-empty string. *)
Lemma clean_email_field_truthy v :
  clean_email_field v ≠ PNone → truthy (clean_email_field v) = true.
Proof.
  intros Hv. destruct (clean_email_field v) as [|e|n] eqn:He; [done| |].
  - apply clean_email_field_shape in He as [Hat _].
    simpl. by apply has_char_nonempty in Hat.
  - destruct v as [|e0|n0]; try done. unfold clean_email_field in He.
    destruct (nonempty e0 && has_char "@" e0); [|done].
    by destruct (split "@" (strip e0)) as [|a [|b [|x l]]].
Qed.

Lemma kept_elem seen cs r :
  r ∈ kept seen cs →
  output_record seen r ∧ ∃ c, c ∈ cs ∧ r = clean_contact_data c.
Proof.
  revert seen. induction cs as [|c cs IH]; intros seen; simpl.
  - by intros ?%elem_of_nil.
  - destruct (truthy _ && bool_decide _) eqn:Hg.
    + apply andb_true_iff in Hg as [Ht Hn%bool_decide_eq_true].
      intros [->|Hin]%elem_of_cons.
      * split; [|exists c; split; [left|done]].
        split; [apply clean_contact_data_idemp|done].
      * destruct (IH _ Hin) as [(Hc & Hr & Hs) (c' & Hc' & ->)].
        split; [|exists c'; split; [by right|done]].
        split; [done|]. split; [done|].
        intros Hseen. apply Hs, elem_of_union. by right.
    + intros Hin. destruct (IH _ Hin) as [Ho (c' & Hc' & ->)].
      split; [done|]. exists c'. split; [by right|done].
Qed.

Lemma kept_keys_fresh seen cs :
  Forall (λ r, email_key r ∉ seen) (kept seen cs).
Proof.
  apply Forall_forall. intros r Hr.
  by destruct (kept_elem _ _ _ Hr) as [(_ & _ & ?) _].
Qed.

(** The kept records carry pairwise distinct emails. *)
Lemma kept_keys_NoDup seen cs : NoDup (email_key <$> kept seen cs).
Proof.
  revert seen. induction cs as [|c cs IH]; intros seen; simpl.
  - constructor.
  - destruct (truthy _ && bool_decide _); [|done].
    rewrite fmap_cons. constructor; [|done].
    intros (r & Hk & Hr)%list_elem_of_fmap.
    destruct (kept_elem _ _ _ Hr) as [(_ & _ & Hfresh) _].
    rewrite <- Hk in Hfresh.
    apply Hfresh, elem_of_union. left. by apply elem_of_singleton.
Qed.

(** Running the loop over records that are already cleaned, truthy in
    their email, pairwise distinct in it and unseen keeps them all. *)
Lemma kept_fixpoint seen rs :
  Forall (λ r, clean_contact_data r = r ∧ truthy (email_key r) = true) rs →
  Forall (λ r, email_key r ∉ seen) rs →
  NoDup (email_key <$> rs) →
  kept seen rs = rs.
Proof.
  revert seen. induction rs as [|r rs IH]; intros seen Hcl Hfresh Hnd; [done|].
  apply Forall_cons in Hcl as [[Hr Ht] Hcl].
  apply Forall_cons in Hfresh as [Hf Hfresh].
  rewrite fmap_cons in Hnd. apply NoDup_cons in Hnd as [Hnotin Hnd].
  simpl. rewrite Hr, Ht. rewrite bool_decide_eq_true_2 by done. simpl.
  f_equal. apply IH; [done| |done].
  apply Forall_forall. intros r' Hr'.
  rewrite Forall_forall in Hfresh. specialize (Hfresh _ Hr').
  assert (email_key r' ≠ email_key r).
  { intros Heq. apply Hnotin. rewrite <- Heq.
    apply list_elem_of_fmap. eauto. }
  by intros [?%elem_of_singleton|?]%elem_of_union.
Qed.

End dedup_facts.

(* ===================================================================== *)
(** * Facts about the URL prioritiser                                     *)
(* ===================================================================== *)

Example score_url_a : score_url url_a = UrlScore url_a 80 ["staff"].
Proof. reflexivity. Qed.

Example score_url_b : score_url url_b = UrlScore url_b 100 ["contact"].
Proof. reflexivity. Qed.

Example score_url_c : score_url url_c = UrlScore url_c 80 ["team"].
Proof. reflexivity. Qed.

Example score_url_two_keywords :
  score_url "https://u.my/Staff-Directory"
  = UrlScore "https://u.my/Staff-Directory" 340
             ["directory"; "staff-directory"; "staff"; "director"].
Proof. reflexivity. Qed.

Example slice_to_negative : slice_to [1; 2; 3; 4] (-1) = [1; 2; 3].
Proof. reflexivity. Qed.

Example sort_desc_stable_ex :
  sort_desc snd [("a", 80); ("b", 100); ("c", 80); ("d", 100)]
  = [("b", 100); ("d", 100); ("a", 80); ("c", 80)].
Proof. reflexivity. Qed.

Section sort_facts.

Context {A : Type} (key : A → Z).

Lemma insert_desc_perm x l : insert_desc key x l ≡ₚ x :: l.
Proof.
  induction l as [|y l IH]; simpl; [done|].
  destruct (key x <? key y); [|done].
  rewrite IH. apply Permutation_swap.
Qed.

Lemma sort_desc_cons x l :
  sort_desc key (x :: l) = insert_desc key x (sort_desc key l).
Proof. reflexivity. Qed.

Lemma sort_desc_perm l : sort_desc key l ≡ₚ l.
Proof.
  induction l as [|x l IH]; [done|].
  by rewrite sort_desc_cons, insert_desc_perm, IH.
Qed.

Lemma insert_desc_descending x l :
  descending key l → descending key (insert_desc key x l).
Proof.
  unfold descending. induction l as [|y l IH]; intros Hs; simpl.
  - by repeat constructor.
  - inversion Hs as [|? ? Hl Hy]; subst.
    destruct (key x <? key y) eqn:Hxy.
    + apply Z.ltb_lt in Hxy. constructor; [by apply IH|].
      rewrite insert_desc_perm. constructor; [lia|done].
    + apply Z.ltb_ge in Hxy. constructor; [done|].
      constructor; [done|].
      eapply Forall_impl; [exact Hy|]. simpl. intros; lia.
Qed.

Lemma sort_desc_descending l : descending key (sort_desc key l).
Proof.
  induction l as [|x l IH]; [constructor|].
  rewrite sort_desc_cons. by apply insert_desc_descending.
Qed.

(** Stability: the items of any one key keep their relative order. *)
Lemma insert_desc_stable k x l :
  filter (λ y, key y = k) (insert_desc key x l)
  = filter (λ y, key y = k) (x :: l).
Proof.
  induction l as [|y l IH]; simpl; [done|].
  destruct (key x <? key y) eqn:Hxy; [|done].
  apply Z.ltb_lt in Hxy.
  rewrite (filter_cons _ y), IH, !filter_cons.
  repeat case_decide; try done; lia.
Qed.

Lemma sort_desc_stable k l :
  filter (λ y, key y = k) (sort_desc key l) = filter (λ y, key y = k) l.
Proof.
  induction l as [|x l IH]; [done|].
  rewrite sort_desc_cons, insert_desc_stable, !filter_cons.
  by rewrite IH.
Qed.

(** Sorting commutes with a map that the key factors through. *)
Lemma insert_desc_fmap {B} (f : B → A) x l :
  insert_desc key (f x) (f <$> l) = f <$> insert_desc (key ∘ f) x l.
Proof.
  induction l as [|y l IH]; simpl; [done|].
  destruct (key (f x) <? key (f y)); [|done].
  rewrite fmap_cons. by rewrite <- IH.
Qed.

Lemma sort_desc_fmap {B} (f : B → A) l :
  sort_desc key (f <$> l) = f <$> sort_desc (key ∘ f) l.
Proof.
  induction l as [|x l IH]; [done|].
  rewrite fmap_cons, !sort_desc_cons.
  by rewrite IH, insert_desc_fmap.
Qed.

Lemma insert_desc_ext (key' : A → Z) x l :
  (∀ y, key y = key' y) → insert_desc key x l = insert_desc key' x l.
Proof.
  intros Hk. induction l as [|y l IH]; simpl; [done|].
  by rewrite IH, !Hk.
Qed.

Lemma sort_desc_ext (key' : A → Z) l :
  (∀ y, key y = key' y) → sort_desc key l = sort_desc key' l.
Proof.
  intros Hk. induction l as [|x l IH]; [done|].
  rewrite !sort_desc_cons, IH. by apply insert_desc_ext.
Qed.

Lemma filter_none (P : A → Prop) `{!∀ x, Decision (P x)} l :
  Forall (λ x, ¬ P x) l → filter P l = [].
Proof.
  induction 1 as [|x l Hx Hl IH]; [done|].
  by rewrite filter_cons_False.
Qed.

End sort_facts.

Section prioritize_facts.

Lemma keyword_scores_nonneg : Forall (λ kw : string * Z, 0 ≤ kw.2) keyword_scores.
Proof. unfold keyword_scores. repeat constructor; simpl; lia. Qed.

Lemma keyword_scores_keys_NoDup : NoDup keyword_scores.*1.
Proof. apply (bool_decide_unpack _). by vm_compute. Qed.

Lemma match_keywords_nonneg table u :
  Forall (λ kw : string * Z, 0 ≤ kw.2) table →
  0 ≤ (match_keywords table u).1.
Proof.
  unfold match_keywords.
  assert (H0 : 0 ≤ ((0, []) : Z * list string).1) by done.
  revert H0. generalize ((0, []) : Z * list string).
  induction table as [|kw table IH]; intros acc Hacc Ht; simpl; [done|].
  apply Forall_cons in Ht as [Hkw Ht].
  apply IH; [|done].
  destruct (contains kw.1 u); simpl; lia.
Qed.

Lemma score_url_nonneg u : 0 ≤ score (score_url u).
Proof. apply match_keywords_nonneg, keyword_scores_nonneg. Qed.

Lemma keyword_score_unfold u : keyword_score u = score (score_url u).
Proof. reflexivity. Qed.

Lemma keyword_score_nonneg u : 0 ≤ keyword_score u.
Proof. rewrite keyword_score_unfold. apply score_url_nonneg. Qed.

Lemma url_score_url u : url (score_url u) = u.
Proof. reflexivity. Qed.

(** The four score bands of a descending list, put back together, are
    the list itself. *)
Lemma bands_of_descending (l : list url_score) :
  descending score l → Forall (λ item, 0 ≤ score item) l →
  filter (λ item, 60 ≤ score item) l
  ++ filter (λ item, 20 ≤ score item ∧ score item < 60) l
  ++ filter (λ item, 0 < score item ∧ score item < 20) l
  ++ filter (λ item, score item = 0) l = l.
Proof.
  unfold descending.
  induction l as [|x l IH]; intros Hs Hpos; [done|].
  inversion Hs as [|? ? Hl Hx]; subst.
  apply Forall_cons in Hpos as [Hx0 Hpos].
  specialize (IH Hl Hpos). rewrite !filter_cons.
  destruct (decide (60 ≤ score x)) as [H60|H60].
  { repeat case_decide; try lia. simpl. by rewrite IH. }
  rewrite (filter_none (λ item, 60 ≤ score item) l) in *
    by (eapply Forall_impl; [exact Hx|]; simpl; intros; lia).
  destruct (decide (20 ≤ score x ∧ score x < 60)) as [H20|H20].
  { repeat case_decide; try lia. simpl in *. by rewrite IH. }
  rewrite (filter_none (λ item, 20 ≤ score item ∧ score item < 60) l) in *
    by (eapply Forall_impl; [exact Hx|]; simpl; intros; lia).
  destruct (decide (0 < score x ∧ score x < 20)) as [H1|H1].
  { repeat case_decide; try lia. simpl in *. by rewrite IH. }
  rewrite (filter_none (λ item, 0 < score item ∧ score item < 20) l) in *
    by (eapply Forall_impl; [exact Hx|]; simpl; intros; lia).
  case_decide; [|lia]. simpl in *. by rewrite IH.
Qed.

Lemma slice_to_all {A} (l : list A) n : Z.of_nat (length l) ≤ n → slice_to l n = l.
Proof.
  intros Hn. unfold slice_to.
  destruct (0 <=? n) eqn:H0; [|apply Z.leb_gt in H0; lia].
  apply take_ge. lia.
Qed.

(** Phase 2 computes the stable descending sort by keyword score. *)
Lemma prioritize_urls_sorted discovered_urls max_pages :
  prioritize_urls discovered_urls max_pages
  = (slice_to (sort_desc keyword_score discovered_urls) max_pages,
     Z.of_nat (length discovered_urls)).
Proof.
  unfold prioritize_urls. cbn zeta.
  rewrite <- !fmap_app.
  rewrite bands_of_descending; cycle 1.
  { apply sort_desc_descending. }
  { rewrite sort_desc_perm. apply Forall_fmap, Forall_forall.
    intros u _. unfold compose. apply score_url_nonneg. }
  rewrite length_fmap.
  rewrite (Permutation_length (sort_desc_perm score (score_url <$> discovered_urls))).
  rewrite length_fmap.
  rewrite sort_desc_fmap, <- list_fmap_compose.
  rewrite (list_fmap_ext (url ∘ score_url) id) by (intros; apply url_score_url).
  rewrite list_fmap_id.
  rewrite (sort_desc_ext (score ∘ score_url) keyword_score); [reflexivity|].
  intros u. unfold compose. by rewrite keyword_score_unfold.
Qed.

End prioritize_facts.

(* ===================================================================== *)
(** * Facts about the extractors                                          *)
(* ===================================================================== *)

Section dict_facts.

Lemma dict_get_insert k v (c : contact) : dict_get (<[k := v]> c) k = v.
Proof. unfold dict_get. by rewrite lookup_insert_eq. Qed.

Lemma dict_get_insert_ne k k' v (c : contact) :
  k ≠ k' → dict_get (<[k := v]> c) k' = dict_get c k'.
Proof. intros Hk. unfold dict_get. by rewrite lookup_insert_ne. Qed.

Lemma set_if_found_lookup_ne k k' found (c : contact) :
  k ≠ k' → set_if_found k found c !! k' = c !! k'.
Proof. intros Hk. destruct found; simpl; [by rewrite lookup_insert_ne|done]. Qed.

Lemma set_if_found_get_ne k k' found (c : contact) :
  k ≠ k' → dict_get (set_if_found k found c) k' = dict_get c k'.
Proof. intros Hk. unfold dict_get. by rewrite set_if_found_lookup_ne. Qed.

Lemma truthy_not_none v : truthy v = true → v ≠ PNone.
Proof. by destruct v. Qed.

Lemma foldl_preserves {A B} (P : A → Prop) (f : A → B → A) l a :
  (∀ a b, P a → P (f a b)) → P a → P (foldl f a l).
Proof.
  intros Hf. revert a. induction l as [|b l IH]; intros a Ha; simpl; [done|].
  apply IH, Hf, Ha.
Qed.

End dict_facts.

Section extraction_facts.

Context `{Env}.

(** ** The email of a contextual record is never reassigned *)

Lemma new_context_contact_email email source_url now :
  dict_get (new_context_contact email source_url now) "email" = PStr email.
Proof. reflexivity. Qed.

Lemma fallback_name_email email c :
  dict_get (fallback_name email c) "email" = dict_get c "email".
Proof.
  unfold fallback_name. repeat case_match; try done.
  by rewrite dict_get_insert_ne.
Qed.

Lemma phone_from_tel_links_email parent c :
  dict_get (phone_from_tel_links parent c) "email" = dict_get c "email".
Proof.
  unfold phone_from_tel_links. repeat case_match; try done.
  by rewrite dict_get_insert_ne.
Qed.

Lemma name_from_headings_email parent c :
  dict_get (name_from_headings parent c) "email" = dict_get c "email".
Proof. unfold name_from_headings. by rewrite set_if_found_get_ne. Qed.

Lemma name_from_headings_plain_email ce c :
  dict_get (name_from_headings_plain ce c) "email" = dict_get c "email".
Proof. unfold name_from_headings_plain. by rewrite set_if_found_get_ne. Qed.

Lemma class_tag_step_email c tag :
  dict_get (class_tag_step c tag) "email" = dict_get c "email".
Proof.
  unfold class_tag_step.
  repeat case_match; rewrite ?dict_get_insert_ne by done; done.
Qed.

Lemma parent_level_step_email el c level :
  dict_get (parent_level_step el c level) "email" = dict_get c "email".
Proof.
  unfold parent_level_step. destruct (nth_parent _ _) as [parent|]; [|done].
  apply (foldl_preserves (λ c', dict_get c' "email" = dict_get c "email")).
  - intros a b Ha. by rewrite class_tag_step_email.
  - by rewrite name_from_headings_email, phone_from_tel_links_email.
Qed.

Lemma name_and_designation_near_email email lines i c :
  dict_get (name_and_designation_near email lines i c) "email"
  = dict_get c "email".
Proof.
  unfold name_and_designation_near. by rewrite !set_if_found_get_ne.
Qed.

Lemma text_elem_step_email email c text_elem :
  dict_get (text_elem_step email c text_elem) "email" = dict_get c "email".
Proof.
  unfold text_elem_step. destruct (find_parent text_elem) as [parent|]; [|done].
  destruct (first_line_with _ _ _).
  - by rewrite name_and_designation_near_email,
      name_from_headings_plain_email, phone_from_tel_links_email.
  - by rewrite name_from_headings_plain_email, phone_from_tel_links_email.
Qed.

(** ** The completion step *)

Lemma fill_field_lookup_ne k' ai_result c k :
  k' ≠ k → fill_field k' ai_result c !! k = c !! k.
Proof.
  intros Hk. unfold fill_field.
  destruct (truthy _ && negb _); [by rewrite lookup_insert_ne|done].
Qed.

(** A field that holds a value before [fill_field] holds it after. *)
Lemma fill_field_frame k' ai_result c k :
  truthy (dict_get c k) = true →
  dict_get (fill_field k' ai_result c) k = dict_get c k.
Proof.
  intros Hk. unfold fill_field.
  destruct (decide (k' = k)) as [->|Hne].
  - by rewrite Hk, andb_false_r.
  - destruct (truthy _ && negb _); [by rewrite dict_get_insert_ne|done].
Qed.

Lemma fill_missing_fields_frame ai_result c k :
  truthy (dict_get c k) = true →
  dict_get (fill_missing_fields ai_result c) k = dict_get c k.
Proof.
  intros Hk. unfold fill_missing_fields. case_bool_decide; [|done].
  cbn zeta.
  assert (H1 := fill_field_frame "name" ai_result c k Hk).
  assert (H2 := fill_field_frame "designation" ai_result _ k
                  (eq_trans (f_equal truthy H1) Hk)).
  rewrite H1 in H2.
  assert (H3 := fill_field_frame "phone" ai_result _ k
                  (eq_trans (f_equal truthy H2) Hk)).
  rewrite H2 in H3.
  assert (H4 := fill_field_frame "department" ai_result _ k
                  (eq_trans (f_equal truthy H3) Hk)).
  by rewrite H3 in H4.
Qed.

Lemma fill_missing_fields_lookup_other ai_result c k :
  k ∉ ["name"; "designation"; "phone"; "department"] →
  fill_missing_fields ai_result c !! k = c !! k.
Proof.
  rewrite !not_elem_of_cons. intros (? & ? & ? & ? & _).
  unfold fill_missing_fields. case_bool_decide; [|done].
  cbn zeta. by rewrite !fill_field_lookup_ne.
Qed.

Lemma fill_missing_fields_empty c : fill_missing_fields ∅ c = c.
Proof. unfold fill_missing_fields. by rewrite bool_decide_eq_false_2 by auto. Qed.

(** All attempts raising: the loop gives up with the empty dict after
    [remaining + 1] requests. *)
Lemma extraction_attempts_all_raise remaining ex html_context email :
  (∀ i, (i ≤ remaining)%nat →
        call_openrouter (requests_sent ex + i) html_context email = LlmRaise) →
  extraction_attempts remaining ex html_context email
  = (∅, {| enabled := enabled ex;
           requests_sent := requests_sent ex + S remaining |}).
Proof.
  revert ex. induction remaining as [|r IH]; intros ex Hraise; simpl.
  - assert (H0 := Hraise 0%nat (Nat.le_refl _)).
    rewrite Nat.add_0_r in H0. rewrite H0.
    do 2 f_equal. lia.
  - assert (H0 := Hraise 0%nat (Nat.le_0_l _)).
    rewrite Nat.add_0_r in H0. rewrite H0.
    rewrite IH; simpl.
    + do 2 f_equal. lia.
    + intros i Hi. rewrite <- (Hraise (S i)) by lia. f_equal. lia.
Qed.

(** The loop sends at most [remaining + 1] requests and always returns. *)
Lemma extraction_attempts_bounded remaining ex html_context email :
  let ex' := (extraction_attempts remaining ex html_context email).2 in
  (requests_sent ex < requests_sent ex' ≤ requests_sent ex + S remaining)%nat.
Proof.
  revert ex. induction remaining as [|r IH]; intros ex; simpl.
  - destruct (call_openrouter _ _ _); simpl; lia.
  - destruct (call_openrouter _ _ _); simpl; try lia.
    specialize (IH {| enabled := enabled ex;
                      requests_sent := S (requests_sent ex) |}).
    simpl in IH. lia.
Qed.

(** ** The completion step inside the contextual extractor *)

Lemma ai_completion_frame self el email c k :
  truthy (dict_get c k) = true →
  dict_get (ai_completion self el email c).1 k = dict_get c k.
Proof.
  intros Hk. unfold ai_completion.
  destruct (ai_extractor_obj self) as [ex|]; [|done].
  destruct (use_ai self && needs_ai c); [|done].
  destruct (extract_contact_info _ _ _ _) as [ai_result ex']. simpl.
  by apply fill_missing_fields_frame.
Qed.

Lemma ai_completion_lookup_other self el email c k :
  k ∉ ["name"; "designation"; "phone"; "department"] →
  (ai_completion self el email c).1 !! k = c !! k.
Proof.
  intros Hk. unfold ai_completion.
  destruct (ai_extractor_obj self) as [ex|]; [|done].
  destruct (use_ai self && needs_ai c); [|done].
  destruct (extract_contact_info _ _ _ _) as [ai_result ex']. simpl.
  by apply fill_missing_fields_lookup_other.
Qed.

Lemma ai_completion_email self el email c :
  dict_get (ai_completion self el email c).1 "email" = dict_get c "email".
Proof.
  unfold dict_get. rewrite ai_completion_lookup_other; [done|].
  rewrite !not_elem_of_cons. repeat split; try done. apply not_elem_of_nil.
Qed.

Lemma extract_contact_info_all_raise ex html_context email max_retries :
  (∀ i ctx, (i ≤ max_retries)%nat →
            call_openrouter (requests_sent ex + i) ctx email = LlmRaise) →
  (extract_contact_info ex html_context email max_retries).1 = ∅.
Proof.
  intros Hraise. unfold extract_contact_info.
  destruct (enabled ex); simpl; [|done].
  rewrite extraction_attempts_all_raise; [done|].
  intros i Hi. by apply Hraise.
Qed.

Lemma ai_completion_all_raise self el email c :
  (∀ ex i ctx, ai_extractor_obj self = Some ex → (i ≤ 2)%nat →
               call_openrouter (requests_sent ex + i) ctx email = LlmRaise) →
  (ai_completion self el email c).1 = c.
Proof.
  intros Hraise. unfold ai_completion.
  destruct (ai_extractor_obj self) as [ex|] eqn:Hex; [|done].
  destruct (use_ai self && needs_ai c); [|done].
  pose proof (extract_contact_info_all_raise ex
    (take_str 4000 (to_html (default (default el (find_parent el))
       (find_parent (default el (find_parent el)))))) email 2) as Hempty.
  destruct (extract_contact_info _ _ _ _) as [ai_result ex']. simpl in *.
  rewrite Hempty; [apply fill_missing_fields_empty|].
  intros i ctx Hi. by apply Hraise.
Qed.

(** ** What the contextual extractors return *)

Lemma contact_if_email_some c r :
  contact_if_email c = Some r → r = c ∧ truthy (dict_get c "email") = true.
Proof.
  unfold contact_if_email. destruct (truthy _); [|done]. by intros [= <-].
Qed.

Lemma context_steps_email el email source_url now :
  dict_get (foldl (parent_level_step el)
                  (fallback_name email
                     (new_context_contact email source_url now))
                  [0; 1; 2]%nat) "email" = PStr email.
Proof.
  apply (foldl_preserves (λ c, dict_get c "email" = PStr email)).
  - intros a b Ha. by rewrite parent_level_step_email.
  - by rewrite fallback_name_email.
Qed.

Lemma extract_contact_from_context_email self el email source_url soup c self' :
  extract_contact_from_context self el email source_url soup = (Some c, self') →
  dict_get c "email" = PStr email ∧ nonempty email = true.
Proof.
  unfold extract_contact_from_context, read_clock. cbn zeta.
  pose proof (ai_completion_email (read_clock self).2 el email
    (foldl (parent_level_step el)
       (fallback_name email
          (new_context_contact email source_url
             (strftime_now (clock_reads self))))
       [0; 1; 2]%nat)) as Hai.
  rewrite context_steps_email in Hai. unfold read_clock in Hai. cbn [snd] in Hai.
  destruct (ai_completion _ _ _ _) as [c' self'']. simpl in Hai.
  intros [= Hc <-]. apply contact_if_email_some in Hc as [-> Ht].
  split; [done|]. by rewrite Hai in Ht.
Qed.

Lemma find_email_context_email soup email source_url now c :
  find_email_context soup email source_url now = Some c →
  dict_get c "email" = PStr email ∧ nonempty email = true.
Proof.
  unfold find_email_context. cbn zeta.
  intros [-> Ht]%contact_if_email_some.
  assert (Hem : dict_get
    (foldl (text_elem_step email)
       (fallback_name email (new_context_contact email source_url now))
       (find_text_nodes soup email)) "email" = PStr email).
  { apply (foldl_preserves (λ c, dict_get c "email" = PStr email)).
    - intros a b Ha. by rewrite text_elem_step_email.
    - by rewrite fallback_name_email. }
  split; [done|]. by rewrite Hem in Ht.
Qed.

(** ** Validity of what the cascades emit *)

Lemma has_email_or_phone_valid c :
  has_email_or_phone c = true →
  dict_get c "email" ≠ PNone ∨ dict_get c "phone" ≠ PNone.
Proof.
  unfold has_email_or_phone.
  intros [_ [?|?]%orb_true_iff]%andb_true_iff;
    [left|right]; by apply truthy_not_none.
Qed.

Lemma element_steps_valid source_url elements contacts self :
  Forall (λ c, has_email_or_phone c = true) contacts →
  Forall (λ c, has_email_or_phone c = true)
         (foldl (element_step source_url) (contacts, self) elements).1.
Proof.
  revert contacts self.
  induction elements as [|e elements IH]; intros contacts self Hc; simpl;
    [done|].
  destruct (has_email_or_phone _) eqn:Hv; apply IH; [|done].
  apply Forall_app. split; [done|]. by apply Forall_singleton.
Qed.

Lemma structural_contacts_valid self soup source_url :
  Forall (λ c, has_email_or_phone c = true)
         (structural_contacts self soup source_url).1.
Proof.
  unfold structural_contacts. destruct (find_first _ _); [|constructor].
  by apply element_steps_valid.
Qed.

Lemma yield_valid_valid elements response_url :
  Forall (λ c, has_email_or_phone c = true) (yield_valid elements response_url).
Proof.
  unfold yield_valid. apply Forall_forall.
  by intros c [? _]%list_elem_of_filter.
Qed.

(** The contacts gathered from the mailto anchors: each carries the
    address of one of the anchors. *)
Lemma mailto_steps_anchored source_url soup links contacts self anchors :
  (∀ link, link ∈ links → mailto_address link ∈ anchors) →
  Forall (anchored anchors) contacts →
  Forall (anchored anchors)
         (foldl (mailto_step source_url soup) (contacts, self) links).1.
Proof.
  revert contacts self.
  induction links as [|link links IH]; intros contacts self Hl Hc; simpl; [done|].
  assert (Hl' : ∀ l, l ∈ links → mailto_address l ∈ anchors)
    by (intros l Hin; apply Hl; by right).
  destruct (nonempty _ && has_char "@" _); [|by apply IH].
  destruct (extract_contact_from_context _ _ _ _ _) as [[c|] self'] eqn:Hctx;
    [|by apply IH].
  case_bool_decide; [|by apply IH].
  apply IH; [done|]. apply Forall_app. split; [done|].
  apply Forall_singleton.
  apply extract_contact_from_context_email in Hctx as [He Hne].
  exists (mailto_address link). split; [apply Hl; by left|done].
Qed.

Lemma text_email_steps_anchored source_url soup emails contacts self anchors :
  (∀ email, email ∈ emails → email ∈ anchors) →
  Forall (anchored anchors) contacts →
  Forall (anchored anchors)
         (foldl (text_email_step source_url soup) (contacts, self) emails).1.
Proof.
  revert contacts self.
  induction emails as [|email emails IH]; intros contacts self Hl Hc; simpl;
    [done|].
  assert (Hl' : ∀ e, e ∈ emails → e ∈ anchors)
    by (intros e Hin; apply Hl; by right).
  destruct (find_email_context _ _ _ _) as [c|] eqn:Hctx; [|by apply IH].
  case_bool_decide; [|by apply IH].
  apply IH; [done|].
  apply Forall_app. split; [done|]. apply Forall_singleton.
  apply find_email_context_email in Hctx as [He Hne].
  exists email. split; [apply Hl; by left|done].
Qed.

Lemma contextual_contacts_anchored self soup source_url :
  Forall (anchored (page_anchors soup))
         (contextual_contacts self soup source_url).1.
Proof.
  unfold contextual_contacts.
  pose proof (mailto_steps_anchored source_url soup
    (find_mailto_links_nocase soup) [] self (page_anchors soup)) as Hm.
  destruct (foldl (mailto_step source_url soup) _ _) as [contacts self'].
  cbn [fst] in Hm. destruct contacts as [|c contacts]; cbn [fst].
  - apply text_email_steps_anchored; [|constructor].
    intros email Hin. apply (proj1 (set_iter_elem _ _)) in Hin.
    unfold page_anchors.
    apply elem_of_app. right. exact Hin.
  - apply Hm; [|constructor].
    intros link Hin. unfold page_anchors. apply elem_of_app. left.
    apply list_elem_of_fmap. exists link. by split.
Qed.

Lemma anchored_has_contact_point anchors c :
  anchored anchors c → has_contact_point c.
Proof. intros (email & _ & He & _). left. by rewrite He. Qed.

End extraction_facts.

(* ===================================================================== *)
(** * Facts about the pipeline's clean_email                              *)
(* ===================================================================== *)

Example clean_email_ex :
  clean_email "  MAILTO:Jane.Roe@Uni.EDU " = Some "jane.roe@uni.edu".
Proof. reflexivity. Qed.

Example clean_email_two_ats : clean_email "a@b@c.org" = None.
Proof. reflexivity. Qed.

Example clean_email_no_tld : clean_email "jane@localhost" = None.
Proof. reflexivity. Qed.

Example clean_email_blank_after_prefix : clean_email "mailto: a@b.org" = None.
Proof. reflexivity. Qed.

Section pipeline_facts.

Lemma lower_char_idemp c : lower_char (lower_char c) = lower_char c.
Proof. by destruct c as [[] [] [] [] [] [] [] []]. Qed.

Lemma lower_idemp s : lower (lower s) = lower s.
Proof.
  induction s as [|c s IH]; simpl; [done|].
  by rewrite lower_char_idemp, IH.
Qed.

Lemma lower_cons_inv c s :
  lower (String c s) = String c s → lower_char c = c ∧ lower s = s.
Proof. simpl. by intros [= ? ?]. Qed.

Lemma lower_lstrip s : lower s = s → lower (lstrip s) = lstrip s.
Proof.
  induction s as [|c s IH]; [done|].
  intros Hl. destruct (lower_cons_inv _ _ Hl) as [Hc Hs]. simpl.
  destruct (isspace c); [by apply IH|done].
Qed.

Lemma lower_rstrip s : lower s = s → lower (rstrip s) = rstrip s.
Proof.
  induction s as [|c s IH]; [done|].
  intros Hl. destruct (lower_cons_inv _ _ Hl) as [Hc Hs]. simpl.
  specialize (IH Hs). destruct (rstrip s) as [|d r].
  - destruct (isspace c); simpl; [done|]. by rewrite Hc.
  - cbn [lower] in *. by rewrite Hc, IH.
Qed.

Lemma lower_drop_str n s : lower s = s → lower (drop_str n s) = drop_str n s.
Proof.
  revert s. induction n as [|n IH]; intros s Hl; [done|].
  destruct s as [|c s]; [done|]. simpl.
  apply IH. by destruct (lower_cons_inv _ _ Hl).
Qed.

Lemma rstrip_tail c s : rstrip (String c s) = String c s → rstrip s = s.
Proof.
  simpl. destruct (rstrip s) as [|d r] eqn:Hr.
  - destruct (isspace c); [done|]. by intros [= <-].
  - by intros [= <-].
Qed.

Lemma rstrip_drop_str n s : rstrip s = s → rstrip (drop_str n s) = drop_str n s.
Proof.
  revert s. induction n as [|n IH]; intros s Hr; [done|].
  destruct s as [|c s]; [done|]. simpl.
  apply IH. by apply rstrip_tail in Hr.
Qed.

Lemma newline_is_space : isspace "010" = true.
Proof. reflexivity. Qed.

(** A string without trailing whitespace has no final newline to give up. *)
Lemma before_final_newline_id s : rstrip s = s → before_final_newline s = s.
Proof.
  induction s as [|c s IH]; [done|].
  intros Hr. pose proof (rstrip_tail _ _ Hr) as Hs.
  destruct s as [|d s].
  - simpl in *. case_bool_decide as Hc; [|done].
    subst c. by rewrite newline_is_space in Hr.
  - change (before_final_newline (String c (String d s)))
      with (String c (before_final_newline (String d s))).
    by rewrite (IH Hs).
Qed.

Lemma local_char_not_space c : local_char c = true → isspace c = false.
Proof. by destruct c as [[] [] [] [] [] [] [] []]. Qed.

Lemma domain_char_not_space c : domain_char c = true → isspace c = false.
Proof. by destruct c as [[] [] [] [] [] [] [] []]. Qed.

(** The first part of a split starts like the subject. *)
Lemma split_head_clean sep s part parts :
  split sep s = part :: parts → nonempty part = true →
  starts_clean part = true → starts_clean s = true.
Proof.
  destruct s as [|c s]; [by intros [= <- <-]|]. simpl.
  case_bool_decide; [by intros [= <- <-]|].
  destruct (split sep s) as [|p ps]; by intros [= <- <-].
Qed.

Lemma all_chars_starts_clean p s :
  (∀ c, p c = true → isspace c = false) →
  all_chars p s = true → starts_clean s = true.
Proof.
  intros Hp. destruct s as [|c s]; [done|]. simpl.
  intros [Hc _]%andb_true_iff. by rewrite (Hp c Hc).
Qed.

Lemma strip_nonempty s :
  nonempty s = true → starts_clean s = true → nonempty (strip s) = true.
Proof.
  intros Hn Hs. unfold strip. rewrite (lstrip_id s Hs).
  destruct s as [|c s]; [done|]. simpl in Hs.
  apply negb_true_iff in Hs. rewrite (rstrip_cons_clean c s Hs). done.
Qed.

Lemma rsplit_dot_head s d t :
  rsplit_dot s = Some (d, t) → nonempty d = true →
  starts_clean d = true → nonempty s = true ∧ starts_clean s = true.
Proof.
  destruct s as [|c s]; [done|]. simpl.
  destruct (rsplit_dot s) as [[d' t']|].
  - by intros [= <- <-].
  - case_bool_decide; [|done]. by intros [= <- <-].
Qed.

(** What a match of the address pattern says about a subject that has no
    trailing whitespace. *)
Lemma address_pattern_shape s :
  rstrip s = s → address_pattern_matches s = true →
  strip s = s ∧ spec_email_well_formed s = true.
Proof.
  intros Hr. unfold address_pattern_matches.
  rewrite (before_final_newline_id s Hr).
  destruct (split "@" s) as [|local [|rest [|x l]]] eqn:Hsp; try done.
  intros [[Hln Hlc]%andb_true_iff Hrest]%andb_true_iff.
  destruct (rsplit_dot rest) as [[domain tld]|] eqn:Hd; [|done].
  apply andb_true_iff in Hrest as [[[Hdn Hdc]%andb_true_iff _]%andb_true_iff _].
  pose proof (all_chars_starts_clean _ _ local_char_not_space Hlc) as Hlclean.
  pose proof (all_chars_starts_clean _ _ domain_char_not_space Hdc) as Hdclean.
  destruct (rsplit_dot_head _ _ _ Hd Hdn Hdclean) as [Hrn Hrclean].
  assert (Hs : strip s = s).
  { unfold strip. rewrite lstrip_id; [done|].
    by apply (split_head_clean "@" s local [rest]). }
  split; [done|]. unfold spec_email_well_formed. rewrite Hs, Hsp.
  by rewrite !strip_nonempty.
Qed.

Lemma clean_email_invariant email r :
  clean_email email = Some r → spec_email_invariant r.
Proof.
  unfold clean_email. cbn zeta.
  destruct (address_pattern_matches _) eqn:Hm; [|done]. intros [= <-].
  assert (Hlow : lower (sub_mailto_prefix (strip (lower email)))
                 = sub_mailto_prefix (strip (lower email))).
  { unfold sub_mailto_prefix, strip.
    pose proof (lower_rstrip _ (lower_lstrip _ (lower_idemp email))) as Hl.
    destruct (startswith _ _); [by apply lower_drop_str|done]. }
  assert (Hr : rstrip (sub_mailto_prefix (strip (lower email)))
               = sub_mailto_prefix (strip (lower email))).
  { unfold sub_mailto_prefix.
    destruct (startswith _ _); [apply rstrip_drop_str|]; apply rstrip_strip. }
  destruct (address_pattern_shape _ Hr Hm) as [Hs Hw].
  by repeat split.
Qed.

End pipeline_facts.

(* ===================================================================== *)
(** * Facts about character filters and about split                      *)
(* ===================================================================== *)

Section keep_chars_facts.

Lemma keep_chars_all p s : all_chars p (keep_chars p s) = true.
Proof.
  induction s as [|c s IH]; simpl; [done|].
  destruct (p c) eqn:Hc; simpl; [by rewrite Hc|done].
Qed.

Lemma keep_chars_keep (p q : ascii → bool) s :
  (∀ c, q c = true → p c = true) →
  keep_chars q (keep_chars p s) = keep_chars q s.
Proof.
  intros Hqp. induction s as [|c s IH]; simpl; [done|].
  destruct (p c) eqn:Hp; simpl.
  - by rewrite IH.
  - destruct (q c) eqn:Hq; [|done]. apply Hqp in Hq. congruence.
Qed.

Lemma keep_chars_lstrip (q : ascii → bool) s :
  (∀ c, q c = true → isspace c = false) →
  keep_chars q (lstrip s) = keep_chars q s.
Proof.
  intros Hq. induction s as [|c s IH]; simpl; [done|].
  destruct (isspace c) eqn:Hc; [|done].
  destruct (q c) eqn:Hqc; [|done]. apply Hq in Hqc. congruence.
Qed.

Lemma keep_chars_rstrip (q : ascii → bool) s :
  (∀ c, q c = true → isspace c = false) →
  keep_chars q (rstrip s) = keep_chars q s.
Proof.
  intros Hq. induction s as [|c s IH]; [done|].
  cbn [rstrip]. destruct (rstrip s) as [|d r] eqn:Hr.
  - cbn [keep_chars] in *. rewrite <- IH.
    destruct (isspace c) eqn:Hc.
    + destruct (q c) eqn:Hqc; [|done]. apply Hq in Hqc. congruence.
    + simpl. by destruct (q c).
  - cbn [keep_chars] in *. by rewrite IH.
Qed.

Lemma keep_chars_strip (q : ascii → bool) s :
  (∀ c, q c = true → isspace c = false) →
  keep_chars q (strip s) = keep_chars q s.
Proof.
  intros Hq. unfold strip. by rewrite keep_chars_rstrip, keep_chars_lstrip.
Qed.

Lemma keep_chars_app (q : ascii → bool) a b :
  keep_chars q (a +:+ b) = keep_chars q a +:+ keep_chars q b.
Proof.
  induction a as [|c a IH]; [done|].
  rewrite append_cons. simpl. rewrite IH. by destruct (q c).
Qed.

Lemma negb_isspace_not_space c : negb (isspace c) = true → isspace c = false.
Proof. by destruct (isspace c). Qed.

Lemma split_nonempty sep s : split sep s ≠ [].
Proof.
  destruct s as [|c s]; simpl; [done|].
  case_bool_decide; [done|]. by destruct (split sep s).
Qed.

(** Joining the parts of a split with the separator gives the string
    back. *)
Lemma join_split sep s : join (String sep "") (split sep s) = s.
Proof.
  induction s as [|c s IH]; [done|]. cbn [split].
  pose proof (split_nonempty sep s) as Hne.
  destruct (split sep s) as [|p ps]; [done|].
  case_bool_decide as Hc.
  - subst c.
    change (join (String sep "") ("" :: p :: ps))
      with ("" +:+ String sep "" +:+ join (String sep "") (p :: ps)).
    by rewrite IH.
  - destruct ps as [|p' ps]; [simpl in *; by rewrite IH|].
    change (join (String sep "") (String c p :: p' :: ps))
      with (String c (p +:+ String sep "" +:+ join (String sep "") (p' :: ps))).
    f_equal. exact IH.
Qed.

(** A separator in the string adds a part. *)
Lemma split_length_app_sep sep a b :
  (S (length (split sep b)) ≤ length (split sep (a +:+ String sep b)))%nat.
Proof.
  induction a as [|c a IH].
  - rewrite append_empty_l. simpl. by rewrite bool_decide_eq_true_2.
  - rewrite append_cons. cbn [split].
    destruct (split sep (a +:+ String sep b)) as [|p ps]; [simpl in IH; lia|].
    case_bool_decide; simpl in *; lia.
Qed.

End keep_chars_facts.

(* ===================================================================== *)
(** * Results: the normaliser and the deduplicator                        *)
(* ===================================================================== *)

(** C1, the failing input: a record whose cleaned email is null is not
    kept. The phone-only record below is the whole input and the output is
    empty, although there is no duplicate to remove; the caller's CSV step
    then reads [unique_contacts[0]] of the empty list, an [IndexError];
    the duplicate filter of the Scrapy pipeline passes the same record
    on. *)
Lemma null_email_record_not_kept :
  phone_only_contact ∈ [phone_only_contact] ∧
  dict_get (clean_contact_data phone_only_contact) "email" = PNone ∧
  (clean_contact_data phone_only_contact
     ∉ clean_and_deduplicate_contacts [phone_only_contact]) ∧
  clean_and_deduplicate_contacts [phone_only_contact] = [] ∧
  clean_csv_step [phone_only_contact] = CsvIndexError ∧
  DuplicateFilterPipeline.process_items ∅ [phone_only_contact]
  = [phone_only_contact].
Proof.
  assert (Hout : clean_and_deduplicate_contacts [phone_only_contact] = [])
    by (by vm_compute).
  split; [by left|]. split; [by vm_compute|].
  split; [rewrite Hout; apply not_elem_of_nil|].
  split; [done|]. split; [|done].
  unfold clean_csv_step. by rewrite Hout.
Qed.

(** C1: the code departs from the specification, which keeps every record
    whose cleaned email is null. In [clean_and_deduplicate_contacts] the
    append is guarded by [if email and email not in seen_emails], so for
    every list of raw contacts a record whose cleaned email is null never
    reaches the output: the step that is to remove duplicates also
    removes every phone-only record. *)
Theorem null_email_records_dropped (contacts : list contact) (c : contact) :
  c ∈ contacts →
  dict_get (clean_contact_data c) "email" = PNone →
  clean_contact_data c ∉ clean_and_deduplicate_contacts contacts.
Proof.
  intros _ Hnull Hin. rewrite clean_and_deduplicate_contacts_kept in Hin.
  destruct (kept_elem _ _ _ Hin) as [(_ & Ht & _) _].
  rewrite email_key_clean in Ht. rewrite dict_get_clean_email in Hnull.
  by rewrite Hnull in Ht.
Qed.

Lemma null_email_records_dropped_witness :
  clean_contact_data phone_only_contact
    ∉ clean_and_deduplicate_contacts [phone_only_contact].
Proof.
  apply (null_email_records_dropped [phone_only_contact] phone_only_contact).
  - by left.
  - by vm_compute.
Defined.

(** C3, as stated, does not hold: an input with two "@" and an input with
    an empty local part both come out non-null although neither is a
    single local\@domain split with two non-empty halves. *)
Lemma email_rule_counterexample :
  ¬ spec_email_rule (PStr "a@b@c") ∧ ¬ spec_email_rule (PStr "@uni.edu").
Proof.
  split; intros [Hl _].
  - assert (H : clean_email_field (PStr "a@b@c") ≠ PNone) by (by vm_compute).
    destruct (Hl H) as (e & [= <-] & He). by vm_compute in He.
  - assert (H : clean_email_field (PStr "@uni.edu") ≠ PNone) by (by vm_compute).
    destruct (Hl H) as (e & [= <-] & He). by vm_compute in He.
Qed.

(** C3 (amended): the email-cleaning rule yields a non-null email if and
    only if the input is a string that contains at least one "@"; the
    number of "@" and empty halves do not null it. The value: when the
    trimmed input holds exactly one "@", the text before it and the text
    after it are trimmed and joined again by "@"; when it holds more than
    one "@", the trimmed input itself is the result. *)
Theorem email_rule_non_null_iff (v : pyval) :
  (clean_email_field v ≠ PNone ↔ ∃ e, v = PStr e ∧ has_char "@" e = true) ∧
  (∀ e local domain,
     v = PStr e → strip e = local +:+ "@" +:+ domain →
     has_char "@" local = false → has_char "@" domain = false →
     clean_email_field v = PStr (strip local +:+ "@" +:+ strip domain)) ∧
  (∀ e a b c,
     v = PStr e → strip e = a +:+ "@" +:+ b +:+ "@" +:+ c →
     clean_email_field v = PStr (strip e)).
Proof.
  split; [split|split].
  - intros Hv. destruct v as [|e|n]; try done.
    exists e. split; [done|].
    destruct (has_char "@" e) eqn:Hat; [done|].
    exfalso. apply Hv. apply clean_email_field_null. by intros ? [= <-].
  - intros (e & -> & Hat). rewrite (clean_email_field_str e Hat).
    by destruct (split "@" (strip e)) as [|a [|b [|x l]]].
  - intros e local domain -> He Hl Hd.
    assert (Hat : has_char "@" e = true).
    { rewrite <- (has_char_strip "@" e at_not_space), He.
      apply has_char_app_sep. }
    rewrite (clean_email_field_str e Hat), He.
    change ("@" +:+ domain) with (String "@" domain).
    by rewrite (split_app_sep _ _ _ Hl), (split_no_sep _ _ Hd).
  - intros e a b c -> He.
    assert (Hat : has_char "@" e = true).
    { rewrite <- (has_char_strip "@" e at_not_space), He.
      apply has_char_app_sep. }
    rewrite (clean_email_field_str e Hat).
    assert (Hlen : (3 ≤ length (split "@" (strip e)))%nat).
    { rewrite He.
      pose proof (split_length_app_sep "@" a (b +:+ "@" +:+ c)) as H1.
      pose proof (split_length_app_sep "@" b c) as H2.
      pose proof (split_nonempty "@" c) as H3.
      change ("@" +:+ b +:+ "@" +:+ c)
        with (String "@" (b +:+ String "@" c)).
      change (b +:+ "@" +:+ c) with (b +:+ String "@" c) in H1.
      destruct (split "@" c); [done|]. simpl in *. lia. }
    destruct (split "@" (strip e)) as [|x [|y [|z l]]]; try done;
      simpl in Hlen; lia.
Qed.

Lemma email_rule_non_null_iff_witness :
  clean_email_field (PStr "  jane.roe @ uni.edu ") = PStr "jane.roe@uni.edu" ∧
  clean_email_field (PStr " a@b@c ") = PStr "a@b@c".
Proof.
  split.
  - apply (proj1 (proj2 (email_rule_non_null_iff
             (PStr "  jane.roe @ uni.edu ")))
             "  jane.roe @ uni.edu " "jane.roe " " uni.edu");
      reflexivity.
  - apply (proj2 (proj2 (email_rule_non_null_iff (PStr " a@b@c ")))
             " a@b@c " "a" "b" "c"); reflexivity.
Defined.

(** C4: two raw contacts whose cleaned emails are equal and non-null
    deduplicate to exactly one record, the cleaned first one. *)
Theorem dedup_first_seen_wins (c1 c2 : contact) :
  dict_get (clean_contact_data c1) "email"
    = dict_get (clean_contact_data c2) "email" →
  dict_get (clean_contact_data c1) "email" ≠ PNone →
  clean_and_deduplicate_contacts [c1; c2] = [clean_contact_data c1].
Proof.
  rewrite !dict_get_clean_email. intros Heq Hnn.
  rewrite clean_and_deduplicate_contacts_kept. simpl.
  rewrite !email_key_clean, <- Heq.
  rewrite (clean_email_field_truthy _ Hnn). simpl.
  rewrite bool_decide_eq_true_2 by apply not_elem_of_empty.
  rewrite bool_decide_eq_false_2; [done|].
  intros Hn. apply Hn, elem_of_union. left. by apply elem_of_singleton.
Qed.

Lemma dedup_first_seen_wins_witness :
  clean_and_deduplicate_contacts [sparse_contact; rich_contact]
  = [clean_contact_data sparse_contact].
Proof.
  apply (dedup_first_seen_wins sparse_contact rich_contact).
  - by vm_compute.
  - by vm_compute.
Defined.

(** C6, as stated, does not hold: the cleaner keeps upper-case letters,
    so a non-null cleaned email need not be lowercased. *)
Lemma cleaned_email_not_lowercased :
  dict_get (clean_contact_data mixed_case_contact) "email"
  = PStr "Jane.Roe@Uni.EDU" ∧
  ¬ spec_email_invariant "Jane.Roe@Uni.EDU".
Proof.
  split; [by vm_compute|]. intros [Hlow _]. by vm_compute in Hlow.
Qed.

(** C6 (amended): after field-level normalisation by [clean_contact_data]
    the email field, if non-null, is a trimmed string that contains an
    "@" and keeps the letter case of the input: the input email is a
    string, and the characters of the result other than whitespace are
    those of the input, in the same order and unchanged. It is not
    lowercased and may hold more than one "@". The email that the Scrapy
    pipeline's [clean_email] returns is lowercased, trimmed and a single
    local\@domain split with both halves present. *)
Theorem cleaned_email_invariants :
  (∀ c : contact,
     dict_get (clean_contact_data c) "email" ≠ PNone →
     ∃ e0 e : string,
       dict_get c "email" = PStr e0 ∧
       dict_get (clean_contact_data c) "email" = PStr e ∧
       strip e = e ∧ has_char "@" e = true ∧
       keep_chars (λ a, negb (isspace a)) e
       = keep_chars (λ a, negb (isspace a)) e0) ∧
  (∀ email r : string, clean_email email = Some r → spec_email_invariant r) ∧
  (dict_get (clean_contact_data mixed_case_contact) "email"
   = PStr "Jane.Roe@Uni.EDU" ∧ lower "Jane.Roe@Uni.EDU" ≠ "Jane.Roe@Uni.EDU") ∧
  dict_get (clean_contact_data (<["email" := PStr "a@b@c"]> ∅)) "email"
  = PStr "a@b@c".
Proof.
  split; [|split; [apply clean_email_invariant|by vm_compute]].
  intros c. rewrite dict_get_clean_email. intros Hnn.
  destruct (dict_get c "email") as [|e0|n] eqn:Hin; try done.
  destruct (clean_email_field (PStr e0)) as [|e|n] eqn:He; try done; cycle 1.
  { unfold clean_email_field in He. by repeat case_match. }
  exists e0, e. split; [done|]. split; [done|].
  destruct (clean_email_field_shape _ _ He) as [Hat Hstrip].
  split; [done|]. split; [done|].
  assert (Hat0 : has_char "@" e0 = true).
  { destruct (has_char "@" e0) eqn:Hat0; [done|].
    rewrite (clean_email_field_null (PStr e0)) in He; [done|].
    by intros ? [= <-]. }
  rewrite (clean_email_field_str e0 Hat0) in He.
  rewrite <- (keep_chars_strip _ e0 negb_isspace_not_space).
  pose proof (join_split "@" (strip e0)) as Hjoin.
  destruct (split "@" (strip e0)) as [|x [|y [|z l]]];
    injection He as <-; try done.
  rewrite <- Hjoin. cbn [join].
  rewrite !keep_chars_app.
  by rewrite !(keep_chars_strip _ _ negb_isspace_not_space).
Qed.

Lemma cleaned_email_invariants_witness :
  (∃ e0 e : string,
     dict_get mixed_case_contact "email" = PStr e0 ∧
     dict_get (clean_contact_data mixed_case_contact) "email" = PStr e ∧
     strip e = e ∧ has_char "@" e = true ∧
     keep_chars (λ a, negb (isspace a)) e
     = keep_chars (λ a, negb (isspace a)) e0) ∧
  spec_email_invariant "jane.roe@uni.edu".
Proof.
  split.
  - apply (proj1 cleaned_email_invariants mixed_case_contact).
    vm_compute. discriminate.
  - apply (proj1 (proj2 cleaned_email_invariants) " Jane.Roe@Uni.EDU ").
    reflexivity.
Defined.

(** C7: the per-record cleaning function is idempotent: cleaning a cleaned
    record gives the same dict, hence the same value on each of the eight
    fields. *)
Theorem clean_contact_data_idempotent (c : contact) :
  clean_contact_data (clean_contact_data c) = clean_contact_data c ∧
  Forall (λ k, dict_get (clean_contact_data (clean_contact_data c)) k
               = dict_get (clean_contact_data c) k) contact_fields.
Proof.
  split; [apply clean_contact_data_idemp|].
  apply Forall_forall. intros k _. by rewrite clean_contact_data_idemp.
Qed.

(** C10: the normalize-and-deduplicate step is idempotent; its output
    records are fixed by the cleaner and carry pairwise distinct, non-null
    emails. *)
Theorem clean_and_deduplicate_idempotent (xs : list contact) :
  let out := clean_and_deduplicate_contacts xs in
  clean_and_deduplicate_contacts out = out ∧
  Forall (λ r, clean_contact_data r = r ∧ dict_get r "email" ≠ PNone) out ∧
  NoDup ((λ r, dict_get r "email") <$> out).
Proof.
  cbn zeta. rewrite !clean_and_deduplicate_contacts_kept.
  assert (Hrec : Forall (λ r, clean_contact_data r = r
                              ∧ truthy (email_key r) = true) (kept ∅ xs)).
  { apply Forall_forall. intros r Hr.
    by destruct (kept_elem _ _ _ Hr) as [(? & ? & _) _]. }
  assert (Hkey : ∀ r, r ∈ kept ∅ xs → dict_get r "email" = email_key r).
  { intros r Hr. destruct (kept_elem _ _ _ Hr) as [_ (c & _ & ->)].
    by rewrite email_key_clean, dict_get_clean_email. }
  split; [|split].
  - apply kept_fixpoint; [done|apply kept_keys_fresh|apply kept_keys_NoDup].
  - apply Forall_forall. intros r Hr.
    rewrite Forall_forall in Hrec. destruct (Hrec r Hr) as [Hc Ht].
    split; [done|]. rewrite (Hkey r Hr). intros Hn. by rewrite Hn in Ht.
  - rewrite (list_fmap_ext _ email_key (kept ∅ xs) ); [apply kept_keys_NoDup|].
    intros i r Hr. apply Hkey. by apply list_elem_of_lookup_2 in Hr.
Qed.

(* ===================================================================== *)
(** * Results: the URL prioritiser                                        *)
(* ===================================================================== *)

(** C2, as stated, does not hold: [discovered_urls] is a Python set, and
    the scoring loop meets its members in the set's own order, of which
    Python promises no more than that it is a permutation of what was
    added. For the URLs discovered in the order a, b, c (scores 80, 100,
    80) and met by the loop as c, b, a, the result is b, c, a: the two
    URLs of score 80 are not in their discovery order. *)
Lemma set_order_breaks_discovery_ties :
  [url_c; url_b; url_a] ≡ₚ [url_a; url_b; url_c] ∧
  (prioritize_urls [url_c; url_b; url_a] 10).1 = [url_b; url_c; url_a] ∧
  filter (λ u, keyword_score u = 80) (prioritize_urls [url_c; url_b; url_a] 10).1
  ≠ filter (λ u, keyword_score u = 80) [url_a; url_b; url_c].
Proof.
  split; [|split].
  - apply Permutation_sym. etrans; [apply perm_swap|].
    etrans; [apply perm_skip, perm_swap|]. etrans; [apply perm_swap|]. done.
  - reflexivity.
  - assert (Hout : (prioritize_urls [url_c; url_b; url_a] 10).1
                   = [url_b; url_c; url_a]) by reflexivity.
    rewrite Hout. vm_compute. discriminate.
Qed.

(** C2 (amended): when the limit is at least the number of discovered
    URLs, the prioritiser returns all of them, in descending order of
    keyword score, URLs of equal score staying in the order in which the
    scoring loop enumerates the discovered set; for three URLs enumerated
    with scores 80, 100, 80 and limit 10 the result is the second, the
    first, the third. *)
Theorem prioritizer_returns_all_sorted (S : list string) (N : Z) :
  Z.of_nat (length S) ≤ N →
  let out := (prioritize_urls S N).1 in
  out ≡ₚ S ∧
  descending keyword_score out ∧
  (∀ k, filter (λ u, keyword_score u = k) out
        = filter (λ u, keyword_score u = k) S) ∧
  (keyword_score <$> [url_a; url_b; url_c] = [80; 100; 80] ∧
   (prioritize_urls [url_a; url_b; url_c] 10).1 = [url_b; url_a; url_c]).
Proof.
  intros HN. cbn zeta. rewrite prioritize_urls_sorted. cbn [fst].
  rewrite slice_to_all
    by (by rewrite (Permutation_length (sort_desc_perm keyword_score S))).
  split; [apply sort_desc_perm|].
  split; [apply sort_desc_descending|].
  split; [intros k; apply sort_desc_stable|].
  split; reflexivity.
Qed.

Lemma prioritizer_returns_all_sorted_witness :
  let out := (prioritize_urls [url_a; url_b; url_c] 10).1 in
  out ≡ₚ [url_a; url_b; url_c] ∧
  descending keyword_score out ∧
  (∀ k, filter (λ u, keyword_score u = k) out
        = filter (λ u, keyword_score u = k) [url_a; url_b; url_c]) ∧
  (keyword_score <$> [url_a; url_b; url_c] = [80; 100; 80] ∧
   (prioritize_urls [url_a; url_b; url_c] 10).1 = [url_b; url_a; url_c]).
Proof.
  apply (prioritizer_returns_all_sorted [url_a; url_b; url_c] 10).
  simpl. lia.
Defined.

(* ===================================================================== *)
(** * Results: the contact extractors                                     *)
(* ===================================================================== *)

Section extraction_results.

Context `{Env}.

(** C5: for every HTML input and source URL, every contact emitted by the
    contact extractor, and every contact yielded by the spider's
    [extract_contacts], has a non-null email or a non-null phone; no tier
    emits a candidate with both fields null. *)
Theorem extractors_emit_email_or_phone (self : scraper)
    (content : html_content) (source_url : string)
    (response : element) (response_url : string) :
  Forall has_contact_point
         (extract_contacts_from_html self content source_url).1 ∧
  Forall has_contact_point (extract_contacts response response_url).
Proof.
  split.
  - unfold extract_contacts_from_html.
    destruct (content_html content) as [html|]; [|constructor].
    cbn zeta.
    pose proof (structural_contacts_valid self (parse_html html) source_url)
      as Hs.
    destruct (structural_contacts self (parse_html html) source_url)
      as [[|c cs] self'].
    + eapply Forall_impl; [apply contextual_contacts_anchored|].
      apply anchored_has_contact_point.
    + eapply Forall_impl; [exact Hs|]. apply has_email_or_phone_valid.
  - unfold extract_contacts.
    destruct (find_first _ _).
    { eapply Forall_impl; [apply yield_valid_valid|].
      apply has_email_or_phone_valid. }
    destruct (css response _).
    { destruct (any_in _ _); [|constructor].
      eapply Forall_impl; [apply yield_valid_valid|].
      apply has_email_or_phone_valid. }
    eapply Forall_impl; [apply yield_valid_valid|].
    apply has_email_or_phone_valid.
Qed.

(** C8: in the LLM completion of the contextual path, a field that the
    heuristics populated keeps its value, only name, designation, phone
    and department can change at all, the retry loop sends at most three
    requests, and when each of them fails the completion yields the empty
    result and the heuristic record is returned as it was. *)
Theorem llm_completion_keeps_heuristic_fields (self : scraper)
    (email_element : element) (email : string) (c : contact) :
  (∀ k, truthy (dict_get c k) = true →
        dict_get (ai_completion self email_element email c).1 k
        = dict_get c k) ∧
  (∀ k, k ∉ completion_fields →
        (ai_completion self email_element email c).1 !! k = c !! k) ∧
  (∀ ex ctx,
     (requests_sent (extract_contact_info ex ctx email 2).2
      ≤ requests_sent ex + 3)%nat) ∧
  ((∀ ex i ctx, ai_extractor_obj self = Some ex → (i ≤ 2)%nat →
                call_openrouter (requests_sent ex + i) ctx email = LlmRaise) →
   (∀ ex ctx, ai_extractor_obj self = Some ex →
              (extract_contact_info ex ctx email 2).1 = ∅) ∧
   (ai_completion self email_element email c).1 = c).
Proof.
  split; [|split; [|split]].
  - intros k Hk. by apply ai_completion_frame.
  - intros k Hk. by apply ai_completion_lookup_other.
  - intros ex ctx. unfold extract_contact_info.
    destruct (enabled ex); simpl; [|lia].
    pose proof (extraction_attempts_bounded 2 ex
      (if 4000 <? len ctx then take_str 4000 ctx else ctx) email) as Hb.
    simpl in Hb. lia.
  - intros Hraise. split.
    + intros ex ctx Hex. apply extract_contact_info_all_raise.
      intros i ctx' Hi. by apply Hraise.
    + by apply ai_completion_all_raise.
Qed.

(** C9: a contact returned by the mailto-anchored path or by the
    plain-text-email path carries the anchoring address as its email, a
    non-empty string; so every contact that the contextual tier emits has
    a non-null email taken from the page's anchors, and none is
    phone-only. *)
Theorem tier3_contact_carries_anchor_email :
  (∀ self email_element email source_url soup c self',
     extract_contact_from_context self email_element email source_url soup
     = (Some c, self') →
     dict_get c "email" = PStr email ∧ nonempty email = true) ∧
  (∀ soup email source_url now c,
     find_email_context soup email source_url now = Some c →
     dict_get c "email" = PStr email ∧ nonempty email = true) ∧
  (∀ self soup source_url,
     Forall (anchored (page_anchors soup))
            (contextual_contacts self soup source_url).1).
Proof.
  split; [|split].
  - intros *. apply extract_contact_from_context_email.
  - intros *. apply find_email_context_email.
  - intros *. apply contextual_contacts_anchored.
Qed.

End extraction_results.

(** The page of four nodes: the contextual tier emits one contact, with
    the mailto address, the name read off the mailbox name and the phone
    of the tel link. *)
Example sample_page_extraction :
  (@extract_contacts_from_html sample_env sample_scraper_plain
     (ContentStr "<html>") "https://u.my/contact").1
  = [mk_contact (PStr "Jane Roe") (PStr "jane.roe@uni.edu")
                (PStr "+60 3-5555 0100") PNone PNone PNone
                (PStr "https://u.my/contact") (PStr "2024-01-01 00:00:00")].
Proof. vm_compute. reflexivity. Qed.

(** The endpoint answers: the missing designation and phone are filled,
    the populated name stays. *)
Example sample_completion_fills_missing :
  (@ai_completion sample_env sample_scraper_answering 2%nat "jane.roe@uni.edu"
     sample_heuristic_suspicious).1
  = mk_contact (PStr "jane.roe@uni.edu") (PStr "jane.roe@uni.edu")
               (PStr "+60 3-5555 0199") (PStr "Senior Lecturer") PNone PNone
               (PStr "https://u.my/contact") (PStr "2024-01-01 00:00:00").
Proof. vm_compute. reflexivity. Qed.

Lemma extractors_emit_email_or_phone_witness :
  Forall has_contact_point
    [mk_contact (PStr "Jane Roe") (PStr "jane.roe@uni.edu")
                (PStr "+60 3-5555 0100") PNone PNone PNone
                (PStr "https://u.my/contact") (PStr "2024-01-01 00:00:00")].
Proof.
  change (Forall has_contact_point
    (@extract_contacts_from_html sample_env sample_scraper_plain
       (ContentStr "<html>") "https://u.my/contact").1).
  apply (@extractors_emit_email_or_phone sample_env sample_scraper_plain
           (ContentStr "<html>") "https://u.my/contact" 0%nat
           "https://u.my/contact").
Defined.

Lemma llm_completion_keeps_heuristic_fields_witness :
  dict_get (@ai_completion sample_env sample_scraper_answering 2%nat
              "jane.roe@uni.edu" sample_heuristic_suspicious).1 "name"
  = PStr "jane.roe@uni.edu" ∧
  (@ai_completion sample_env sample_scraper_failing 2%nat "jane.roe@uni.edu"
     sample_heuristic_suspicious).1 = sample_heuristic_suspicious.
Proof.
  split.
  - apply (proj1 (@llm_completion_keeps_heuristic_fields sample_env
             sample_scraper_answering 2%nat "jane.roe@uni.edu"
             sample_heuristic_suspicious) "name").
    reflexivity.
  - apply (proj2 (proj2 (proj2 (@llm_completion_keeps_heuristic_fields sample_env
             sample_scraper_failing 2%nat "jane.roe@uni.edu"
             sample_heuristic_suspicious)))).
    intros ex i ctx [= <-] Hi. simpl.
    destruct i as [|[|[|i]]]; [reflexivity|reflexivity|reflexivity|lia].
Defined.

Lemma tier3_contact_carries_anchor_email_witness :
  dict_get (mk_contact (PStr "Jane Roe") (PStr "jane.roe@uni.edu")
              (PStr "+60 3-5555 0100") PNone PNone PNone
              (PStr "https://u.my/contact") (PStr "2024-01-01 00:00:00"))
           "email" = PStr "jane.roe@uni.edu" ∧
  nonempty "jane.roe@uni.edu" = true.
Proof.
  apply (proj1 (@tier3_contact_carries_anchor_email sample_env)
           sample_scraper_plain 2%nat "jane.roe@uni.edu" "https://u.my/contact"
           0%nat _ (Scraper false None 0 0 1)).
  vm_compute. reflexivity.
Defined.

(* ===================================================================== *)
(** * Further results: the normaliser                                     *)
(* ===================================================================== *)

Section clean_more.

Lemma nonempty_len s : nonempty s = true ↔ 0 < len s.
Proof. unfold len. destruct s; simpl; split; intros; try done; lia. Qed.

Lemma clean_phone_field_shape v p :
  clean_phone_field v = PStr p ↔
  ∃ raw, v = PStr raw ∧ p = strip raw ∧ 7 ≤ len p ∧ isdigit p = false.
Proof.
  split.
  - destruct v as [|raw|n]; try done. unfold clean_phone_field.
    destruct (nonempty raw); [|done].
    destruct (nonempty (strip raw) && (7 <=? len (strip raw))
              && negb (isdigit (strip raw))) eqn:Hg; [|done].
    intros [= <-]. exists raw.
    apply andb_true_iff in Hg as [[_ Hl]%andb_true_iff Hd].
    repeat split; [lia|by apply negb_true_iff].
  - intros (raw & -> & -> & Hl & Hd). unfold clean_phone_field.
    assert (Hn : nonempty (strip raw) = true) by (apply nonempty_len; lia).
    assert (Hr : nonempty raw = true) by (by destruct raw).
    rewrite Hr, Hn, Hd. simpl.
    by rewrite (proj2 (Z.leb_le _ _) Hl).
Qed.

Lemma clean_text_field_shape v s :
  clean_text_field v = PStr s ↔
  ∃ raw, v = PStr raw ∧ s = strip raw ∧ 2 < len s.
Proof.
  split.
  - destruct v as [|raw|n]; try done. unfold clean_text_field.
    destruct (nonempty raw); [|done].
    destruct (nonempty (strip raw) && (2 <? len (strip raw))) eqn:Hg; [|done].
    intros [= <-]. exists raw.
    apply andb_true_iff in Hg as [_ Hl]. repeat split. lia.
  - intros (raw & -> & -> & Hl). unfold clean_text_field.
    assert (Hn : nonempty (strip raw) = true) by (apply nonempty_len; lia).
    assert (Hr : nonempty raw = true) by (by destruct raw).
    rewrite Hr, Hn. simpl. by rewrite (proj2 (Z.ltb_lt _ _) Hl).
Qed.

Lemma clean_field_never_number v :
  (∀ n, clean_phone_field v ≠ PNum n) ∧ (∀ n, clean_text_field v ≠ PNum n)
  ∧ (∀ n, clean_email_field v ≠ PNum n).
Proof.
  destruct v as [|s|m]; try done. repeat split; intros n.
  - unfold clean_phone_field. by repeat case_match.
  - unfold clean_text_field. by repeat case_match.
  - unfold clean_email_field. by repeat case_match.
Qed.

Lemma dict_get_clean_phone c :
  dict_get (clean_contact_data c) "phone" = clean_phone_field (dict_get c "phone").
Proof. unfold dict_get. by rewrite clean_lookup_phone. Qed.

Lemma dict_get_clean_text c k :
  k ∈ text_fields →
  dict_get (clean_contact_data c) k = clean_text_field (dict_get c k).
Proof.
  unfold text_fields, dict_get. rewrite !elem_of_cons.
  intros [->|[->|[->|[->|Hk%elem_of_nil]]]]; [| | | |done].
  - by rewrite clean_lookup_name.
  - by rewrite clean_lookup_designation.
  - by rewrite clean_lookup_university.
  - by rewrite clean_lookup_department.
Qed.

End clean_more.

(** X1: the cleaned phone of a record is non-null exactly when the
    trimmed input phone has at least seven characters and is not made of
    digits only; it is then that trimmed string. A phone of digits only
    is nulled whatever its length. *)
Theorem cleaned_phone_rule (c : contact) (p : string) :
  dict_get (clean_contact_data c) "phone" = PStr p ↔
  ∃ raw, dict_get c "phone" = PStr raw ∧ p = strip raw
         ∧ 7 ≤ len p ∧ isdigit p = false.
Proof. rewrite dict_get_clean_phone. apply clean_phone_field_shape. Qed.

(** X2: each of name, designation, university and department of a
    cleaned record is either null or the trimmed input, and then longer
    than two characters and free of surrounding whitespace. *)
Theorem cleaned_text_fields_rule (c : contact) (k : string) :
  k ∈ text_fields →
  dict_get (clean_contact_data c) k = PNone ∨
  ∃ raw, dict_get c k = PStr raw
         ∧ dict_get (clean_contact_data c) k = PStr (strip raw)
         ∧ 2 < len (strip raw) ∧ strip (strip raw) = strip raw.
Proof.
  intros Hk. rewrite (dict_get_clean_text c k Hk).
  destruct (clean_text_field (dict_get c k)) as [|s|n] eqn:Hs.
  - by left.
  - right. apply clean_text_field_shape in Hs as (raw & Hraw & -> & Hl).
    exists raw. repeat split; try done. apply strip_idemp.
  - by destruct (proj1 (proj2 (clean_field_never_number (dict_get c k))) n).
Qed.

Lemma cleaned_text_fields_rule_witness :
  dict_get (clean_contact_data rich_contact) "designation" = PNone ∨
  ∃ raw, dict_get rich_contact "designation" = PStr raw
         ∧ dict_get (clean_contact_data rich_contact) "designation"
           = PStr (strip raw)
         ∧ 2 < len (strip raw) ∧ strip (strip raw) = strip raw.
Proof.
  apply (cleaned_text_fields_rule rich_contact "designation").
  unfold text_fields. apply elem_of_cons. right. apply elem_of_cons. by left.
Defined.

(** X3: whatever keys the input dict has, the cleaned record has exactly
    the eight contact keys; extra keys are dropped, a missing source URL
    or scrape date becomes the empty string and a present one is passed
    on unchanged, whatever its type. *)
Theorem cleaned_record_keys (c : contact) :
  dom (clean_contact_data c)
  = ({["email"; "phone"; "name"; "designation"; "university";
       "department"; "source_url"; "scraped_date"]} : gset string) ∧
  Forall (λ k, dict_get (clean_contact_data c) k
               = match c !! k with Some v => v | None => PStr "" end)
         ["source_url"; "scraped_date"].
Proof.
  split; [apply clean_dom|].
  apply Forall_cons. split; [|apply Forall_singleton]; unfold dict_get.
  - rewrite clean_lookup_source_url. unfold dict_get_default.
    by destruct (c !! "source_url").
  - rewrite clean_lookup_scraped_date. unfold dict_get_default.
    by destruct (c !! "scraped_date").
Qed.

(* ===================================================================== *)
(** * Further results: the deduplicator                                   *)
(* ===================================================================== *)

Section dedup_more.

Lemma kept_app seen xs ys :
  kept seen (xs ++ ys) = kept seen xs ++ kept (seen_after seen xs) ys.
Proof.
  revert seen. induction xs as [|c xs IH]; intros seen.
  - unfold seen_after. cbn [app kept fmap list_fmap list_to_set foldr].
    by rewrite (left_id_L ∅ (∪)).
  - cbn [app kept]. unfold seen_after. cbn [kept].
    destruct (truthy _ && bool_decide _).
    + rewrite IH. cbn [app]. f_equal. f_equal. unfold seen_after.
      apply (f_equal (λ s, kept s ys)).
      apply set_eq. intros x. rewrite fmap_cons.
      rewrite !elem_of_union, !elem_of_list_to_set, elem_of_cons,
        elem_of_singleton. tauto.
    + by rewrite IH.
Qed.

Lemma kept_sublist seen cs :
  kept seen cs `sublist_of` clean_contact_data <$> cs.
Proof.
  revert seen. induction cs as [|c cs IH]; intros seen; simpl.
  - constructor.
  - destruct (truthy _ && bool_decide _).
    + by apply sublist_skip.
    + by apply sublist_cons.
Qed.

(** Every truthy cleaned email of the input is seen already or is the
    email of a kept record. *)
Lemma kept_covers seen cs c :
  c ∈ cs → truthy (email_key (clean_contact_data c)) = true →
  email_key (clean_contact_data c) ∈ seen ∨
  ∃ r, r ∈ kept seen cs ∧ email_key r = email_key (clean_contact_data c).
Proof.
  revert seen. induction cs as [|c0 cs IH]; intros seen Hin Ht.
  { by apply elem_of_nil in Hin. }
  simpl. apply elem_of_cons in Hin as [->|Hin].
  - rewrite Ht. simpl. case_bool_decide as Hs.
    + right. eexists. split; [by left|done].
    + by left.
  - destruct (truthy (email_key (clean_contact_data c0))
              && bool_decide _) eqn:Hg.
    + destruct (IH ({[email_key (clean_contact_data c0)]} ∪ seen) Hin Ht)
        as [[Hx%elem_of_singleton|Hx]%elem_of_union|(r & Hr & He)].
      * right. eexists. split; [by left|done].
      * by left.
      * right. exists r. split; [by right|done].
    + destruct (IH seen Hin Ht) as [?|(r & Hr & He)]; [by left|].
      right. by exists r.
Qed.

Lemma kept_nothing_new seen cs :
  (∀ c, c ∈ cs → truthy (email_key (clean_contact_data c)) = true →
        email_key (clean_contact_data c) ∈ seen) →
  kept seen cs = [].
Proof.
  induction cs as [|c cs IH]; intros Hs; simpl; [done|].
  destruct (truthy (email_key (clean_contact_data c))) eqn:Ht; simpl.
  - rewrite bool_decide_eq_false_2.
    + apply IH. intros c' Hc'. apply Hs. by right.
    + intros Hn. apply Hn, Hs; [by left|done].
  - apply IH. intros c' Hc'. apply Hs. by right.
Qed.

Lemma truthy_cleaned_email c :
  truthy (email_key (clean_contact_data c)) = true ↔
  dict_get (clean_contact_data c) "email" ≠ PNone.
Proof.
  rewrite email_key_clean, dict_get_clean_email. split.
  - apply truthy_not_none.
  - apply clean_email_field_truthy.
Qed.

Lemma email_key_cleaned c :
  email_key (clean_contact_data c) = dict_get (clean_contact_data c) "email".
Proof. by rewrite email_key_clean, dict_get_clean_email. Qed.

End dedup_more.

(** X4: the output of the deduplicator is the list of cleaned inputs with
    records left out, in the input order; the cleaned form of the first
    record that carries a given non-null cleaned email is in the output,
    and so every non-null cleaned email of the input is the email of an
    output record. *)
Theorem dedup_keeps_first_of_each_email (contacts : list contact) :
  let out := clean_and_deduplicate_contacts contacts in
  out `sublist_of` (clean_contact_data <$> contacts) ∧
  (∀ l1 c l2,
     contacts = l1 ++ c :: l2 →
     dict_get (clean_contact_data c) "email" ≠ PNone →
     (∀ c', c' ∈ l1 → dict_get (clean_contact_data c') "email"
                       ≠ dict_get (clean_contact_data c) "email") →
     clean_contact_data c ∈ out) ∧
  (∀ c, c ∈ contacts → dict_get (clean_contact_data c) "email" ≠ PNone →
        ∃ r, r ∈ out ∧ dict_get r "email"
                       = dict_get (clean_contact_data c) "email").
Proof.
  cbn zeta. rewrite clean_and_deduplicate_contacts_kept.
  split; [apply kept_sublist|]. split.
  - intros l1 c l2 -> Hnn Hfirst. rewrite kept_app.
    apply elem_of_app. right. cbn [kept].
    rewrite (proj2 (truthy_cleaned_email c) Hnn). cbn [andb].
    rewrite bool_decide_eq_true_2; [by left|].
    unfold seen_after.
    intros [Hx|Hx%elem_of_empty]%elem_of_union; [|done].
    apply elem_of_list_to_set, list_elem_of_fmap in Hx as (r & Hr & Hin).
    destruct (kept_elem _ _ _ Hin) as [_ (c' & Hc' & ->)].
    apply (Hfirst c' Hc'). by rewrite <- !email_key_cleaned.
  - intros c Hc Hnn.
    destruct (kept_covers ∅ contacts c Hc
                (proj2 (truthy_cleaned_email c) Hnn))
      as [Hx%elem_of_empty|(r & Hr & He)]; [done|].
    exists r. split; [done|].
    destruct (kept_elem _ _ _ Hr) as [_ (c' & _ & ->)].
    by rewrite <- !email_key_cleaned.
Qed.

Lemma dedup_keeps_first_of_each_email_witness :
  clean_contact_data sparse_contact
  ∈ clean_and_deduplicate_contacts
      [phone_only_contact; sparse_contact; rich_contact].
Proof.
  apply (proj1 (proj2 (dedup_keeps_first_of_each_email
                         [phone_only_contact; sparse_contact; rich_contact]))
           [phone_only_contact] sparse_contact [rich_contact]).
  - reflexivity.
  - vm_compute. discriminate.
  - intros c' ->%list_elem_of_singleton. vm_compute. discriminate.
Defined.

(** X5: contacts appended to the input never change what the
    deduplicator returned for the input before them; and when every
    non-null cleaned email of the appended contacts already occurs in the
    input, the output is the same. In particular a list followed by
    itself deduplicates to the same records as the list. *)
Theorem dedup_append (xs ys : list contact) :
  clean_and_deduplicate_contacts xs
    `prefix_of` clean_and_deduplicate_contacts (xs ++ ys) ∧
  ((∀ c, c ∈ ys → dict_get (clean_contact_data c) "email" ≠ PNone →
         ∃ c', c' ∈ xs ∧ dict_get (clean_contact_data c') "email"
                         = dict_get (clean_contact_data c) "email") →
   clean_and_deduplicate_contacts (xs ++ ys)
   = clean_and_deduplicate_contacts xs) ∧
  clean_and_deduplicate_contacts (xs ++ xs)
  = clean_and_deduplicate_contacts xs.
Proof.
  rewrite !clean_and_deduplicate_contacts_kept, !kept_app.
  assert (Habsorb : ∀ zs,
    (∀ c, c ∈ zs → dict_get (clean_contact_data c) "email" ≠ PNone →
          ∃ c', c' ∈ xs ∧ dict_get (clean_contact_data c') "email"
                          = dict_get (clean_contact_data c) "email") →
    kept (seen_after ∅ xs) zs = []).
  { intros zs Hzs. apply kept_nothing_new. intros c Hc Ht.
    destruct (Hzs c Hc (proj1 (truthy_cleaned_email c) Ht)) as (c' & Hc' & He).
    assert (Ht' : truthy (email_key (clean_contact_data c')) = true).
    { apply truthy_cleaned_email. rewrite He.
      by apply truthy_cleaned_email. }
    unfold seen_after. apply elem_of_union. left.
    apply elem_of_list_to_set, list_elem_of_fmap.
    destruct (kept_covers ∅ xs c' Hc' Ht')
      as [Hx%elem_of_empty|(r & Hr & Hre)]; [done|].
    exists r. split; [|done].
    by rewrite Hre, !email_key_cleaned. }
  split; [|split].
  - by eexists.
  - intros Hys. by rewrite (Habsorb ys Hys), app_nil_r.
  - rewrite (Habsorb xs); [by rewrite app_nil_r|]. eauto.
Qed.

Lemma dedup_append_witness :
  clean_and_deduplicate_contacts ([sparse_contact] ++ [rich_contact])
  = clean_and_deduplicate_contacts [sparse_contact].
Proof.
  apply (proj1 (proj2 (dedup_append [sparse_contact] [rich_contact]))).
  intros c ->%list_elem_of_singleton _. exists sparse_contact.
  split; [by left|]. vm_compute. reflexivity.
Defined.

(* ===================================================================== *)
(** * Further results: the URL prioritiser                                *)
(* ===================================================================== *)

Section prioritize_more.

Lemma match_keywords_acc table s (acc : Z * list string) :
  foldl (λ (acc : Z * list string) (kw : string * Z),
           if contains kw.1 s then (acc.1 + kw.2, acc.2 ++ [kw.1]) else acc)
        acc table
  = (acc.1 + sum_weights (matching_keywords table s),
     acc.2 ++ (matching_keywords table s).*1).
Proof.
  revert acc. induction table as [|kw table IH]; intros [z ks]; simpl.
  - by rewrite Z.add_0_r, app_nil_r.
  - rewrite IH. unfold matching_keywords. rewrite filter_cons.
    destruct (contains kw.1 s) eqn:Hc.
    + rewrite decide_True by done. simpl.
      by rewrite Z.add_assoc, <- app_assoc.
    + by rewrite decide_False by done.
Qed.

Lemma match_keywords_sum table s :
  match_keywords table s
  = (sum_weights (matching_keywords table s), (matching_keywords table s).*1).
Proof. unfold match_keywords. by rewrite match_keywords_acc. Qed.

Lemma sum_weights_bounds table :
  Forall (λ kw : string * Z, 0 < kw.2) table →
  (0 ≤ sum_weights table) ∧ (sum_weights table = 0 ↔ table = []).
Proof.
  induction 1 as [|kw table Hkw Ht [IH0 IH]]; simpl; [done|].
  split; [lia|]. split; [lia|done].
Qed.

Lemma sum_weights_filter_le (P : string * Z → Prop)
    `{!∀ x, Decision (P x)} table :
  Forall (λ kw : string * Z, 0 < kw.2) table →
  sum_weights (filter P table) ≤ sum_weights table.
Proof.
  induction 1 as [|kw table Hkw Ht IH]; simpl; [done|].
  rewrite filter_cons. case_decide; simpl; lia.
Qed.

Lemma keyword_scores_positive :
  Forall (λ kw : string * Z, 0 < kw.2) keyword_scores.
Proof. unfold keyword_scores. repeat constructor; simpl; lia. Qed.

Lemma keyword_scores_total : sum_weights keyword_scores = 3660.
Proof. reflexivity. Qed.

Lemma score_url_unfold u :
  score_url u
  = {| url := u;
       score := (match_keywords keyword_scores (lower u)).1;
       keywords := (match_keywords keyword_scores (lower u)).2 |}.
Proof. reflexivity. Qed.

Lemma descending_app_elem {A} (key : A → Z) l1 l2 x y :
  descending key (l1 ++ l2) → x ∈ l1 → y ∈ l2 → key y ≤ key x.
Proof.
  unfold descending. intros Hs Hx Hy.
  by apply (StronglySorted_app_1_elem_of _ l1 l2 x y Hs).
Qed.

Lemma slice_to_length {A} (l : list A) n :
  Z.of_nat (length (slice_to l n))
  = if 0 <=? n then Z.min n (Z.of_nat (length l))
    else Z.max 0 (Z.of_nat (length l) + n).
Proof.
  unfold slice_to. destruct (0 <=? n) eqn:Hn; rewrite length_take.
  - apply Z.leb_le in Hn. lia.
  - apply Z.leb_gt in Hn. lia.
Qed.

End prioritize_more.

(** X6: for any limit, the prioritiser returns a leading part of the
    ranking of the discovered URLs. The ranking is what it returns when
    the limit is the number of URLs: all of them, in descending order of
    keyword score, URLs of equal score in the order of enumeration. For a
    limit [N] of 0 or more the result is the first [N] URLs of the
    ranking (all of them when there are fewer, none for 0); for a negative
    limit it is the ranking without its last [-N] URLs. Every URL left out
    scores no higher than any URL returned. The second component is
    always the number of discovered URLs. *)
Theorem prioritizer_top_n (S : list string) (N : Z) :
  let r := prioritize_urls S N in
  let ranking := (prioritize_urls S (Z.of_nat (length S))).1 in
  (ranking ≡ₚ S ∧
   descending keyword_score ranking ∧
   ∀ k, filter (λ u, keyword_score u = k) ranking
        = filter (λ u, keyword_score u = k) S) ∧
  r.2 = Z.of_nat (length S) ∧
  r.1 = take (if 0 <=? N then Z.to_nat N
              else (length S - Z.to_nat (- N))%nat) ranking ∧
  Z.of_nat (length r.1)
  = (if 0 <=? N then Z.min N (Z.of_nat (length S))
     else Z.max 0 (Z.of_nat (length S) + N)) ∧
  (∀ u v, u ∈ r.1 → v ∈ drop (length r.1) ranking →
          keyword_score v ≤ keyword_score u).
Proof.
  cbn zeta. rewrite !prioritize_urls_sorted. cbn [fst snd].
  pose proof (Permutation_length (sort_desc_perm keyword_score S)) as Hlen.
  rewrite (slice_to_all (sort_desc keyword_score S) (Z.of_nat (length S)))
    by lia.
  assert (Hslice : slice_to (sort_desc keyword_score S) N
                   = take (if 0 <=? N then Z.to_nat N
                           else (length S - Z.to_nat (- N))%nat)
                          (sort_desc keyword_score S)).
  { unfold slice_to. rewrite Hlen. destruct (0 <=? N) eqn:HN; [done|].
    apply Z.leb_gt in HN. f_equal. lia. }
  split; [|split; [done|split; [done|split]]].
  - split; [apply sort_desc_perm|].
    split; [apply sort_desc_descending|]. intros k. apply sort_desc_stable.
  - rewrite slice_to_length. by rewrite Hlen.
  - rewrite Hslice.
    set (n := if 0 <=? N then Z.to_nat N else (length S - Z.to_nat (- N))%nat).
    set (l := sort_desc keyword_score S).
    assert (Hdrop : drop (length (take n l)) l = drop n l).
    { rewrite length_take. destruct (decide (n ≤ length l)%nat).
      - by rewrite Nat.min_l.
      - rewrite Nat.min_r by lia. by rewrite !drop_ge by lia. }
    rewrite Hdrop. intros u v Hu Hv.
    apply (descending_app_elem keyword_score (take n l) (drop n l));
      [|done..].
    rewrite take_drop. apply sort_desc_descending.
Qed.

(** Three URLs with scores 80, 100, 80: the limit 2 gives the first two
    of the ranking, the limit -1 drops the last one. *)
Example prioritizer_top_n_sample :
  (prioritize_urls [url_a; url_b; url_c] 2).1 = [url_b; url_a] ∧
  (prioritize_urls [url_a; url_b; url_c] (-1)).1 = [url_b; url_a] ∧
  (prioritize_urls [url_a; url_b; url_c] (-5)).1 = [] ∧
  (prioritize_urls [url_a; url_b; url_c] 0).1 = [].
Proof. repeat split. Qed.

(** X7: the keyword score of a URL is the sum of the weights of the table
    entries whose keyword occurs in the lowercased URL, and the matched
    keywords are those entries in table order. The score does not depend
    on letter case, lies between 0 and 3660, and is 0 exactly when no
    keyword occurs. *)
Theorem keyword_score_is_sum_of_matches (u : string) :
  keyword_score u = sum_weights (matching_keywords keyword_scores (lower u)) ∧
  keywords (score_url u) = (matching_keywords keyword_scores (lower u)).*1 ∧
  keyword_score (lower u) = keyword_score u ∧
  0 ≤ keyword_score u ≤ 3660 ∧
  (keyword_score u = 0 ↔
   ∀ kw, kw ∈ keyword_scores → contains kw.1 (lower u) = false).
Proof.
  assert (Hs : keyword_score u
               = sum_weights (matching_keywords keyword_scores (lower u))).
  { rewrite keyword_score_unfold, score_url_unfold. cbn [score].
    by rewrite match_keywords_sum. }
  assert (Hpos : Forall (λ kw : string * Z, 0 < kw.2)
                        (matching_keywords keyword_scores (lower u))).
  { unfold matching_keywords. apply Forall_forall.
    intros kw [_ Hkw]%list_elem_of_filter.
    pose proof keyword_scores_positive as Hall.
    rewrite Forall_forall in Hall. by apply Hall. }
  split; [done|]. split; [|split; [|split]].
  - rewrite score_url_unfold. cbn [keywords]. by rewrite match_keywords_sum.
  - rewrite !keyword_score_unfold, !score_url_unfold. cbn [score].
    by rewrite lower_idemp.
  - rewrite Hs. split; [apply (sum_weights_bounds _ Hpos)|].
    rewrite <- keyword_scores_total. unfold matching_keywords.
    apply sum_weights_filter_le, keyword_scores_positive.
  - rewrite Hs, (proj2 (sum_weights_bounds _ Hpos)).
    unfold matching_keywords. split.
    + intros Hnil kw Hkw. destruct (contains kw.1 (lower u)) eqn:Hc; [|done].
      assert (Hin : kw ∈ filter (λ kw : string * Z,
                                   contains kw.1 (lower u) = true)
                                keyword_scores)
        by (by apply list_elem_of_filter).
      rewrite Hnil in Hin. by apply elem_of_nil in Hin.
    + intros Hno. apply filter_none. apply Forall_forall.
      intros kw Hkw. by rewrite (Hno kw Hkw).
Qed.

(* ===================================================================== *)
(** * Further results: the LLM sanitiser and the retry loop               *)
(* ===================================================================== *)

Section ai_more.

Lemma ai_clean_name_shape v name :
  ai_clean_name v = PStr name →
  strip name = name ∧ 2 < len name ∧ has_char "@" (lower name) = false
  ∧ any_in llm_blocked_name_terms (lower name) = false.
Proof.
  destruct v as [|raw|n]; try done. unfold ai_clean_name.
  destruct (nonempty raw); [|done].
  destruct (nonempty (strip raw) && (2 <? len (strip raw))
            && negb (has_char "@" (lower (strip raw)))) eqn:Hg; [|done].
  destruct (negb (any_in _ (lower (strip raw)))) eqn:Hb; [|done].
  intros [= <-].
  apply andb_true_iff in Hg as [[_ Hl]%andb_true_iff Ha].
  repeat split.
  - apply strip_idemp.
  - lia.
  - by apply negb_true_iff.
  - by apply negb_true_iff.
Qed.

Lemma ai_clean_text_shape v s :
  ai_clean_text v = PStr s →
  strip s = s ∧ 2 < len s ∧ lower s ∉ llm_placeholders.
Proof.
  destruct v as [|raw|n]; try done. unfold ai_clean_text, not_placeholder.
  destruct (nonempty raw); [|done].
  destruct (nonempty (strip raw) && (2 <? len (strip raw))
            && negb (bool_decide _)) eqn:Hg; [|done].
  intros [= <-].
  apply andb_true_iff in Hg as [[_ Hl]%andb_true_iff Hp].
  repeat split; [apply strip_idemp|lia|].
  apply negb_true_iff in Hp. by apply bool_decide_eq_false in Hp.
Qed.

Lemma ai_clean_phone_shape v p :
  ai_clean_phone v = PStr p →
  strip p = p ∧ 7 ≤ len p ∧ lower p ∉ llm_placeholders.
Proof.
  destruct v as [|raw|n]; try done. unfold ai_clean_phone, not_placeholder.
  destruct (nonempty raw); [|done].
  destruct (nonempty (strip raw) && (7 <=? len (strip raw))
            && negb (bool_decide _)) eqn:Hg; [|done].
  intros [= <-].
  apply andb_true_iff in Hg as [[_ Hl]%andb_true_iff Hp].
  repeat split; [apply strip_idemp|lia|].
  apply negb_true_iff in Hp. by apply bool_decide_eq_false in Hp.
Qed.

Lemma ai_clean_name_idemp v : ai_clean_name (ai_clean_name v) = ai_clean_name v.
Proof.
  destruct v as [|raw|n]; try done. unfold ai_clean_name.
  destruct (nonempty raw); [|done].
  destruct (nonempty (strip raw) && (2 <? len (strip raw))
            && negb (has_char "@" (lower (strip raw)))) eqn:Hg; [|done].
  destruct (negb (any_in _ (lower (strip raw)))) eqn:Hb; [|done].
  rewrite strip_idemp, Hg, Hb.
  apply andb_true_iff in Hg as [[-> _]%andb_true_iff _]. done.
Qed.

Lemma ai_clean_text_idemp v : ai_clean_text (ai_clean_text v) = ai_clean_text v.
Proof.
  destruct v as [|raw|n]; try done. unfold ai_clean_text.
  destruct (nonempty raw); [|done].
  destruct (nonempty (strip raw) && (2 <? len (strip raw))
            && not_placeholder (strip raw)) eqn:Hg; [|done].
  rewrite strip_idemp, Hg.
  apply andb_true_iff in Hg as [[-> _]%andb_true_iff _]. done.
Qed.

Lemma ai_clean_phone_idemp v :
  ai_clean_phone (ai_clean_phone v) = ai_clean_phone v.
Proof.
  destruct v as [|raw|n]; try done. unfold ai_clean_phone.
  destruct (nonempty raw); [|done].
  destruct (nonempty (strip raw) && (7 <=? len (strip raw))
            && not_placeholder (strip raw)) eqn:Hg; [|done].
  rewrite strip_idemp, Hg.
  apply andb_true_iff in Hg as [[-> _]%andb_true_iff _]. done.
Qed.

Lemma ai_cleaned_lookup_name data :
  _clean_extracted_data data !! "name"
  = Some (ai_clean_name (dict_get data "name")).
Proof. unfold _clean_extracted_data. by simplify_map_eq. Qed.

Lemma ai_cleaned_lookup_designation data :
  _clean_extracted_data data !! "designation"
  = Some (ai_clean_text (dict_get data "designation")).
Proof. unfold _clean_extracted_data. by simplify_map_eq. Qed.

Lemma ai_cleaned_lookup_phone data :
  _clean_extracted_data data !! "phone"
  = Some (ai_clean_phone (dict_get data "phone")).
Proof. unfold _clean_extracted_data. by simplify_map_eq. Qed.

Lemma ai_cleaned_lookup_department data :
  _clean_extracted_data data !! "department"
  = Some (ai_clean_text (dict_get data "department")).
Proof. unfold _clean_extracted_data. by simplify_map_eq. Qed.

Lemma ai_cleaned_idemp data :
  _clean_extracted_data (_clean_extracted_data data)
  = _clean_extracted_data data.
Proof.
  unfold _clean_extracted_data at 1. unfold dict_get.
  rewrite ai_cleaned_lookup_name, ai_cleaned_lookup_designation,
    ai_cleaned_lookup_phone, ai_cleaned_lookup_department.
  simpl.
  rewrite ai_clean_name_idemp, ai_clean_phone_idemp, !ai_clean_text_idemp.
  reflexivity.
Qed.

End ai_more.

(** X8: whatever object the LLM returns, the sanitised result has exactly
    the keys name, designation, phone and department. A name it lets
    through is trimmed, longer than two characters, holds no "@" and none
    of the blocked terms; a designation or department is trimmed, longer
    than two characters and no placeholder; a phone is trimmed, at least
    seven characters long and no placeholder. Sanitising twice is the
    same as sanitising once. *)
Theorem llm_sanitiser_shape (data : contact) :
  dom (_clean_extracted_data data)
  = ({["name"; "designation"; "phone"; "department"]} : gset string) ∧
  (∀ name, dict_get (_clean_extracted_data data) "name" = PStr name →
     strip name = name ∧ 2 < len name ∧ has_char "@" (lower name) = false
     ∧ any_in llm_blocked_name_terms (lower name) = false) ∧
  (∀ k s, k ∈ ["designation"; "department"] →
     dict_get (_clean_extracted_data data) k = PStr s →
     strip s = s ∧ 2 < len s ∧ lower s ∉ llm_placeholders) ∧
  (∀ p, dict_get (_clean_extracted_data data) "phone" = PStr p →
     strip p = p ∧ 7 ≤ len p ∧ lower p ∉ llm_placeholders) ∧
  _clean_extracted_data (_clean_extracted_data data)
  = _clean_extracted_data data.
Proof.
  split; [|split; [|split; [|split]]].
  - unfold _clean_extracted_data. rewrite !dom_insert_L. set_solver.
  - intros name. unfold dict_get. rewrite ai_cleaned_lookup_name.
    apply ai_clean_name_shape.
  - intros k s. rewrite !elem_of_cons.
    intros [->|[->|Hk%elem_of_nil]]; [| |done]; unfold dict_get.
    + rewrite ai_cleaned_lookup_designation. apply ai_clean_text_shape.
    + rewrite ai_cleaned_lookup_department. apply ai_clean_text_shape.
  - intros p. unfold dict_get. rewrite ai_cleaned_lookup_phone.
    apply ai_clean_phone_shape.
  - apply ai_cleaned_idemp.
Qed.

Lemma llm_sanitiser_shape_witness :
  strip "Senior Lecturer" = "Senior Lecturer" ∧ 2 < len "Senior Lecturer"
  ∧ lower "Senior Lecturer" ∉ llm_placeholders.
Proof.
  apply (proj1 (proj2 (proj2 (llm_sanitiser_shape sample_llm_answer)))
           "designation" "Senior Lecturer").
  - apply elem_of_cons. by left.
  - vm_compute. reflexivity.
Defined.

(* ===================================================================== *)
(** * Further results: the retry loop and the completion step             *)
(* ===================================================================== *)

Section completion_more.

Context `{Env}.

Lemma extraction_attempts_first_answer remaining ex html_context email k :
  (k ≤ remaining)%nat →
  (∀ i, (i < k)%nat →
        call_openrouter (requests_sent ex + i) html_context email = LlmRaise) →
  call_openrouter (requests_sent ex + k) html_context email ≠ LlmRaise →
  extraction_attempts remaining ex html_context email
  = (outcome_result
       (call_openrouter (requests_sent ex + k) html_context email),
     {| enabled := enabled ex; requests_sent := requests_sent ex + k + 1 |}).
Proof.
  revert ex k. induction remaining as [|r IH]; intros ex k Hk Hraise Hans.
  - assert (k = 0)%nat as -> by lia. rewrite Nat.add_0_r in *. simpl.
    destruct (call_openrouter _ _ _); simpl; [done| |];
      do 2 f_equal; lia.
  - destruct k as [|k].
    + rewrite Nat.add_0_r in *. simpl.
      destruct (call_openrouter _ _ _); simpl; [done| |];
        do 2 f_equal; lia.
    + cbn [extraction_attempts].
      pose proof (Hraise 0%nat (Nat.lt_0_succ _)) as H0.
      rewrite Nat.add_0_r in H0. rewrite H0.
      set (ex' := {| enabled := enabled ex;
                     requests_sent := S (requests_sent ex) |}).
      assert (Heq : (requests_sent ex' + k = requests_sent ex + S k)%nat)
        by (simpl; lia).
      rewrite (IH ex' k).
      * by rewrite Heq.
      * lia.
      * intros i Hi.
        replace (requests_sent ex' + i)%nat
          with (requests_sent ex + S i)%nat by (simpl; lia).
        apply Hraise. lia.
      * by rewrite Heq.
Qed.

(** X9: a disabled extractor answers with the empty result and sends no
    request. An enabled one reports the first reply that is no exception:
    if the first k requests (k at most the number of retries) raise and
    the next one does not, it sends exactly k + 1 requests and returns
    the sanitised object of that reply, or the empty result when the
    reply is not valid JSON, which is not retried. *)
Theorem extract_contact_info_first_answer (ex : ai_extractor)
    (html_context email : string) (max_retries k : nat) :
  (enabled ex = false →
   extract_contact_info ex html_context email max_retries = (∅, ex)) ∧
  (enabled ex = true → (k ≤ max_retries)%nat →
   (∀ i, (i < k)%nat →
      call_openrouter (requests_sent ex + i)
        (truncated_context html_context) email = LlmRaise) →
   call_openrouter (requests_sent ex + k)
     (truncated_context html_context) email ≠ LlmRaise →
   extract_contact_info ex html_context email max_retries
   = (outcome_result
        (call_openrouter (requests_sent ex + k)
           (truncated_context html_context) email),
      {| enabled := true; requests_sent := requests_sent ex + k + 1 |})).
Proof.
  unfold extract_contact_info. split.
  - by intros ->.
  - intros Hen Hk Hraise Hans. rewrite Hen. simpl.
    fold (truncated_context html_context).
    rewrite (extraction_attempts_first_answer _ _ _ _ k) by done.
    by rewrite Hen.
Qed.

(** X10: the completion step of the contextual extractor raises the
    count of AI extractions by at most one and the count of successes by
    no more than that, so successes never overtake extractions; a
    success is counted only when the name was empty and is filled. When
    AI is switched off, there is no extractor, or the heuristic name is
    at least three characters long without an "@", the record and the
    scraper are left as they were and no request is sent. *)
Theorem ai_completion_counters (self : scraper) (email_element : element)
    (email : string) (c : contact) :
  let r := ai_completion self email_element email c in
  use_ai r.2 = use_ai self ∧
  (0 ≤ ai_success_count r.2 - ai_success_count self
     ≤ ai_extractions_count r.2 - ai_extractions_count self) ∧
  ai_extractions_count r.2 - ai_extractions_count self ≤ 1 ∧
  (ai_success_count self ≤ ai_extractions_count self →
   ai_success_count r.2 ≤ ai_extractions_count r.2) ∧
  (ai_success_count r.2 = ai_success_count self + 1 →
   truthy (dict_get c "name") = false
   ∧ truthy (dict_get r.1 "name") = true) ∧
  (use_ai self = false ∨ ai_extractor_obj self = None ∨ needs_ai c = false →
   r = (c, self)).
Proof.
  cbn zeta. unfold ai_completion.
  destruct (ai_extractor_obj self) as [ex|] eqn:Hex; cycle 1.
  { simpl. repeat split; try lia. }
  destruct (use_ai self && needs_ai c) eqn:Hg; cycle 1.
  { simpl. repeat split; try lia. }
  apply andb_true_iff in Hg as [Hu Hn].
  destruct (extract_contact_info _ _ _ _) as [ai_result ex']. simpl.
  split; [done|].
  destruct (name_filled ai_result c) eqn:Hf.
  - repeat split; try lia.
    + unfold name_filled in Hf.
      apply andb_true_iff in Hf as [_ Hc]. by apply negb_true_iff in Hc.
    + unfold name_filled in Hf.
      apply andb_true_iff in Hf as [[Hne Ha]%andb_true_iff Hc].
      unfold fill_missing_fields. rewrite Hne. cbn zeta.
      assert (Hname : truthy (dict_get (fill_field "name" ai_result c) "name")
                      = true).
      { unfold fill_field. rewrite Ha, Hc. simpl.
        by rewrite dict_get_insert. }
      pose proof (fill_field_frame "designation" ai_result _ "name" Hname) as H1.
      pose proof (fill_field_frame "phone" ai_result _ "name"
                    (eq_trans (f_equal truthy H1) Hname)) as H2.
      rewrite H1 in H2.
      pose proof (fill_field_frame "department" ai_result _ "name"
                    (eq_trans (f_equal truthy H2) Hname)) as H3.
      rewrite H2 in H3. by rewrite H3.
    + intros [Hoff|[Hno|Hnn]]; congruence.
  - repeat split; try lia.
    intros [Hoff|[Hno|Hnn]]; congruence.
Qed.

End completion_more.

Lemma extract_contact_info_first_answer_witness :
  @extract_contact_info sample_env (AiExtractor true 1) "<div></div>"
    "jane.roe@uni.edu" 2
  = (_clean_extracted_data sample_llm_answer, AiExtractor true 4).
Proof.
  apply (proj2 (@extract_contact_info_first_answer sample_env
                  (AiExtractor true 1) "<div></div>" "jane.roe@uni.edu" 2 2)).
  - reflexivity.
  - lia.
  - intros i Hi. destruct i as [|[|i]]; [reflexivity|reflexivity|lia].
  - discriminate.
Defined.

Lemma ai_completion_counters_witness :
  @ai_completion sample_env sample_scraper_answering 2%nat "jane.roe@uni.edu"
    sample_heuristic_named
  = (sample_heuristic_named, sample_scraper_answering).
Proof.
  apply (proj2 (proj2 (proj2 (proj2 (proj2
    (@ai_completion_counters sample_env sample_scraper_answering 2%nat
       "jane.roe@uni.edu" sample_heuristic_named)))))).
  right. right. vm_compute. reflexivity.
Defined.

(* ===================================================================== *)
(** * Further results: what the extractors leave alone                    *)
(* ===================================================================== *)

Section extract_more.

Context `{Env}.

Lemma not_written k :
  k ∉ written_keys →
  "name" ≠ k ∧ "email" ≠ k ∧ "phone" ≠ k ∧ "designation" ≠ k
  ∧ "university" ≠ k ∧ "department" ≠ k.
Proof.
  unfold written_keys. rewrite !not_elem_of_cons.
  intros (? & ? & ? & ? & ? & ? & _). repeat split; congruence.
Qed.

Ltac frame_keys Hk :=
  destruct (not_written _ Hk) as (? & ? & ? & ? & ? & ?);
  repeat case_match;
  rewrite ?set_if_found_lookup_ne, ?lookup_insert_ne by done; try done.

Lemma fallback_name_frame email c k :
  k ∉ written_keys → fallback_name email c !! k = c !! k.
Proof. intros Hk. unfold fallback_name. frame_keys Hk. Qed.

Lemma phone_from_tel_links_frame parent c k :
  k ∉ written_keys → phone_from_tel_links parent c !! k = c !! k.
Proof. intros Hk. unfold phone_from_tel_links. frame_keys Hk. Qed.

Lemma name_from_headings_frame parent c k :
  k ∉ written_keys → name_from_headings parent c !! k = c !! k.
Proof. intros Hk. unfold name_from_headings. frame_keys Hk. Qed.

Lemma name_from_headings_plain_frame ce c k :
  k ∉ written_keys → name_from_headings_plain ce c !! k = c !! k.
Proof. intros Hk. unfold name_from_headings_plain. frame_keys Hk. Qed.

Lemma class_tag_step_frame c tag k :
  k ∉ written_keys → class_tag_step c tag !! k = c !! k.
Proof. intros Hk. unfold class_tag_step. frame_keys Hk. Qed.

Lemma parent_level_step_frame el c level k :
  k ∉ written_keys → parent_level_step el c level !! k = c !! k.
Proof.
  intros Hk. unfold parent_level_step.
  destruct (nth_parent _ _) as [parent|]; [|done].
  apply (foldl_preserves (λ c', c' !! k = c !! k)).
  - intros a b Ha. by rewrite class_tag_step_frame.
  - by rewrite name_from_headings_frame, phone_from_tel_links_frame.
Qed.

Lemma text_elem_step_frame email c text_elem k :
  k ∉ written_keys → text_elem_step email c text_elem !! k = c !! k.
Proof.
  intros Hk. unfold text_elem_step.
  destruct (find_parent text_elem) as [parent|]; [|done].
  destruct (first_line_with _ _ _).
  - unfold name_and_designation_near.
    destruct (not_written _ Hk) as (? & ? & ? & ? & ? & ?).
    rewrite !set_if_found_lookup_ne by done.
    by rewrite name_from_headings_plain_frame, phone_from_tel_links_frame.
  - by rewrite name_from_headings_plain_frame, phone_from_tel_links_frame.
Qed.

Lemma ai_completion_frame_other self el email c k :
  k ∉ written_keys → (ai_completion self el email c).1 !! k = c !! k.
Proof.
  intros Hk. apply ai_completion_lookup_other.
  destruct (not_written _ Hk) as (? & ? & ? & ? & ? & ?).
  unfold completion_fields. rewrite !not_elem_of_cons.
  repeat split; try congruence. apply not_elem_of_nil.
Qed.

Lemma new_context_contact_meta email source_url now :
  new_context_contact email source_url now !! "source_url"
  = Some (PStr source_url)
  ∧ new_context_contact email source_url now !! "scraped_date"
    = Some (PStr now).
Proof. split; unfold new_context_contact, mk_contact; by simplify_map_eq. Qed.

Lemma meta_not_written :
  ("source_url" ∉ written_keys) ∧ ("scraped_date" ∉ written_keys).
Proof.
  unfold written_keys. rewrite !not_elem_of_cons.
  repeat split; try done; apply not_elem_of_nil.
Qed.

Lemma ai_completion_clock self el email c :
  clock_reads (ai_completion self el email c).2 = clock_reads self.
Proof.
  unfold ai_completion.
  destruct (ai_extractor_obj self) as [ex|]; [|done].
  destruct (use_ai self && needs_ai c); [|done].
  by destruct (extract_contact_info _ _ _ _) as [ai_result ex'].
Qed.

(** The contextual extractor reads the clock once, before anything else,
    and the record it returns carries that reading. *)
Lemma extract_contact_from_context_meta self el email source_url soup r self' :
  extract_contact_from_context self el email source_url soup = (r, self') →
  clock_reads self' = S (clock_reads self)
  ∧ ∀ c, r = Some c → carries_meta source_url c (clock_reads self).
Proof.
  unfold extract_contact_from_context. cbn zeta.
  destruct meta_not_written as [Hs Hd].
  set (now := strftime_now (clock_reads self)).
  change (read_clock self) with
    (now, {| use_ai := use_ai self; ai_extractor_obj := ai_extractor_obj self;
             ai_extractions_count := ai_extractions_count self;
             ai_success_count := ai_success_count self;
             clock_reads := S (clock_reads self) |}).
  cbn iota beta.
  set (self1 := {| clock_reads := S (clock_reads self) |}).
  pose proof (ai_completion_frame_other self1 el email
    (foldl (parent_level_step el)
       (fallback_name email (new_context_contact email source_url now))
       [0; 1; 2]%nat)) as Hai.
  pose proof (ai_completion_clock self1 el email
    (foldl (parent_level_step el)
       (fallback_name email (new_context_contact email source_url now))
       [0; 1; 2]%nat)) as Hck.
  destruct (ai_completion _ _ _ _) as [c' self'']. simpl in Hai, Hck.
  intros [= <- <-]. split; [done|].
  intros c Hc. apply contact_if_email_some in Hc as [-> _].
  assert (Hfold : ∀ k, k ∉ written_keys →
    foldl (parent_level_step el)
      (fallback_name email (new_context_contact email source_url now))
      [0; 1; 2]%nat !! k
    = new_context_contact email source_url now !! k).
  { intros k Hk.
    apply (foldl_preserves
             (λ c, c !! k = new_context_contact email source_url now !! k)).
    - intros a b Ha. by rewrite parent_level_step_frame.
    - by rewrite fallback_name_frame. }
  destruct (new_context_contact_meta email source_url now) as [Hm1 Hm2].
  split; rewrite Hai, Hfold by done; done.
Qed.

Lemma find_email_context_meta soup email source_url n c :
  find_email_context soup email source_url (strftime_now n) = Some c →
  carries_meta source_url c n.
Proof.
  unfold find_email_context. cbn zeta.
  intros [-> _]%contact_if_email_some.
  destruct meta_not_written as [Hs Hd].
  set (now := strftime_now n).
  assert (Hfold : ∀ k, k ∉ written_keys →
    foldl (text_elem_step email)
      (fallback_name email (new_context_contact email source_url now))
      (find_text_nodes soup email) !! k
    = new_context_contact email source_url now !! k).
  { intros k Hk.
    apply (foldl_preserves
             (λ c, c !! k = new_context_contact email source_url now !! k)).
    - intros a b Ha. by rewrite text_elem_step_frame.
    - by rewrite fallback_name_frame. }
  destruct (new_context_contact_meta email source_url now) as [Hm1 Hm2].
  split; rewrite Hfold by done; done.
Qed.

Lemma extract_contact_from_element_frame e source_url now k :
  k ∉ written_keys →
  extract_contact_from_element e source_url now !! k
  = mk_contact PNone PNone PNone PNone PNone PNone
               (PStr source_url) (PStr now) !! k.
Proof.
  intros Hk. unfold extract_contact_from_element. cbn zeta.
  destruct (not_written _ Hk) as (? & ? & ? & ? & ? & ?).
  rewrite !set_if_found_lookup_ne by done.
  rewrite phone_from_tel_links_frame by done.
  rewrite lookup_insert_ne by done.
  destruct (negb _); [destruct (find_mailto_links e)|];
    by rewrite ?lookup_insert_ne by done.
Qed.

Lemma extract_contact_from_element_meta e source_url n :
  carries_meta source_url
    (extract_contact_from_element e source_url (strftime_now n)) n.
Proof.
  destruct meta_not_written as [Hs Hd].
  split; rewrite extract_contact_from_element_frame by done;
    unfold mk_contact; by simplify_map_eq.
Qed.

(** ** The readings of the clock, one for each record *)

Lemma readings_between_le lo hi ns : readings_between lo hi ns → (lo ≤ hi)%nat.
Proof.
  revert lo. induction ns as [|n ns IH]; intros lo; simpl; [done|].
  intros [Hlo Hns]. apply IH in Hns. lia.
Qed.

Lemma readings_between_later lo hi hi' ns :
  readings_between lo hi ns → (hi ≤ hi')%nat → readings_between lo hi' ns.
Proof.
  revert lo. induction ns as [|n ns IH]; intros lo; simpl; [lia|].
  intros [Hlo Hns] Hhi. split; [done|]. by apply IH.
Qed.

Lemma readings_between_earlier lo lo' hi ns :
  readings_between lo hi ns → (lo' ≤ lo)%nat → readings_between lo' hi ns.
Proof. destruct ns as [|n ns]; simpl; [lia|]. intros [Hlo Hns] ?. split; [lia|done]. Qed.

Lemma readings_between_snoc lo hi ns :
  readings_between lo hi ns → readings_between lo (S hi) (ns ++ [hi]).
Proof.
  revert lo. induction ns as [|n ns IH]; intros lo; simpl; [lia|].
  intros [Hlo Hns]. split; [done|]. by apply IH.
Qed.

Lemma stamped_so_far_snoc source_url lo contacts self c self' :
  stamped_so_far source_url lo (contacts, self) →
  carries_meta source_url c (clock_reads self) →
  clock_reads self' = S (clock_reads self) →
  stamped_so_far source_url lo (contacts ++ [c], self').
Proof.
  intros (ns & Hf & Hr) Hc Hck. exists (ns ++ [clock_reads self]).
  cbn [fst snd] in *. split.
  - apply Forall2_app; [done|]. constructor; [exact Hc|constructor].
  - rewrite Hck. by apply readings_between_snoc.
Qed.

Lemma stamped_so_far_tick source_url lo contacts self self' :
  stamped_so_far source_url lo (contacts, self) →
  (clock_reads self ≤ clock_reads self')%nat →
  stamped_so_far source_url lo (contacts, self').
Proof.
  intros (ns & Hf & Hr) Hck. exists ns. cbn [fst snd] in *.
  split; [done|]. by eapply readings_between_later.
Qed.

Lemma element_steps_meta source_url lo elements st :
  stamped_so_far source_url lo st →
  stamped_so_far source_url lo (foldl (element_step source_url) st elements).
Proof.
  revert st. induction elements as [|e elements IH];
    intros [contacts self] Hst; simpl; [done|].
  apply IH. destruct (has_email_or_phone _).
  - eapply stamped_so_far_snoc; [exact Hst| |done].
    apply extract_contact_from_element_meta.
  - eapply stamped_so_far_tick; [exact Hst|simpl; lia].
Qed.

Lemma mailto_steps_meta source_url soup lo links st :
  stamped_so_far source_url lo st →
  stamped_so_far source_url lo (foldl (mailto_step source_url soup) st links).
Proof.
  revert st. induction links as [|link links IH];
    intros [contacts self] Hst; simpl; [done|].
  apply IH. destruct (nonempty _ && has_char "@" _); [|done].
  destruct (extract_contact_from_context _ _ _ _ _) as [r self'] eqn:Hctx.
  apply extract_contact_from_context_meta in Hctx as [Hck Hc].
  assert (stamped_so_far source_url lo (contacts, self'))
    by (eapply stamped_so_far_tick; [exact Hst|lia]).
  destruct r as [c|]; [|done]. case_bool_decide; [|done].
  eapply stamped_so_far_snoc; [exact Hst|by apply Hc|done].
Qed.

Lemma text_email_steps_meta source_url soup lo emails st :
  stamped_so_far source_url lo st →
  stamped_so_far source_url lo
    (foldl (text_email_step source_url soup) st emails).
Proof.
  revert st. induction emails as [|email emails IH];
    intros [contacts self] Hst; simpl; [done|].
  apply IH.
  assert (stamped_so_far source_url lo (contacts, (read_clock self).2))
    by (eapply stamped_so_far_tick; [exact Hst|simpl; lia]).
  destruct (find_email_context _ _ _ _) as [c|] eqn:Hctx; [|done].
  case_bool_decide; [|done].
  eapply stamped_so_far_snoc; [exact Hst| |done].
  by apply find_email_context_meta in Hctx.
Qed.

Lemma stamped_so_far_start source_url self :
  stamped_so_far source_url (clock_reads self) ([], self).
Proof. exists []. split; [constructor|simpl; lia]. Qed.

(** X11: every contact that [extract_contacts_from_html] emits, from any
    tier, carries the URL of the page it was given as its source URL, and
    as its scrape date a reading of the clock of its own: the contacts
    carry, in their order, readings with strictly increasing numbers, none
    before the call and none after it. No heuristic and no LLM answer can
    change these two fields. *)
Theorem emitted_contacts_carry_source_url (self : scraper)
    (content : html_content) (source_url : string) :
  let out := extract_contacts_from_html self content source_url in
  ∃ ns, Forall2 (λ c n, c !! "source_url" = Some (PStr source_url)
                        ∧ c !! "scraped_date" = Some (PStr (strftime_now n)))
                out.1 ns
        ∧ readings_between (clock_reads self) (clock_reads out.2) ns.
Proof.
  cbn zeta.
  change (stamped_so_far source_url (clock_reads self)
            (extract_contacts_from_html self content source_url)).
  unfold extract_contacts_from_html.
  destruct (content_html content) as [html|];
    [|apply stamped_so_far_start]. cbn zeta.
  assert (Hs : stamped_so_far source_url (clock_reads self)
                 (structural_contacts self (parse_html html) source_url)).
  { unfold structural_contacts.
    destruct (find_first _ _); [|apply stamped_so_far_start].
    apply element_steps_meta, stamped_so_far_start. }
  destruct (structural_contacts self (parse_html html) source_url)
    as [[|c cs] self1]; [|done].
  unfold contextual_contacts.
  pose proof (mailto_steps_meta source_url (parse_html html)
    (clock_reads self) (find_mailto_links_nocase (parse_html html))
    ([], self1) Hs) as Hm.
  destruct (foldl (mailto_step source_url (parse_html html)) _ _)
    as [[|c contacts] self2]; [|done].
  by apply text_email_steps_meta.
Qed.

(** The emails of what the text path gathers: those already gathered,
    then some of the enumerated addresses in their order. *)
Lemma text_email_steps_emails source_url soup emails contacts self :
  ∃ used, used `sublist_of` emails ∧
    (λ c, dict_get c "email")
      <$> (foldl (text_email_step source_url soup) (contacts, self) emails).1
    = ((λ c, dict_get c "email") <$> contacts) ++ (PStr <$> used).
Proof.
  revert contacts self.
  induction emails as [|email emails IH]; intros contacts self; simpl.
  - exists []. split; [done|]. by rewrite app_nil_r.
  - destruct (find_email_context soup email source_url _) as [c|] eqn:Hctx.
    + case_bool_decide.
      * destruct (IH (contacts ++ [c]) (read_clock self).2)
          as (used & Hsub & Heq).
        exists (email :: used). split; [by apply sublist_skip|].
        simpl in Heq.
        rewrite Heq, fmap_app, <- app_assoc. f_equal. simpl. f_equal.
        by apply find_email_context_email in Hctx as [-> _].
      * destruct (IH contacts (read_clock self).2) as (used & Hsub & Heq).
        exists used. split; [by apply sublist_cons|done].
    + destruct (IH contacts (read_clock self).2) as (used & Hsub & Heq).
      exists used. split; [by apply sublist_cons|done].
Qed.

(** X12: on a page without mailto anchors the contextual tier emits at
    most one contact for each distinct address found in the page text:
    the emails of its contacts are pairwise distinct and there are no
    more contacts than distinct addresses. *)
Theorem text_path_one_contact_per_address (self : scraper) (soup : element)
    (source_url : string) :
  find_mailto_links_nocase soup = [] →
  let out := (contextual_contacts self soup source_url).1 in
  NoDup ((λ c, dict_get c "email") <$> out) ∧
  (length out
   ≤ length (set_iter (re_findall email_pattern (get_text soup))))%nat.
Proof.
  intros Hno. cbn zeta. unfold contextual_contacts. rewrite Hno. simpl.
  destruct (text_email_steps_emails source_url soup
              (set_iter (re_findall email_pattern (get_text soup))) [] self)
    as (used & Hsub & Heq).
  simpl in Heq. split.
  - rewrite Heq. apply NoDup_fmap_2; [by intros x y [= ->]|].
    eapply sublist_NoDup; [|exact Hsub]. apply set_iter_NoDup.
  - apply (f_equal length) in Heq. rewrite !length_fmap in Heq.
    rewrite Heq. by apply sublist_length.
Qed.

End extract_more.

Lemma text_path_one_contact_per_address_witness :
  let out := (@contextual_contacts sample_text_env sample_scraper_plain 0%nat
                "https://u.my/contact").1 in
  NoDup ((λ c, dict_get c "email") <$> out) ∧
  (length out ≤ 2)%nat.
Proof.
  apply (@text_path_one_contact_per_address sample_text_env
           sample_scraper_plain 0%nat "https://u.my/contact").
  reflexivity.
Defined.

Example sample_text_page_extraction :
  (λ c, dict_get c "email")
    <$> (@contextual_contacts sample_text_env sample_scraper_plain 0%nat
           "https://u.my/contact").1
  = [PStr "c.d@uni.edu"; PStr "a.b@uni.edu"].
Proof. vm_compute. reflexivity. Qed.

(** The two contacts of the sample text page carry two readings of the
    clock. *)
Example sample_text_page_dates :
  (λ c, dict_get c "scraped_date")
    <$> (@contextual_contacts sample_text_env sample_scraper_plain 0%nat
           "https://u.my/contact").1
  = [PStr "2024-01-01 00:00:00"; PStr "2024-01-01 00:00:01"].
Proof. vm_compute. reflexivity. Qed.

(* ===================================================================== *)
(** * Further results: the item pipelines                                 *)
(* ===================================================================== *)

Section pipeline_more.

Import DataCleaningPipeline.

Lemma ascii_digit_not_space c : ascii_digit c = true → isspace c = false.
Proof.
  unfold ascii_digit, isspace. cbn zeta. generalize (code c). intros n Hn.
  apply andb_true_iff in Hn as [H1%N.leb_le H2%N.leb_le].
  repeat (apply orb_false_iff; split);
    rewrite ?andb_false_iff, ?N.leb_gt, ?N.eqb_neq; lia.
Qed.

Lemma ascii_digit_phone_char c : ascii_digit c = true → phone_char c = true.
Proof. unfold ascii_digit, phone_char. by intros ->. Qed.

Lemma clean_phone_chars phone p :
  clean_phone phone = Some p → all_chars phone_char p = true.
Proof.
  unfold clean_phone. cbn zeta. destruct (nonempty _); [|done].
  intros [= <-]. apply keep_chars_all.
Qed.

(** X13: the phone cleaner of the Scrapy pipeline returns a non-empty
    text made only of digits, [+], [-], parentheses and whitespace, with
    the decimal digits of its input in their order; it returns [None]
    only for an input without a decimal digit. *)
Theorem pipeline_phone_keeps_digits (phone : string) :
  match clean_phone phone with
  | Some p => nonempty p = true
              ∧ all_chars phone_char p = true
              ∧ keep_chars ascii_digit p = keep_chars ascii_digit phone
  | None => keep_chars ascii_digit phone = ""
  end.
Proof.
  unfold clean_phone. cbn zeta.
  pose proof (keep_chars_keep phone_char ascii_digit (strip phone)
                ascii_digit_phone_char) as Hk.
  rewrite (keep_chars_strip _ _ ascii_digit_not_space) in Hk.
  destruct (nonempty _) eqn:Hn.
  - split; [done|]. split; [apply keep_chars_all|done].
  - rewrite <- Hk.
    by destruct (keep_chars phone_char (strip phone)).
Qed.

(** ** Text normalisation *)

Lemma all_chars_snoc p s c :
  all_chars p s = true → p c = true →
  all_chars p (s +:+ String c "") = true.
Proof.
  intros Hs Hc. induction s as [|a s IH]; simpl in *; [by rewrite Hc|].
  apply andb_true_iff in Hs as [-> Hs]. by apply IH.
Qed.

Lemma nonempty_snoc s c : nonempty (s +:+ String c "") = true.
Proof. by destruct s. Qed.

Lemma split_ws_aux_words cur s :
  all_chars (λ c, negb (isspace c)) cur = true →
  Forall word (split_ws_aux cur s).
Proof.
  revert cur. induction s as [|c s IH]; intros cur Hcur; simpl.
  - destruct (nonempty cur) eqn:Hn; [|constructor].
    by apply Forall_singleton.
  - destruct (isspace c) eqn:Hc.
    + apply Forall_app. split; [|by apply IH].
      destruct (nonempty cur) eqn:Hn; [|constructor].
      by apply Forall_singleton.
    + apply IH. apply all_chars_snoc; [done|]. by rewrite Hc.
Qed.

Lemma append_empty_r s : s +:+ "" = s.
Proof. induction s as [|c s IH]; [done|]. by rewrite append_cons, IH. Qed.

Lemma word_starts_clean w t : word w → starts_clean (w +:+ t) = true.
Proof. intros [Hn Ha]. destruct w as [|c w]; [done|]. simpl in *.
  by apply andb_true_iff in Ha as [-> _]. Qed.

Lemma rstrip_word_app w t :
  word w → rstrip t = t → rstrip (w +:+ t) = w +:+ t.
Proof.
  intros [Hn Ha] Ht. induction w as [|c w IH]; [done|].
  simpl in Ha. apply andb_true_iff in Ha as [Hc%negb_true_iff Ha].
  rewrite append_cons, rstrip_cons_clean by done. f_equal.
  destruct w as [|d w]; [by rewrite append_empty_l|]. by apply IH.
Qed.

Lemma join_words_trimmed ws :
  Forall word ws →
  starts_clean (join " " ws) = true ∧ rstrip (join " " ws) = join " " ws.
Proof.
  induction 1 as [|w ws Hw Hws [IHs IHr]]; [done|].
  destruct ws as [|w' ws].
  - cbn [join]. split.
    + pose proof (word_starts_clean w "" Hw) as Hs.
      by rewrite append_empty_r in Hs.
    + pose proof (rstrip_word_app w "" Hw eq_refl) as Hr.
      by rewrite append_empty_r in Hr.
  - change (join " " (w :: w' :: ws))
      with (w +:+ " " +:+ join " " (w' :: ws)).
    split; [by apply word_starts_clean|].
    apply rstrip_word_app; [done|].
    change (" " +:+ join " " (w' :: ws))
      with (String " " (join " " (w' :: ws))).
    cbn [rstrip]. rewrite IHr.
    apply Forall_cons in Hws as [[Hn' _] _].
    destruct w' as [|c w']; [done|].
    destruct ws; by cbn [join].
Qed.

Lemma normalise_text_single_spaced s : single_spaced (normalise_text s).
Proof.
  unfold normalise_text. cbn zeta.
  pose proof (split_ws_aux_words "" s eq_refl) as Hw.
  fold (split_ws s) in Hw.
  destruct (join_words_trimmed _ Hw) as [Hs Hr].
  unfold strip. rewrite (lstrip_id _ Hs), Hr.
  exists (split_ws s). split; [done|]. exact Hw.
Qed.

Lemma single_spaced_empty : single_spaced "".
Proof. exists []. split; [done|constructor]. Qed.

(** ** One field of an item *)

Lemma clean_item_field_other f field item item' k :
  clean_item_field f field item = Some item' → k ≠ field →
  item' !! k = item !! k.
Proof.
  unfold clean_item_field. intros Hc Hk.
  destruct (dict_get item field) as [|s|n].
  - by injection Hc as <-.
  - destruct (nonempty s); injection Hc as <-; [|done].
    by rewrite lookup_insert_ne.
  - destruct (truthy _); [done|]. by injection Hc as <-.
Qed.

(** A string in the field after the step is the empty string that was
    there or a string the cleaner returned. *)
Lemma clean_item_field_value f field item item' s' :
  clean_item_field f field item = Some item' →
  item' !! field = Some (PStr s') →
  s' = "" ∨ ∃ s, f s = PStr s'.
Proof.
  unfold clean_item_field, dict_get. intros Hc Hs.
  destruct (item !! field) as [[|s|n]|] eqn:Hf; simpl in Hc.
  - injection Hc as <-. congruence.
  - destruct (nonempty s) eqn:Hn; injection Hc as <-.
    + rewrite lookup_insert_eq in Hs. injection Hs as Hs. right. by exists s.
    + left. destruct s; [|done]. congruence.
  - destruct (negb _); [done|]. injection Hc as <-. congruence.
  - injection Hc as <-. congruence.
Qed.

Lemma clean_item_field_dom f field item item' :
  clean_item_field f field item = Some item' → dom item' = dom item.
Proof.
  unfold clean_item_field, dict_get. intros Hc.
  destruct (item !! field) as [[|s|n]|] eqn:Hf; simpl in Hc.
  - by injection Hc as <-.
  - destruct (nonempty s); injection Hc as <-; [|done].
    rewrite dom_insert_L. apply elem_of_dom_2 in Hf.
    apply set_eq. intros x. rewrite elem_of_union, elem_of_singleton.
    split; [by intros [->|?]|by right].
  - destruct (negb _); [done|]. by injection Hc as <-.
  - by injection Hc as <-.
Qed.

(** X14: an item that leaves [DataCleaningPipeline.process_item] carries
    the clock reading as its scrape date and the keys it came with; each
    of its four text fields that holds a string holds words separated by
    single spaces; an email string is empty or lower-case, trimmed and of
    the shape local\@domain; a phone string is made of digits, [+], [-],
    parentheses and whitespace. *)
Theorem cleaning_pipeline_result (now : string) (item item' : contact) :
  process_item now item = Some item' →
  item' !! "scraped_date" = Some (PStr now)
  ∧ dom item' = {["scraped_date"]} ∪ dom item
  ∧ (∀ k s, k ∈ text_fields → item' !! k = Some (PStr s) → single_spaced s)
  ∧ (∀ e, item' !! "email" = Some (PStr e) → e = "" ∨ spec_email_invariant e)
  ∧ (∀ p, item' !! "phone" = Some (PStr p) → all_chars phone_char p = true).
Proof.
  unfold process_item. intros Hp.
  destruct (clean_item_field _ "name" item) as [i1|] eqn:H1; [|done].
  simpl in Hp.
  destruct (clean_item_field _ "designation" i1) as [i2|] eqn:H2; [|done].
  simpl in Hp.
  destruct (clean_item_field _ "university" i2) as [i3|] eqn:H3; [|done].
  simpl in Hp.
  destruct (clean_item_field _ "department" i3) as [i4|] eqn:H4; [|done].
  simpl in Hp.
  destruct (clean_item_field _ "email" i4) as [i5|] eqn:H5; [|done].
  simpl in Hp.
  destruct (clean_item_field _ "phone" i5) as [i6|] eqn:H6; [|done].
  simpl in Hp. injection Hp as <-.
  split; [by rewrite lookup_insert_eq|].
  split.
  { rewrite dom_insert_L.
    rewrite (clean_item_field_dom _ _ _ _ H6), (clean_item_field_dom _ _ _ _ H5),
      (clean_item_field_dom _ _ _ _ H4), (clean_item_field_dom _ _ _ _ H3),
      (clean_item_field_dom _ _ _ _ H2), (clean_item_field_dom _ _ _ _ H1).
    done. }
  assert (Htext : ∀ i i' k s,
            clean_item_field (λ s, PStr (normalise_text s)) k i = Some i' →
            i' !! k = Some (PStr s) → single_spaced s).
  { intros i i' k s Hc Hs.
    destruct (clean_item_field_value _ _ _ _ _ Hc Hs) as [->|[s0 [= <-]]].
    - apply single_spaced_empty.
    - apply normalise_text_single_spaced. }
  split; [|split].
  - intros k s Hk Hs. unfold text_fields in Hk.
    rewrite !elem_of_cons in Hk.
    destruct Hk as [->|[->|[->|[->|Hk]]]]; [| | | |by apply elem_of_nil in Hk];
      rewrite lookup_insert_ne in Hs by done.
    + apply (Htext _ _ _ _ H1).
      by rewrite <- (clean_item_field_other _ _ _ _ "name" H2),
        <- (clean_item_field_other _ _ _ _ "name" H3),
        <- (clean_item_field_other _ _ _ _ "name" H4),
        <- (clean_item_field_other _ _ _ _ "name" H5),
        <- (clean_item_field_other _ _ _ _ "name" H6).
    + apply (Htext _ _ _ _ H2).
      by rewrite <- (clean_item_field_other _ _ _ _ "designation" H3),
        <- (clean_item_field_other _ _ _ _ "designation" H4),
        <- (clean_item_field_other _ _ _ _ "designation" H5),
        <- (clean_item_field_other _ _ _ _ "designation" H6).
    + apply (Htext _ _ _ _ H3).
      by rewrite <- (clean_item_field_other _ _ _ _ "university" H4),
        <- (clean_item_field_other _ _ _ _ "university" H5),
        <- (clean_item_field_other _ _ _ _ "university" H6).
    + apply (Htext _ _ _ _ H4).
      by rewrite <- (clean_item_field_other _ _ _ _ "department" H5),
        <- (clean_item_field_other _ _ _ _ "department" H6).
  - intros e He. rewrite lookup_insert_ne in He by done.
    rewrite (clean_item_field_other _ _ _ _ "email" H6) in He by done.
    destruct (clean_item_field_value _ _ _ _ _ H5 He) as [->|[s0 Hs0]];
      [by left|].
    right. destruct (clean_email s0) as [r|] eqn:Hr; [|done].
    injection Hs0 as ->. by apply clean_email_invariant in Hr.
  - intros p Hph. rewrite lookup_insert_ne in Hph by done.
    destruct (clean_item_field_value _ _ _ _ _ H6 Hph) as [->|[s0 Hs0]];
      [done|].
    destruct (clean_phone s0) as [r|] eqn:Hr; [|done].
    injection Hs0 as ->. by apply clean_phone_chars in Hr.
Qed.

Lemma cleaning_pipeline_result_witness :
  let item' :=
    mk_contact (PStr "Jane Roe") (PStr "jane.roe@uni.edu")
               (PStr " +60 (3) 5555-1234") (PStr "Dean") PNone (PStr "")
               (PStr "https://u.my/staff") (PStr "2024-01-01 00:00:00") in
  process_item "2024-01-01 00:00:00" sample_item = Some item'
  ∧ item' !! "scraped_date" = Some (PStr "2024-01-01 00:00:00")
  ∧ dom item' = {["scraped_date"]} ∪ dom sample_item
  ∧ (∀ k s, k ∈ text_fields → item' !! k = Some (PStr s) → single_spaced s)
  ∧ (∀ e, item' !! "email" = Some (PStr e) → e = "" ∨ spec_email_invariant e)
  ∧ (∀ p, item' !! "phone" = Some (PStr p) → all_chars phone_char p = true).
Proof.
  cbn zeta.
  assert (Hrun : process_item "2024-01-01 00:00:00" sample_item
    = Some (mk_contact (PStr "Jane Roe") (PStr "jane.roe@uni.edu")
               (PStr " +60 (3) 5555-1234") (PStr "Dean") PNone (PStr "")
               (PStr "https://u.my/staff") (PStr "2024-01-01 00:00:00"))).
  { vm_compute. reflexivity. }
  split; [exact Hrun|].
  exact (cleaning_pipeline_result _ _ _ Hrun).
Defined.

(** ** The duplicate filter *)

Lemma process_items_sublist seen items :
  DuplicateFilterPipeline.process_items seen items `sublist_of` items.
Proof.
  revert seen. induction items as [|i items IH]; intros seen; simpl.
  - constructor.
  - unfold DuplicateFilterPipeline.process_item. cbn zeta.
    destruct (truthy _); [case_bool_decide|].
    + by apply sublist_cons.
    + by apply sublist_skip.
    + by apply sublist_skip.
Qed.

Lemma process_items_without_email seen items :
  filter (λ i, with_email i = false)
         (DuplicateFilterPipeline.process_items seen items)
  = filter (λ i, with_email i = false) items.
Proof.
  revert seen. induction items as [|i items IH]; intros seen; simpl; [done|].
  unfold DuplicateFilterPipeline.process_item. cbn zeta.
  destruct (truthy (dict_get i "email")) eqn:Ht.
  - rewrite (filter_cons_False _ i items) by (unfold with_email; congruence).
    case_bool_decide; [done|].
    rewrite filter_cons_False by (unfold with_email; congruence). apply IH.
  - rewrite !filter_cons_True by done. by rewrite IH.
Qed.

Lemma process_items_fresh seen items i :
  i ∈ DuplicateFilterPipeline.process_items seen items →
  with_email i = true → item_email i ∉ seen.
Proof.
  revert seen. induction items as [|i0 items IH]; intros seen; simpl.
  { by intros ?%elem_of_nil. }
  unfold DuplicateFilterPipeline.process_item. cbn zeta.
  destruct (truthy (dict_get i0 "email")) eqn:Ht.
  - case_bool_decide as Hs; [by apply IH|].
    intros [->|Hin]%elem_of_cons Hw; [done|].
    pose proof (IH _ Hin Hw) as Hn. intros Hx. apply Hn.
    apply elem_of_union. by right.
  - intros [->|Hin]%elem_of_cons Hw; [unfold with_email in Hw; congruence|].
    by apply IH.
Qed.

Lemma process_items_NoDup seen items :
  NoDup (item_email <$> filter (λ i, with_email i = true)
           (DuplicateFilterPipeline.process_items seen items)).
Proof.
  revert seen. induction items as [|i0 items IH]; intros seen; simpl.
  { constructor. }
  unfold DuplicateFilterPipeline.process_item. cbn zeta.
  destruct (truthy (dict_get i0 "email")) eqn:Ht.
  - case_bool_decide as Hs; [apply IH|].
    rewrite filter_cons_True by done. rewrite fmap_cons.
    apply NoDup_cons. split; [|apply IH].
    intros (j & Hj & [Hw Hin]%list_elem_of_filter)%list_elem_of_fmap.
    apply process_items_fresh in Hin; [|done].
    apply Hin. rewrite <- Hj. unfold item_email.
    apply elem_of_union. left. by apply elem_of_singleton.
  - rewrite filter_cons_False by (unfold with_email; congruence). apply IH.
Qed.

Lemma process_items_covers seen items i :
  i ∈ items → with_email i = true →
  item_email i ∈ seen ∨
  ∃ j, j ∈ DuplicateFilterPipeline.process_items seen items
       ∧ item_email j = item_email i.
Proof.
  revert seen. induction items as [|i0 items IH]; intros seen Hin Hw.
  { by apply elem_of_nil in Hin. }
  simpl. unfold DuplicateFilterPipeline.process_item. cbn zeta.
  apply elem_of_cons in Hin as [->|Hin].
  - unfold with_email in Hw. rewrite Hw. case_bool_decide as Hs.
    + by left.
    + right. exists i0. split; [by left|done].
  - destruct (truthy (dict_get i0 "email")) eqn:Ht.
    + case_bool_decide as Hs; [by apply IH|].
      destruct (IH ({[dict_get i0 "email"]} ∪ seen) Hin Hw)
        as [[Hx%elem_of_singleton|Hx]%elem_of_union|(j & Hj & He)].
      * right. exists i0. split; [by left|done].
      * by left.
      * right. exists j. split; [by right|done].
    + destruct (IH seen Hin Hw) as [?|(j & Hj & He)]; [by left|].
      right. exists j. split; [by right|done].
Qed.

(** X15: over the items of a crawl the duplicate filter passes the items
    in their order and drops only repeats: an item without an email
    always passes, the emails of the passed items are pairwise distinct,
    and every email of the input is the email of a passed item. *)
Theorem duplicate_filter_passes (items : list contact) :
  let passed := DuplicateFilterPipeline.process_items ∅ items in
  passed `sublist_of` items
  ∧ filter (λ i, with_email i = false) passed
    = filter (λ i, with_email i = false) items
  ∧ NoDup (item_email <$> filter (λ i, with_email i = true) passed)
  ∧ ∀ i, i ∈ items → with_email i = true →
         ∃ j, j ∈ passed ∧ item_email j = item_email i.
Proof.
  cbn zeta. split; [apply process_items_sublist|].
  split; [apply process_items_without_email|].
  split; [apply process_items_NoDup|].
  intros i Hin Hw.
  destruct (process_items_covers ∅ items i Hin Hw) as [Hx|Hj]; [|done].
  by apply elem_of_empty in Hx.
Qed.

End pipeline_more.

(* ===================================================================== *)
(** * Further results: URL discovery                                      *)
(* ===================================================================== *)

Section discovery_more.

Lemma append_inj_l a x y : a +:+ x = a +:+ y → x = y.
Proof.
  induction a as [|c a IH]; [done|].
  rewrite !append_cons. intros [= Heq]. by apply IH.
Qed.

Lemma patterns_NoDup : NoDup patterns.
Proof. apply (bool_decide_unpack _). by vm_compute. Qed.

Lemma foldl_append_if {A B} (f : B → A) (P : A → Prop)
    `{∀ x, Decision (P x)} (l : list B) (acc : list A) :
  foldl (λ acc b, if bool_decide (P (f b)) then acc ++ [f b] else acc) acc l
  = acc ++ filter P (f <$> l).
Proof.
  revert acc. induction l as [|b l IH]; intros acc; simpl.
  - by rewrite app_nil_r.
  - rewrite IH. case_bool_decide.
    + rewrite filter_cons_True by done. by rewrite <- app_assoc.
    + by rewrite filter_cons_False.
Qed.

Lemma filter_all {A} (P : A → Prop) `{∀ x, Decision (P x)} (l : list A) :
  Forall P l → filter P l = l.
Proof.
  induction 1 as [|x l Hx Hl IH]; [done|].
  rewrite filter_cons_True by done. by rewrite IH.
Qed.

Lemma discover_urls_by_patterns_unfold start_url base_domain d :
  discover_urls_by_patterns start_url base_domain d
  = filter (λ u, u ∉ d) ((λ p, "https://" +:+ base_domain +:+ p) <$> patterns).
Proof.
  unfold discover_urls_by_patterns. cbn zeta.
  exact (foldl_append_if (λ p, "https://" +:+ base_domain +:+ p)
                         (λ u, u ∉ d) patterns []).
Qed.

Lemma pattern_urls_NoDup start_url base_domain d :
  NoDup (discover_urls_by_patterns start_url base_domain d).
Proof.
  rewrite discover_urls_by_patterns_unfold.
  apply NoDup_filter, NoDup_fmap_2; [|apply patterns_NoDup].
  intros x y Heq%append_inj_l. by apply append_inj_l in Heq.
Qed.

Lemma pattern_urls_elem start_url base_domain d u :
  u ∈ discover_urls_by_patterns start_url base_domain d ↔
  (u ∉ d) ∧ ∃ pattern, pattern ∈ patterns
                       ∧ u = "https://" +:+ base_domain +:+ pattern.
Proof.
  rewrite discover_urls_by_patterns_unfold, list_elem_of_filter,
    list_elem_of_fmap.
  split; intros [Hd (p & Hp & Hu)]; (split; [done|]); by exists p.
Qed.

(** X16: the pattern generator proposes, for each of its 21 paths, the
    URL https://<domain><path> unless it is already discovered: its
    result has no repeats, holds no discovered URL and has at most 21
    entries, all 21 when none of its candidates was discovered. *)
Theorem pattern_urls_are_new_and_distinct (start_url base_domain : string)
    (discovered : gset string) :
  let pattern_urls :=
    discover_urls_by_patterns start_url base_domain discovered in
  NoDup pattern_urls
  ∧ (∀ u, u ∈ pattern_urls ↔
          (u ∉ discovered)
          ∧ ∃ pattern, pattern ∈ patterns
                       ∧ u = "https://" +:+ base_domain +:+ pattern)
  ∧ (length pattern_urls ≤ 21)%nat
  ∧ ((∀ pattern, pattern ∈ patterns →
        "https://" +:+ base_domain +:+ pattern ∉ discovered) →
     length pattern_urls = 21%nat).
Proof.
  cbn zeta. split; [apply pattern_urls_NoDup|].
  split; [apply pattern_urls_elem|].
  rewrite discover_urls_by_patterns_unfold. split.
  - etrans; [apply length_filter|]. by rewrite length_fmap.
  - intros Hnew.
    assert (Hall : Forall (λ u, u ∉ discovered)
              ((λ p, "https://" +:+ base_domain +:+ p) <$> patterns)).
    { apply Forall_fmap, Forall_forall. intros p Hp. by apply Hnew. }
    rewrite (filter_all _ _ Hall), length_fmap. reflexivity.
Qed.

(** ** Method 2 *)

Lemma add_pattern_urls_fresh l st :
  NoDup l → (∀ u, u ∈ l → u ∉ discovered_urls st) →
  add_pattern_urls l st
  = Discovery (list_to_set l ∪ discovered_urls st)
              (reverse l ++ urls_to_process st)
              (processed_urls st) (discovery_count st).
Proof.
  unfold add_pattern_urls. revert st.
  induction l as [|u l IH]; intros st Hnd Hnew.
  - destruct st as [d q p n]. simpl. by rewrite (left_id_L ∅ (∪)).
  - apply NoDup_cons in Hnd as [Hu Hnd]. cbn [foldl].
    rewrite bool_decide_eq_true_2 by (apply Hnew; by left).
    rewrite IH; [|done|]; cbn [discovered_urls urls_to_process
                                processed_urls discovery_count].
    + f_equal.
      * apply set_eq. intros x.
        rewrite list_to_set_cons, !elem_of_union, elem_of_singleton. tauto.
      * rewrite reverse_cons, <- app_assoc. done.
    + intros v Hv [->%elem_of_singleton|Hd]%elem_of_union; [done|].
      by apply (Hnew v); [right|].
Qed.

(** X17: Method 2 adds every generated pattern URL to the discovered set
    and puts each at the front of the queue in turn, so the queue then
    starts with the generated URLs in reverse order: the last pattern
    comes first and the contact paths, generated first, come after the
    other patterns. *)
Theorem pattern_urls_reach_the_queue_reversed (start_url base_domain : string)
    (st : discovery) :
  let pattern_urls :=
    discover_urls_by_patterns start_url base_domain (discovered_urls st) in
  add_pattern_urls pattern_urls st
  = Discovery (list_to_set pattern_urls ∪ discovered_urls st)
              (reverse pattern_urls ++ urls_to_process st)
              (processed_urls st) (discovery_count st).
Proof.
  cbn zeta. apply add_pattern_urls_fresh; [apply pattern_urls_NoDup|].
  intros u Hu. by apply pattern_urls_elem in Hu as [Hd _].
Qed.

(** Putting the staff URLs first only reorders the queue. *)
Lemma staff_first_queue st :
  urls_to_process (staff_first st) ≡ₚ urls_to_process st.
Proof. unfold staff_first. cbn. apply filter_app_complement. Qed.

(** ** Method 1 *)

Lemma parsable_prefix_sublist netloc urls :
  parsable_prefix netloc urls `sublist_of` urls.
Proof.
  induction urls as [|url rest IH]; simpl; [done|].
  destruct (netloc url); [by apply sublist_skip|apply sublist_nil_l].
Qed.

Lemma sitemap_added_sublist netloc base_domain max_pages urls n :
  sitemap_added netloc base_domain max_pages urls n `sublist_of` urls
  ∧ Forall (λ u, netloc u = Some base_domain)
           (sitemap_added netloc base_domain max_pages urls n).
Proof.
  unfold sitemap_added. cbn zeta.
  set (accepted := filter _ (parsable_prefix netloc urls)).
  assert (Hacc : accepted `sublist_of` urls
                 ∧ Forall (λ u, netloc u = Some base_domain) accepted).
  { split.
    - etrans; [apply sublist_filter|apply parsable_prefix_sublist].
    - apply Forall_forall. by intros u [? _]%list_elem_of_filter. }
  destruct Hacc as [Hsub Hall]. destruct (max_pages <=? 50); [|done].
  split.
  - etrans; [apply sublist_take|done].
  - by apply Forall_take.
Qed.

(** What Method 1 does to the state, from any count. *)
Lemma add_sitemap_urls_spec netloc base_domain max_pages sitemap_urls st n :
  add_sitemap_urls netloc base_domain max_pages sitemap_urls st n
  = (let added := sitemap_added netloc base_domain max_pages sitemap_urls n in
     (Discovery (discovered_urls st ∪ list_to_set added)
                (urls_to_process st ++ added)
                (processed_urls st) (discovery_count st),
      n + Z.of_nat (length added))).
Proof.
  cbn zeta. revert st n.
  assert (Hnone : ∀ st n,
    (st, n) = (Discovery (discovered_urls st ∪ list_to_set [])
                         (urls_to_process st ++ [])
                         (processed_urls st) (discovery_count st),
               n + Z.of_nat (length (@nil string)))).
  { intros [d q p c] n. cbn.
    rewrite (right_id_L ∅ (∪)), app_nil_r. f_equal. lia. }
  induction sitemap_urls as [|url rest IH]; intros st n.
  - unfold sitemap_added. cbn [add_sitemap_urls parsable_prefix].
    rewrite filter_nil, take_nil. destruct (max_pages <=? 50); apply Hnone.
  - unfold sitemap_added. cbn [add_sitemap_urls parsable_prefix].
    destruct (netloc url) as [parsed|] eqn:Hn; cycle 1.
    { rewrite filter_nil, take_nil. destruct (max_pages <=? 50); apply Hnone. }
    rewrite filter_cons. case_bool_decide as Hb.
    + subst parsed. rewrite decide_True by done.
      destruct ((max_pages <=? 50) && (max_pages * 3 <=? n + 1)) eqn:Hcap.
      * apply andb_true_iff in Hcap as [Hmp Hc%Z.leb_le]. rewrite Hmp.
        replace (Z.to_nat (Z.max 1 (max_pages * 3 - n))) with 1%nat by lia.
        cbn [take length]. rewrite take_0. f_equal.
        f_equal. apply set_eq. intros x.
        rewrite list_to_set_singleton, !elem_of_union, elem_of_singleton.
        tauto.
      * rewrite IH. unfold sitemap_added.
        cbn [discovered_urls urls_to_process processed_urls discovery_count].
        set (accepted := filter _ (parsable_prefix netloc rest)).
        assert (Hadd :
          (if max_pages <=? 50
           then take (Z.to_nat (Z.max 1 (max_pages * 3 - n))) (url :: accepted)
           else url :: accepted)
          = url :: (if max_pages <=? 50
                    then take (Z.to_nat (Z.max 1 (max_pages * 3 - (n + 1))))
                              accepted
                    else accepted)).
        { destruct (max_pages <=? 50); [|done]. simpl in Hcap.
          apply Z.leb_gt in Hcap.
          replace (Z.to_nat (Z.max 1 (max_pages * 3 - n)))
            with (S (Z.to_nat (Z.max 1 (max_pages * 3 - (n + 1))))) by lia.
          done. }
        rewrite Hadd. cbn [length]. f_equal; [|lia].
        f_equal.
        -- apply set_eq. intros x.
           rewrite list_to_set_cons, !elem_of_union, elem_of_singleton.
           tauto.
        -- by rewrite <- app_assoc.
    + rewrite decide_False by congruence. apply IH.
Qed.

(** X18: from a sitemap the discovery takes URLs of the base domain only,
    in the sitemap's order, and appends them to the queue and to the
    discovered set. It walks the sitemap up to the first URL that
    [urlparse] rejects and takes every URL of the base domain on the way;
    for a run of at most 50 pages it takes only the first
    [max(1, 3 * max_pages)] of them, so it stops after three times the
    page count but never before the first accepted URL, and a page count
    of zero still takes one. *)
Theorem sitemap_urls_are_capped (netloc : string → option string)
    (base_domain : string) (max_pages : Z) (sitemap_urls : list string)
    (st : discovery) :
  let result :=
    add_sitemap_urls netloc base_domain max_pages sitemap_urls st 0 in
  let accepted := filter (λ url, netloc url = Some base_domain)
                         (parsable_prefix netloc sitemap_urls) in
  let added :=
    if max_pages <=? 50
    then take (Z.to_nat (Z.max 1 (max_pages * 3))) accepted
    else accepted in
  result = (Discovery (discovered_urls st ∪ list_to_set added)
                      (urls_to_process st ++ added)
                      (processed_urls st) (discovery_count st),
            Z.of_nat (length added))
  ∧ added `sublist_of` sitemap_urls
  ∧ Forall (λ u, netloc u = Some base_domain) added
  ∧ (max_pages ≤ 50 → result.2 ≤ Z.max 1 (max_pages * 3))
  ∧ (max_pages ≤ 0 → added = take 1 accepted).
Proof.
  cbn zeta. rewrite add_sitemap_urls_spec. cbn zeta.
  pose proof (sitemap_added_sublist netloc base_domain max_pages
                sitemap_urls 0) as [Hsub Hall].
  unfold sitemap_added in *. cbn zeta in *. rewrite Z.sub_0_r in *.
  split; [done|]. split; [done|]. split; [done|]. split.
  - intros Hmp. cbn [snd].
    rewrite (proj2 (Z.leb_le max_pages 50)) by done.
    rewrite length_take. lia.
  - intros Hmp. rewrite (proj2 (Z.leb_le max_pages 50)) by lia.
    by replace (Z.to_nat (Z.max 1 (max_pages * 3))) with 1%nat by lia.
Qed.

(** A sitemap of five URLs: one of another site, and one that [urlparse]
    rejects, after which nothing is read. *)
Example sitemap_sample :
  let sitemap := ["https://u.my/a"; "https://x.org/b"; "https://u.my/c";
                  "https://[bad"; "https://u.my/d"] in
  (add_sitemap_urls sample_netloc "u.my" 60 sitemap
     (initial_discovery "https://u.my/") 0).2 = 2
  ∧ urls_to_process
      (add_sitemap_urls sample_netloc "u.my" 60 sitemap
         (initial_discovery "https://u.my/") 0).1
    = ["https://u.my/"; "https://u.my/a"; "https://u.my/c"]
  ∧ urls_to_process
      (add_sitemap_urls sample_netloc "u.my" 0 sitemap
         (initial_discovery "https://u.my/") 0).1
    = ["https://u.my/"; "https://u.my/a"].
Proof. repeat split. Qed.

(** ** Method 3: the crawl loop *)

Section crawl.

Variable page_links : string → list (string * string).
Variable base_domain : string.
Variables max_discovery max_requests : Z.

Local Abbreviation loop := (discovery_loop page_links base_domain
                          max_discovery max_requests).
Local Abbreviation body := (loop_body page_links base_domain).
Local Abbreviation cond := (loop_cond max_discovery max_requests).

Lemma new_page_url_crawlable st link :
  new_page_url base_domain st link = true →
  (link.2 ∉ discovered_urls st) ∧ crawlable base_domain link.
Proof.
  unfold new_page_url, crawlable. destruct link as [nl u]. cbn [fst snd].
  rewrite !andb_true_iff, !negb_true_iff, !bool_decide_eq_true.
  intros [[[[[Hn Hd] Hx] Hm] Ht] He]. repeat split; try done.
  unfold any_in in Hx. apply Forall_forall. intros ext Hext.
  destruct (contains ext (lower u)) eqn:Hc; [|done].
  assert (existsb (λ x, contains x (lower u)) skipped_extensions = true)
    as Hex; [|congruence].
  apply existsb_exists. exists ext. split; [|done].
  by apply list_elem_of_In.
Qed.

Lemma link_step_facts st link :
  let st' := link_step base_domain st link in
  discovered_urls st ⊆ discovered_urls st'
  ∧ processed_urls st' = processed_urls st
  ∧ discovery_count st' = discovery_count st
  ∧ ∀ u, u ∈ discovered_urls st' →
         u ∈ discovered_urls st ∨ (link.2 = u ∧ crawlable base_domain link).
Proof.
  cbn zeta. unfold link_step.
  destruct (new_page_url base_domain st link) eqn:Hn;
    cbn [discovered_urls processed_urls discovery_count].
  - apply new_page_url_crawlable in Hn as [_ Hc].
    split; [apply union_subseteq_r|]. repeat split.
    intros u [->%elem_of_singleton|Hu]%elem_of_union; [by right|by left].
  - repeat split; [done|]. by left.
Qed.

Lemma links_facts links st :
  let st' := foldl (link_step base_domain) st links in
  discovered_urls st ⊆ discovered_urls st'
  ∧ processed_urls st' = processed_urls st
  ∧ discovery_count st' = discovery_count st
  ∧ ∀ u, u ∈ discovered_urls st' →
         u ∈ discovered_urls st
         ∨ ∃ link, link ∈ links ∧ link.2 = u ∧ crawlable base_domain link.
Proof.
  cbn zeta. revert st. induction links as [|link links IH]; intros st.
  - cbn [foldl]. repeat split; [done|]. by left.
  - cbn [foldl].
    destruct (IH (link_step base_domain st link)) as (Hd & Hp & Hc & Hu).
    destruct (link_step_facts st link) as (Hd1 & Hp1 & Hc1 & Hu1).
    split; [by etrans|]. split; [congruence|]. split; [congruence|].
    intros u Hin. destruct (Hu u Hin) as [Hin1|(l & Hl & Hlu & Hlc)].
    + destruct (Hu1 u Hin1) as [?|[? ?]]; [by left|].
      right. exists link. split; [by left|done].
    + right. exists l. split; [by right|done].
Qed.

(** One iteration: it passes over a processed URL, or it requests a URL
    that was not processed and walks its anchors. *)
Lemma body_facts st current_url rest :
  urls_to_process st = current_url :: rest →
  let st' := body st in
  (current_url ∈ processed_urls st
   ∧ st' = Discovery (discovered_urls st) rest (processed_urls st)
                     (discovery_count st))
  ∨ ((current_url ∉ processed_urls st)
     ∧ discovered_urls st ⊆ discovered_urls st'
     ∧ processed_urls st' = {[current_url]} ∪ processed_urls st
     ∧ discovery_count st' = discovery_count st + 1
     ∧ ∀ u, u ∈ discovered_urls st' →
            u ∈ discovered_urls st
            ∨ ∃ link, link ∈ page_links current_url ∧ link.2 = u
                      ∧ crawlable base_domain link).
Proof.
  intros Hq. cbn zeta. unfold loop_body. rewrite Hq.
  case_bool_decide as Hp; [by left|]. right. split; [done|].
  pose proof (links_facts (page_links current_url)
           (Discovery (discovered_urls st) rest
              ({[current_url]} ∪ processed_urls st)
              (discovery_count st + 1))) as Hl.
  cbn zeta in Hl.
  cbn [discovered_urls processed_urls discovery_count] in Hl. exact Hl.
Qed.

Lemma cond_true st :
  cond st = true →
  urls_to_process st ≠ [] ∧ discovery_count st < max_requests.
Proof.
  unfold loop_cond.
  rewrite !andb_true_iff, bool_decide_eq_true, !Z.ltb_lt. tauto.
Qed.

Lemma loop_facts fuel st :
  let st' := loop fuel st in
  discovered_urls st ⊆ discovered_urls st'
  ∧ processed_urls st ⊆ processed_urls st'
  ∧ Z.of_nat (size (processed_urls st')) - discovery_count st'
    = Z.of_nat (size (processed_urls st)) - discovery_count st
  ∧ discovery_count st ≤ discovery_count st'
  ∧ discovery_count st' ≤ Z.max (discovery_count st) max_requests
  ∧ ∀ u, u ∈ discovered_urls st' →
         u ∈ discovered_urls st
         ∨ ∃ page link, page ∈ processed_urls st'
                        ∧ link ∈ page_links page ∧ link.2 = u
                        ∧ crawlable base_domain link.
Proof.
  cbn zeta. revert st. induction fuel as [|fuel IH]; intros st.
  { cbn [discovery_loop]. repeat split; try done; try lia. by left. }
  cbn [discovery_loop]. destruct (cond st) eqn:Hc.
  2:{ repeat split; try done; try lia. by left. }
  apply cond_true in Hc as [Hq Hlt].
  destruct (urls_to_process st) as [|current_url rest] eqn:Hqe; [done|].
  destruct (IH (body st)) as (Hd & Hp & Hs & Hle & Hmax & Hnew).
  destruct (body_facts st current_url rest Hqe)
    as [[Hin Hb]|(Hnin & Hd1 & Hp1 & Hc1 & Hnew1)].
  - rewrite Hb in *.
    cbn [discovered_urls processed_urls discovery_count] in *.
    repeat split; done.
  - rewrite Hp1, Hc1 in *.
    split; [by etrans|].
    split; [etrans; [apply union_subseteq_r|exact Hp]|].
    split.
    { rewrite Hs, size_union, size_singleton by
        (by apply disjoint_singleton_l). lia. }
    split; [lia|]. split; [lia|].
    intros u Hu. destruct (Hnew u Hu) as [Hu1|Hex]; [|by right].
    destruct (Hnew1 u Hu1) as [?|(link & Hl & Hlu & Hlc)]; [by left|].
    right. exists current_url, link. split; [|done].
    apply Hp, elem_of_union. left. by apply elem_of_singleton.
Qed.

Lemma loop_exits_aux (b : nat) :
  ∀ q st, urls_to_process st = q →
          max_requests - discovery_count st ≤ Z.of_nat b →
          ∃ fuel, cond (loop fuel st) = false.
Proof.
  induction b as [|b IHb].
  - intros q st _ Hb. exists O. cbn [discovery_loop]. unfold loop_cond.
    rewrite (proj2 (Z.ltb_ge (discovery_count st) max_requests)) by lia.
    by rewrite andb_false_r.
  - induction q as [|current_url rest IHq]; intros st Hq Hb.
    + exists O. cbn [discovery_loop]. unfold loop_cond. rewrite Hq.
      by rewrite bool_decide_eq_false_2 by (by intros ?).
    + destruct (cond st) eqn:Hc; [|by exists O].
      destruct (body_facts st current_url rest Hq)
        as [[Hin Hbody]|(Hnin & _ & _ & Hc1 & _)].
      * destruct (IHq (body st)) as [fuel Hf].
        { by rewrite Hbody. }
        { rewrite Hbody. cbn [discovery_count]. lia. }
        exists (S fuel). cbn [discovery_loop]. by rewrite Hc.
      * destruct (IHb (urls_to_process (body st)) (body st) eq_refl)
          as [fuel Hf]; [lia|].
        exists (S fuel). cbn [discovery_loop]. by rewrite Hc.
Qed.

Lemma loop_exits st : ∃ fuel, cond (loop fuel st) = false.
Proof.
  apply (loop_exits_aux (Z.to_nat (max_requests - discovery_count st))
           (urls_to_process st) st eq_refl). lia.
Qed.

Lemma loop_idle fuel st : cond st = false → loop fuel st = st.
Proof. intros Hc. destruct fuel; cbn [discovery_loop]; by rewrite ?Hc. Qed.

End crawl.

(** X19: the crawl loop always comes to an end, and when it has, it has
    sent at most [min(deep_crawl_requests, 100)] requests, each for a URL
    it had not requested before; without deep crawling it sends none and
    changes nothing. The discovered set only grows. *)
Theorem crawl_request_budget (page_links : string → list (string * string))
    (base_domain : string) (max_discovery : Z) (enable_deep_crawl : bool)
    (deep_crawl_requests : Z) (st : discovery) :
  discovery_count st = 0 →
  let max_requests :=
    max_discovery_requests enable_deep_crawl deep_crawl_requests in
  ∃ fuel,
    let st' := discovery_loop page_links base_domain max_discovery
                              max_requests fuel st in
    loop_cond max_discovery max_requests st' = false
    ∧ 0 ≤ discovery_count st' ≤ 100
    ∧ discovery_count st' ≤ Z.max 0 deep_crawl_requests
    ∧ Z.of_nat (size (processed_urls st'))
      = Z.of_nat (size (processed_urls st)) + discovery_count st'
    ∧ discovered_urls st ⊆ discovered_urls st'
    ∧ (enable_deep_crawl = false → st' = st).
Proof.
  intros H0. cbn zeta.
  set (mr := max_discovery_requests enable_deep_crawl deep_crawl_requests).
  assert (Hmr : mr ≤ 100 ∧ mr ≤ Z.max 0 deep_crawl_requests
                ∧ (enable_deep_crawl = false → mr = 0)).
  { unfold mr, max_discovery_requests.
    destruct enable_deep_crawl; repeat split; try lia; done. }
  destruct Hmr as (Hm1 & Hm2 & Hm3).
  destruct (loop_exits page_links base_domain max_discovery mr st)
    as [fuel Hexit].
  exists fuel. split; [done|].
  destruct (loop_facts page_links base_domain max_discovery mr fuel st)
    as (Hd & Hp & Hs & Hle & Hmax & _).
  rewrite H0 in *.
  split; [lia|]. split; [lia|]. split; [lia|]. split; [done|].
  intros He. apply loop_idle. unfold loop_cond. rewrite (Hm3 He).
  by rewrite andb_false_r.
Qed.

Lemma crawl_request_budget_witness :
  ∃ fuel,
    let st' := discovery_loop sample_page_links "u.my" 2000
                 (max_discovery_requests true 50) fuel
                 (initial_discovery "https://u.my/") in
    loop_cond 2000 (max_discovery_requests true 50) st' = false
    ∧ 0 ≤ discovery_count st' ≤ 100
    ∧ discovery_count st' ≤ Z.max 0 50
    ∧ Z.of_nat (size (processed_urls st'))
      = Z.of_nat (size (processed_urls (initial_discovery "https://u.my/")))
        + discovery_count st'
    ∧ discovered_urls (initial_discovery "https://u.my/") ⊆ discovered_urls st'
    ∧ (true = false → st' = initial_discovery "https://u.my/").
Proof.
  apply (crawl_request_budget sample_page_links "u.my" 2000 true 50
           (initial_discovery "https://u.my/")).
  reflexivity.
Defined.

(** X20: whatever the pages hold, a URL that the crawl loop adds to the
    discovered set is the cleaned URL of an anchor of a page it
    requested, lies on the base domain, holds none of the skipped
    extensions anywhere in its lower-cased text, does not start with
    mailto: or tel: and does not end in #. *)
Theorem crawl_adds_only_crawlable_links
    (page_links : string → list (string * string)) (base_domain : string)
    (max_discovery max_requests : Z) (fuel : nat) (st : discovery)
    (u : string) :
  let st' := discovery_loop page_links base_domain max_discovery
                            max_requests fuel st in
  u ∈ discovered_urls st' → u ∉ discovered_urls st →
  ∃ page link, page ∈ processed_urls st' ∧ link ∈ page_links page
               ∧ link.2 = u ∧ crawlable base_domain link.
Proof.
  cbn zeta. intros Hin Hnew.
  destruct (loop_facts page_links base_domain max_discovery max_requests
              fuel st) as (_ & _ & _ & _ & _ & Hu).
  by destruct (Hu u Hin).
Qed.

End discovery_more.

Lemma crawl_adds_only_crawlable_links_witness :
  ∃ page link,
    page ∈ processed_urls
             (discovery_loop sample_page_links "u.my" 2000 50 1
                (initial_discovery "https://u.my/"))
    ∧ link ∈ sample_page_links page
    ∧ link.2 = "https://u.my/staff" ∧ crawlable "u.my" link.
Proof.
  apply (crawl_adds_only_crawlable_links sample_page_links "u.my" 2000 50 1
           (initial_discovery "https://u.my/") "https://u.my/staff").
  - apply (bool_decide_unpack _). by vm_compute.
  - apply (bool_decide_unpack _). by vm_compute.
Defined.

Example sample_crawl :
  let st := discovery_loop sample_page_links "u.my" 2000 50 10
              (initial_discovery "https://u.my/") in
  discovery_count st = 4
  ∧ discovered_urls st
    = list_to_set ["https://u.my/"; "https://u.my/about";
                   "https://u.my/staff"; "https://u.my/staff/jane"]
  ∧ urls_to_process st = [].
Proof.
  cbn zeta. split; [vm_compute; reflexivity|].
  split; [|vm_compute; reflexivity].
  apply (bool_decide_unpack _). by vm_compute.
Qed.

Example sample_queue :
  let st := initial_discovery "https://u.my/" in
  let pattern_urls := discover_urls_by_patterns "https://u.my/" "u.my"
                        (discovered_urls st) in
  take 2 (urls_to_process (add_pattern_urls pattern_urls st))
  = ["https://u.my/help"; "https://u.my/support"]
  ∧ take 2 (urls_to_process (staff_first (add_pattern_urls pattern_urls st)))
    = ["https://u.my/about/faculty"; "https://u.my/about/staff"]
  ∧ last (urls_to_process (staff_first (add_pattern_urls pattern_urls st)))
    = Some "https://u.my/".
Proof. repeat split; vm_compute; reflexivity. Qed.

(* ===================================================================== *)
(** * Further results: the clean CSV step                                 *)
(* ===================================================================== *)

Section csv_more.

Lemma kept_empty_iff cs :
  kept ∅ cs = [] ↔ Forall (λ c, ¬ has_usable_email c) cs.
Proof.
  split.
  - intros Hk. apply Forall_forall. intros c Hc Hu.
    apply clean_email_field_truthy in Hu. rewrite <- email_key_clean in Hu.
    destruct (kept_covers ∅ cs c Hc Hu) as [Hx|(r & Hr & _)].
    + by apply elem_of_empty in Hx.
    + rewrite Hk in Hr. by apply elem_of_nil in Hr.
  - intros Hall. apply kept_nothing_new. intros c Hc Ht.
    rewrite Forall_forall in Hall. exfalso. apply (Hall c Hc).
    unfold has_usable_email. rewrite <- email_key_clean.
    intros Heq. by rewrite Heq in Ht.
Qed.

Lemma kept_dom seen cs :
  Forall (λ r, dom r = ({["email"; "phone"; "name"; "designation";
                          "university"; "department"; "source_url";
                          "scraped_date"]} : gset string))
         (kept seen cs).
Proof.
  apply Forall_forall. intros r Hr.
  destruct (kept_elem _ _ _ Hr) as [_ (c & _ & ->)]. apply clean_dom.
Qed.

(** X21: once the raw contacts are dumped, the clean CSV step of
    [scrape_multiple_urls] raises [IndexError] exactly when there are raw
    contacts and none of them has a usable email (a string with an at
    sign); otherwise it writes the deduplicated records under the eight
    contact field names, and no row ever has a key outside the header. *)
Theorem csv_step_outcome (all_contacts : list contact) :
  match clean_csv_step all_contacts with
  | NoCsv => all_contacts = []
  | CsvIndexError =>
      all_contacts ≠ [] ∧ Forall (λ c, ¬ has_usable_email c) all_contacts
  | CsvValueError => False
  | CsvWritten fieldnames rows =>
      fieldnames = {["email"; "phone"; "name"; "designation"; "university";
                     "department"; "source_url"; "scraped_date"]}
      ∧ rows = clean_and_deduplicate_contacts all_contacts
      ∧ Exists has_usable_email all_contacts
  end.
Proof.
  unfold clean_csv_step. destruct all_contacts as [|c0 cs]; [done|].
  cbn zeta. rewrite clean_and_deduplicate_contacts_kept.
  pose proof (kept_empty_iff (c0 :: cs)) as Hempty.
  pose proof (kept_dom ∅ (c0 :: cs)) as Hdom.
  destruct (kept ∅ (c0 :: cs)) as [|first rows] eqn:Hk.
  - split; [done|]. by apply Hempty.
  - assert (Hall : forallb (λ row, bool_decide (dom row ⊆ dom first))
                     (first :: rows) = true).
    { apply forallb_forall. intros row Hrow%list_elem_of_In.
      apply bool_decide_eq_true.
      rewrite Forall_forall in Hdom. rewrite (Hdom row Hrow).
      by rewrite (Hdom first) by (by left). }
    rewrite Hall.
    split; [by apply Forall_cons in Hdom as [-> _]|]. split; [done|].
    apply not_Forall_Exists; [intros c; unfold has_usable_email;
                              apply _|].
    intros Hno. assert (Hnone : Forall (λ c, ¬ has_usable_email c)
                                  (c0 :: cs)).
    { apply Forall_forall. intros c Hc Hu.
      rewrite Forall_forall in Hno. by apply Hu, Hno. }
    apply Hempty in Hnone. done.
Qed.

Example csv_step_phone_only :
  clean_csv_step [phone_only_contact] = CsvIndexError.
Proof. vm_compute. reflexivity. Qed.

End csv_more.

(* ===================================================================== *)
(** * Further results: from the spider into the cleaning pipeline         *)
(* ===================================================================== *)

Section spider_more.

Context `{Env}.

Lemma set_if_found_str_valued k found c :
  str_valued c → str_valued (set_if_found k found c).
Proof.
  intros Hc. unfold set_if_found. destruct found; [|done].
  by apply map_Forall_insert_2.
Qed.

Lemma name_before_email_str_valued text c :
  str_valued c → str_valued (name_before_email text c).
Proof.
  intros Hc. unfold name_before_email. cbn zeta.
  repeat case_match; try done. by apply map_Forall_insert_2.
Qed.

Lemma name_before_email_other text c k :
  k ≠ "name" → name_before_email text c !! k = c !! k.
Proof.
  intros Hk. unfold name_before_email. cbn zeta.
  repeat case_match; try done. by rewrite lookup_insert_ne.
Qed.

Lemma spider_contact_str_valued e source_url :
  str_valued (spider_extract_contact_from_element e source_url).
Proof.
  unfold spider_extract_contact_from_element. cbn zeta.
  repeat first
    [ apply set_if_found_str_valued
    | apply name_before_email_str_valued
    | apply map_Forall_insert_2; [by repeat case_match|]
    | apply map_Forall_empty
    | case_match ].
Qed.

Lemma spider_contact_source_url e source_url :
  spider_extract_contact_from_element e source_url !! "source_url"
  = Some (PStr source_url).
Proof.
  unfold spider_extract_contact_from_element. cbn zeta.
  rewrite !set_if_found_lookup_ne, name_before_email_other,
    set_if_found_lookup_ne by done.
  repeat first
    [ rewrite lookup_insert_ne
        by (apply (bool_decide_unpack _); vm_compute; exact I)
    | case_match ];
    by rewrite lookup_insert_eq.
Qed.

Lemma yield_valid_elem elements response_url c :
  c ∈ yield_valid elements response_url →
  ∃ e, c = spider_extract_contact_from_element e response_url.
Proof.
  unfold yield_valid.
  intros [_ (e & -> & _)%list_elem_of_fmap]%list_elem_of_filter.
  by exists e.
Qed.

Lemma extract_contacts_elem response response_url c :
  c ∈ extract_contacts response response_url →
  ∃ e, c = spider_extract_contact_from_element e response_url.
Proof.
  unfold extract_contacts. cbn zeta.
  repeat case_match; try apply yield_valid_elem.
  by intros ?%elem_of_nil.
Qed.

Lemma clean_item_field_total f field item :
  str_valued item →
  (∀ s, str_or_none (f s)) →
  ∃ item', DataCleaningPipeline.clean_item_field f field item = Some item'
           ∧ str_valued item'.
Proof.
  intros Hv Hf. unfold DataCleaningPipeline.clean_item_field, dict_get.
  destruct (item !! field) as [[|s|n]|] eqn:Hl; simpl.
  - by exists item.
  - destruct (nonempty s); [|by exists item].
    eexists. split; [done|]. by apply map_Forall_insert_2.
  - by apply Hv in Hl.
  - by exists item.
Qed.

Lemma process_item_total now item :
  str_valued item →
  ∃ item', DataCleaningPipeline.process_item now item = Some item'.
Proof.
  intros Hv0. unfold DataCleaningPipeline.process_item.
  destruct (clean_item_field_total
              (λ s, PStr (DataCleaningPipeline.normalise_text s)) "name"
              item Hv0) as (i1 & -> & Hv1); [done|]. simpl.
  destruct (clean_item_field_total
              (λ s, PStr (DataCleaningPipeline.normalise_text s))
              "designation" i1 Hv1) as (i2 & -> & Hv2); [done|]. simpl.
  destruct (clean_item_field_total
              (λ s, PStr (DataCleaningPipeline.normalise_text s))
              "university" i2 Hv2) as (i3 & -> & Hv3); [done|]. simpl.
  destruct (clean_item_field_total
              (λ s, PStr (DataCleaningPipeline.normalise_text s))
              "department" i3 Hv3) as (i4 & -> & Hv4); [done|]. simpl.
  destruct (clean_item_field_total
              (λ s, DataCleaningPipeline.of_option (clean_email s))
              "email" i4 Hv4) as (i5 & -> & Hv5).
  { intros s. by destruct (clean_email s). }
  simpl.
  destruct (clean_item_field_total
              (λ s, DataCleaningPipeline.of_option
                      (DataCleaningPipeline.clean_phone s))
              "phone" i5 Hv5) as (i6 & -> & Hv6).
  { intros s. by destruct (DataCleaningPipeline.clean_phone s). }
  simpl. by eexists.
Qed.

Lemma process_item_other now item item' k :
  DataCleaningPipeline.process_item now item = Some item' →
  k ∉ ["name"; "designation"; "university"; "department"; "email"; "phone";
       "scraped_date"] →
  item' !! k = item !! k.
Proof.
  unfold DataCleaningPipeline.process_item. intros Hp Hk.
  rewrite !not_elem_of_cons in Hk.
  destruct Hk as (? & ? & ? & ? & ? & ? & ? & _).
  destruct (DataCleaningPipeline.clean_item_field _ "name" item)
    as [i1|] eqn:Hc1; [|done]. simpl in Hp.
  destruct (DataCleaningPipeline.clean_item_field _ "designation" i1)
    as [i2|] eqn:Hc2; [|done]. simpl in Hp.
  destruct (DataCleaningPipeline.clean_item_field _ "university" i2)
    as [i3|] eqn:Hc3; [|done]. simpl in Hp.
  destruct (DataCleaningPipeline.clean_item_field _ "department" i3)
    as [i4|] eqn:Hc4; [|done]. simpl in Hp.
  destruct (DataCleaningPipeline.clean_item_field _ "email" i4)
    as [i5|] eqn:Hc5; [|done]. simpl in Hp.
  destruct (DataCleaningPipeline.clean_item_field _ "phone" i5)
    as [i6|] eqn:Hc6; [|done]. simpl in Hp. injection Hp as <-.
  rewrite lookup_insert_ne by done.
  rewrite (clean_item_field_other _ _ _ _ k Hc6),
    (clean_item_field_other _ _ _ _ k Hc5),
    (clean_item_field_other _ _ _ _ k Hc4),
    (clean_item_field_other _ _ _ _ k Hc3),
    (clean_item_field_other _ _ _ _ k Hc2),
    (clean_item_field_other _ _ _ _ k Hc1) by done.
  done.
Qed.

(** X22: every item the spider yields for a response goes through the
    cleaning pipeline without an error (its fields hold strings or
    [None], never a value without string methods) and leaves it with the
    URL of the response as its source URL. *)
Theorem spider_items_pass_cleaning (response : element)
    (response_url now : string) (c : contact) :
  c ∈ extract_contacts response response_url →
  ∃ item', DataCleaningPipeline.process_item now c = Some item'
           ∧ item' !! "source_url" = Some (PStr response_url).
Proof.
  intros (e & ->)%extract_contacts_elem.
  destruct (process_item_total now
              (spider_extract_contact_from_element e response_url)
              (spider_contact_str_valued e response_url)) as [item' Hp].
  exists item'. split; [done|].
  rewrite (process_item_other _ _ _ "source_url" Hp).
  - apply spider_contact_source_url.
  - rewrite !not_elem_of_cons. repeat split; try done. apply not_elem_of_nil.
Qed.

End spider_more.

Lemma spider_items_pass_cleaning_witness :
  ∃ item', DataCleaningPipeline.process_item "2024-01-01 00:00:00"
             sample_spider_item = Some item'
           ∧ item' !! "source_url" = Some (PStr "https://u.my/contact").
Proof.
  apply (@spider_items_pass_cleaning sample_text_env 0%nat
           "https://u.my/contact" "2024-01-01 00:00:00" sample_spider_item).
  apply (bool_decide_unpack _). by vm_compute.
Defined.

(* ===================================================================== *)
(** * Further results: the numeric options of main                        *)
(* ===================================================================== *)

Section main_more.

Variable py_int : string → option Z.

Lemma main_deep_crawl_range argv st :
  1 ≤ st.2 ≤ 100 →
  1 ≤ (foldl (λ '(enable_deep_crawl, deep_crawl_requests) arg,
           if bool_decide (arg = "--deep-crawl") then
             (true, deep_crawl_requests)
           else if startswith "--deep-crawl=" arg then
             match int_after_equals py_int arg with
             | Some n => (true, Z.max 1 (Z.min n 100))
             | None => (true, deep_crawl_requests)
             end
           else (enable_deep_crawl, deep_crawl_requests))
        st argv).2 ≤ 100.
Proof.
  revert st. induction argv as [|arg argv IH]; intros [e r] Hr; [done|].
  cbn [foldl]. apply IH.
  repeat case_match; cbn [snd] in *; lia.
Qed.

Lemma main_max_workers_cap argv w :
  w ≤ 30 →
  foldl (λ max_workers arg,
           if startswith "--workers=" arg then
             match int_after_equals py_int arg with
             | Some n => Z.min n 30
             | None => max_workers
             end
           else max_workers)
        w argv ≤ 30.
Proof.
  revert w. induction argv as [|arg argv IH]; intros w Hw; [done|].
  cbn [foldl]. apply IH. repeat case_match; lia.
Qed.

(** X23: whatever the command line holds and however [int] reads it, the
    worker count that [main] passes on is at most 30, the deep-crawl
    request count lies between 1 and 100, and the crawl loop therefore
    gets a request budget between 0 and 100. *)
Theorem main_options_are_capped (argv : list string) :
  main_max_workers py_int argv ≤ 30
  ∧ 1 ≤ (main_deep_crawl py_int argv).2 ≤ 100
  ∧ 0 ≤ max_discovery_requests (main_deep_crawl py_int argv).1
                               (main_deep_crawl py_int argv).2 ≤ 100.
Proof.
  pose proof (main_deep_crawl_range argv (false, 50)) as Hd.
  fold (main_deep_crawl py_int argv) in Hd. cbn [snd] in Hd.
  split; [by apply main_max_workers_cap|].
  split; [apply Hd; lia|].
  unfold max_discovery_requests.
  destruct (main_deep_crawl py_int argv).1; lia.
Qed.

End main_more.

Example main_options_sample :
  main_max_workers sample_int
    ["x.py"; "https://u.my/"; "40"; "--workers=64"; "--workers=abc"] = 30
  ∧ main_deep_crawl sample_int
      ["x.py"; "https://u.my/"; "--deep-crawl=0"] = (true, 1)
  ∧ main_deep_crawl sample_int ["x.py"; "https://u.my/"] = (false, 50).
Proof. repeat split; vm_compute; reflexivity. Qed.

(* ===================================================================== *)
(** * Further results: the batches of the URL analysis                    *)
(* ===================================================================== *)

Section url_analysis_more.

Variable value : Type.
Variable empty_list : value.
Variable extend : value → value → option value.
Variable call_openrouter_for_urls : nat → list string → option value.

Local Abbreviation attempts :=
  (url_attempts value empty_list call_openrouter_for_urls).
Local Abbreviation analyze :=
  (analyze_urls_for_contacts value empty_list extend
     call_openrouter_for_urls).

Lemma url_attempts_sent remaining urls sent :
  ∃ k, (k ≤ remaining)%nat
       ∧ (attempts remaining urls sent).2 = sent ++ replicate k urls.
Proof.
  revert sent. induction remaining as [|remaining IH]; intros sent.
  - exists O. split; [done|]. cbn. by rewrite app_nil_r.
  - cbn [url_attempts].
    destruct (call_openrouter_for_urls (length sent) urls) as [result|].
    + exists 1%nat. split; [lia|done].
    + destruct (IH (sent ++ [urls])) as (k & Hk & ->).
      exists (S k). split; [lia|]. by rewrite <- app_assoc.
Qed.

Lemma analyze_small depth urls max_retries sent :
  urls ≠ [] → (length urls ≤ 50)%nat →
  ∃ r k, (k ≤ Z.to_nat (max_retries + 1))%nat
         ∧ analyze (S depth) true urls max_retries sent
           = Some (Returned r, sent ++ replicate k urls).
Proof.
  intros Hne Hlen. cbn [analyze_urls_for_contacts negb orb].
  rewrite bool_decide_eq_false_2 by done.
  rewrite (proj2 (Nat.ltb_ge _ _)) by done.
  destruct (url_attempts_sent (Z.to_nat (max_retries + 1)) urls sent)
    as (k & Hk & Hs).
  destruct (attempts (Z.to_nat (max_retries + 1)) urls sent) as [r s].
  cbn [snd] in Hs. subst s. by exists r, k.
Qed.

Lemma analyze_batches_sent depth max_retries batches results sent :
  Forall (λ b, b ≠ [] ∧ (length b ≤ 50)%nat) batches →
  ∃ r extra,
    analyze_batches value extend
      (λ batch sent, analyze (S depth) true batch max_retries sent)
      batches results sent = Some (r, sent ++ extra)
    ∧ Forall (λ b, b ∈ batches) extra
    ∧ (length extra ≤ length batches * Z.to_nat (max_retries + 1))%nat.
Proof.
  revert results sent.
  induction batches as [|b batches IH]; intros results sent Hall.
  - exists (Returned results), []. cbn. rewrite app_nil_r.
    split; [done|]. split; [constructor|lia].
  - apply Forall_cons in Hall as [[Hne Hlen] Hall].
    cbn [analyze_batches].
    destruct (analyze_small depth b max_retries sent Hne Hlen)
      as (r & k & Hk & ->).
    assert (Hrep : Forall (λ b', b' ∈ b :: batches) (replicate k b)).
    { apply Forall_forall. intros b' [-> _]%elem_of_replicate. by left. }
    destruct (extend results r) as [results'|].
    + destruct (IH results' (sent ++ replicate k b) Hall)
        as (r' & extra & -> & Hex & Hl).
      exists r', (replicate k b ++ extra). rewrite app_assoc.
      split; [done|]. split.
      * apply Forall_app. split; [done|].
        eapply Forall_impl; [exact Hex|]. intros b' Hb'. by right.
      * rewrite length_app, length_replicate. cbn [length]. lia.
    + exists Raised, (replicate k b).
      split; [done|]. split; [done|].
      rewrite length_replicate. cbn [length]. lia.
Qed.

Lemma url_batches_elem urls batch :
  batch ∈ url_batches urls → batch_of urls batch.
Proof.
  unfold url_batches, batch_starts.
  intros (i & -> & (k & -> & Hk)%list_elem_of_fmap)%list_elem_of_fmap.
  apply elem_of_seq in Hk as [_ Hk].
  assert (Hlt : (50 * k < length urls)%nat).
  { pose proof (Nat.div_mod_eq (length urls + 49) 50) as Hd.
    pose proof (Nat.mod_upper_bound (length urls + 49) 50) as Hm.
    revert Hk Hd Hm.
    generalize ((length urls + 49) / 50)%nat
               ((length urls + 49) mod 50)%nat. lia. }
  split; [|split].
  - intros Hnil. apply (f_equal length) in Hnil.
    rewrite length_take, length_drop in Hnil. cbn [length] in Hnil. lia.
  - rewrite length_take. lia.
  - by exists k.
Qed.

Lemma url_batches_length urls :
  length (url_batches urls) = ((length urls + 49) / 50)%nat.
Proof.
  unfold url_batches, batch_starts. by rewrite !length_fmap, length_seq.
Qed.

Lemma analyze_requests (enabled : bool) (urls : list string)
    (max_retries : Z) :
  ∃ r sent,
    analyze 2 enabled urls max_retries [] = Some (r, sent)
    ∧ Forall (batch_of urls) sent
    ∧ (length sent
       ≤ (length urls + 49) / 50 * Z.to_nat (max_retries + 1))%nat
    ∧ (enabled = false ∨ urls = [] → r = Returned empty_list ∧ sent = []).
Proof.
  destruct enabled.
  2:{ exists (Returned empty_list), []. cbn.
      split; [done|]. split; [constructor|]. split; [lia|done]. }
  destruct (decide (urls = [])) as [->|Hne].
  { exists (Returned empty_list), []. cbn.
    split; [done|]. split; [constructor|]. split; [lia|done]. }
  destruct (decide (length urls ≤ 50)%nat) as [Hlen|Hlen].
  - destruct (analyze_small 1 urls max_retries [] Hne Hlen)
      as (r & k & Hk & Hr).
    exists (Returned r), (replicate k urls).
    split; [done|]. split; [|split].
    + apply Forall_forall. intros b [-> _]%elem_of_replicate.
      split; [done|]. split; [done|]. exists O.
      by rewrite Nat.mul_0_r, drop_0, take_ge.
    + rewrite length_replicate.
      assert (Hone : ((length urls + 49) / 50 = 1)%nat).
      { destruct urls as [|u urls]; [done|]. cbn [length] in *.
        pose proof (Nat.div_mod_eq (S (length urls) + 49) 50) as Hd.
        pose proof (Nat.mod_upper_bound (S (length urls) + 49) 50) as Hm.
        revert Hd Hm.
        generalize ((S (length urls) + 49) / 50)%nat
                   ((S (length urls) + 49) mod 50)%nat. lia. }
      rewrite Hone. lia.
    + by intros [?|?].
  - cbn [analyze_urls_for_contacts negb orb].
    rewrite bool_decide_eq_false_2 by done.
    rewrite (proj2 (Nat.ltb_lt _ _)) by lia.
    destruct (analyze_batches_sent 0 max_retries (url_batches urls)
                empty_list [])
      as (r & extra & Hr & Hex & Hl).
    { apply Forall_forall. intros b Hb.
      by destruct (url_batches_elem urls b Hb) as (? & ? & _). }
    exists r, extra. split; [exact Hr|]. split; [|split].
    + eapply Forall_impl; [exact Hex|]. apply url_batches_elem.
    + by rewrite url_batches_length in Hl.
    + by intros [?|?].
Qed.

(** ** The requests of each run *)

Lemma url_attempts_runs remaining urls sent :
  ∃ k, (Nat.min 1 remaining ≤ k ≤ remaining)%nat
       ∧ (attempts remaining urls sent).2 = sent ++ replicate k urls.
Proof.
  revert sent. induction remaining as [|remaining IH]; intros sent.
  - exists O. split; [done|]. cbn. by rewrite app_nil_r.
  - cbn [url_attempts].
    destruct (call_openrouter_for_urls (length sent) urls) as [result|].
    + exists 1%nat. split; [lia|done].
    + destruct (IH (sent ++ [urls])) as (k & Hk & ->).
      exists (S k). split; [lia|]. by rewrite <- app_assoc.
Qed.

Lemma analyze_small_runs depth urls max_retries sent :
  urls ≠ [] → (length urls ≤ 50)%nat →
  ∃ r k, (Nat.min 1 (Z.to_nat (max_retries + 1)) ≤ k
          ≤ Z.to_nat (max_retries + 1))%nat
         ∧ analyze (S depth) true urls max_retries sent
           = Some (Returned r, sent ++ replicate k urls).
Proof.
  intros Hne Hlen. cbn [analyze_urls_for_contacts negb orb].
  rewrite bool_decide_eq_false_2 by done.
  rewrite (proj2 (Nat.ltb_ge _ _)) by done.
  destruct (url_attempts_runs (Z.to_nat (max_retries + 1)) urls sent)
    as (k & Hk & Hs).
  destruct (attempts (Z.to_nat (max_retries + 1)) urls sent) as [r s].
  cbn [snd] in Hs. subst s. by exists r, k.
Qed.

(** The requests of the batch loop: run after run, for each run between
    one and [max_retries + 1] requests, all for that run's URLs; a run is
    left without requests only after the loop has ended in an error. *)
Lemma analyze_batches_runs depth max_retries batches results sent :
  Forall (λ b, b ≠ [] ∧ (length b ≤ 50)%nat) batches →
  ∃ r ks,
    analyze_batches value extend
      (λ batch sent, analyze (S depth) true batch max_retries sent)
      batches results sent
    = Some (r, sent ++ concat (zip_with replicate ks batches))
    ∧ (length ks ≤ length batches)%nat
    ∧ Forall (λ k, (Nat.min 1 (Z.to_nat (max_retries + 1)) ≤ k
                    ≤ Z.to_nat (max_retries + 1))%nat) ks
    ∧ (r ≠ Raised → length ks = length batches).
Proof.
  revert results sent.
  induction batches as [|b batches IH]; intros results sent Hall.
  - exists (Returned results), []. cbn. rewrite app_nil_r.
    split; [done|]. split; [lia|]. split; [constructor|done].
  - apply Forall_cons in Hall as [[Hne Hlen] Hall].
    cbn [analyze_batches].
    destruct (analyze_small_runs depth b max_retries sent Hne Hlen)
      as (r & k & Hk & ->).
    destruct (extend results r) as [results'|].
    + destruct (IH results' (sent ++ replicate k b) Hall)
        as (r' & ks & -> & Hks & Hbound & Hfull).
      exists r', (k :: ks). cbn [zip_with concat length].
      rewrite app_assoc.
      split; [done|]. split; [lia|]. split; [by constructor|].
      intros Hr. by rewrite (Hfull Hr).
    + exists Raised, [k]. cbn [zip_with concat length].
      destruct batches; cbn [zip_with concat]; rewrite app_nil_r;
        (split; [done|]); (split; [lia|]);
        (split; [by apply Forall_singleton|done]).
Qed.

Lemma url_batches_small urls :
  urls ≠ [] → (length urls ≤ 50)%nat → url_batches urls = [urls].
Proof.
  intros Hne Hlen. unfold url_batches, batch_starts.
  assert (Hone : ((length urls + 49) / 50 = 1)%nat).
  { destruct urls as [|u urls]; [done|]. cbn [length] in *.
    pose proof (Nat.div_mod_eq (S (length urls) + 49) 50) as Hd.
    pose proof (Nat.mod_upper_bound (S (length urls) + 49) 50) as Hm.
    revert Hd Hm.
    generalize ((S (length urls) + 49) / 50)%nat
               ((S (length urls) + 49) mod 50)%nat. lia. }
  rewrite Hone. cbn [seq fmap list_fmap]. rewrite Nat.mul_0_r, drop_0.
  by rewrite take_ge.
Qed.

Lemma analyze_runs (enabled : bool) (urls : list string) (max_retries : Z) :
  ∃ r ks,
    analyze 2 enabled urls max_retries []
    = Some (r, concat (zip_with replicate ks (url_batches urls)))
    ∧ (length ks ≤ length (url_batches urls))%nat
    ∧ Forall (λ k, (Nat.min 1 (Z.to_nat (max_retries + 1)) ≤ k
                    ≤ Z.to_nat (max_retries + 1))%nat) ks
    ∧ (enabled = true → r ≠ Raised → length ks = length (url_batches urls))
    ∧ (enabled = false → ks = []).
Proof.
  destruct enabled.
  2:{ exists (Returned empty_list), []. cbn.
      split; [done|]. split; [lia|]. split; [constructor|done]. }
  destruct (decide (urls = [])) as [->|Hne].
  { exists (Returned empty_list), []. cbn.
    split; [done|]. split; [lia|]. split; [constructor|done]. }
  destruct (decide (length urls ≤ 50)%nat) as [Hlen|Hlen].
  - destruct (analyze_small_runs 1 urls max_retries [] Hne Hlen)
      as (r & k & Hk & Hr).
    exists (Returned r), [k]. rewrite (url_batches_small urls Hne Hlen).
    cbn [zip_with concat length]. rewrite app_nil_r.
    split; [done|]. split; [lia|]. split; [by apply Forall_singleton|done].
  - cbn [analyze_urls_for_contacts negb orb].
    rewrite bool_decide_eq_false_2 by done.
    rewrite (proj2 (Nat.ltb_lt _ _)) by lia.
    destruct (analyze_batches_runs 0 max_retries (url_batches urls)
                empty_list [])
      as (r & ks & Hr & Hks & Hbound & Hfull).
    { apply Forall_forall. intros b Hb.
      by destruct (url_batches_elem urls b Hb) as (? & ? & _). }
    exists r, ks. split; [exact Hr|]. split; [done|]. split; [done|].
    split; [by intros _|done].
Qed.

(** X24: the URL analysis sends nothing for a disabled extractor or an
    empty list. Otherwise the list is cut into ceil(n/50) runs of
    consecutive URLs, each starting at a multiple of 50 and at most 50
    long, and the requests are sent run after run: for each run between
    one and [max_retries + 1] requests (none when [max_retries] is
    negative), every one of them asking about exactly the URLs of that
    run. Every run gets its requests unless the analysis has ended in an
    error before. Two levels of recursion are all it needs. *)
Theorem url_analysis_requests (enabled : bool) (urls : list string)
    (max_retries : Z) :
  let tries := Z.to_nat (max_retries + 1) in
  let runs := url_batches urls in
  ∃ r ks,
    let sent := concat (zip_with replicate ks runs) in
    analyze 2 enabled urls max_retries [] = Some (r, sent)
    ∧ (length ks ≤ length runs)%nat
    ∧ Forall (λ k, (Nat.min 1 tries ≤ k ≤ tries)%nat) ks
    ∧ (enabled = true → r ≠ Raised → length ks = length runs)
    ∧ Forall (batch_of urls) runs
    ∧ length runs = ((length urls + 49) / 50)%nat
    ∧ Forall (batch_of urls) sent
    ∧ (length sent ≤ (length urls + 49) / 50 * tries)%nat
    ∧ (enabled = false ∨ urls = [] → r = Returned empty_list ∧ sent = []).
Proof.
  cbn zeta.
  destruct (analyze_runs enabled urls max_retries)
    as (r & ks & Hr & Hks & Hbound & Hfull & Hoff).
  destruct (analyze_requests enabled urls max_retries)
    as (r0 & sent0 & Hr0 & Hall0 & Hlen0 & Hnone0).
  rewrite Hr in Hr0. injection Hr0 as <- <-.
  exists r, ks. split; [exact Hr|]. split; [done|]. split; [done|].
  split; [done|]. split.
  { apply Forall_forall. apply url_batches_elem. }
  split; [apply url_batches_length|]. done.
Qed.

End url_analysis_more.

Example url_analysis_sample :
  analyze_urls_for_contacts nat 0%nat (λ a b, Some (a + b)%nat)
    sample_url_endpoint 2 true (sample_urls 120) 2 []
  = Some (Returned 120%nat,
          [sample_urls 50; sample_urls 50; sample_urls 50; sample_urls 50;
           sample_urls 20; sample_urls 20]).
Proof. vm_compute. reflexivity. Qed.

(** The same run of 120 URLs, by runs: two requests for each of the three
    runs, the first of each pair failing. *)
Example url_analysis_sample_runs :
  [sample_urls 50; sample_urls 50; sample_urls 50; sample_urls 50;
   sample_urls 20; sample_urls 20]
  = concat (zip_with replicate [2; 2; 2]%nat (url_batches (sample_urls 120))).
Proof. vm_compute. reflexivity. Qed.

(* ===================================================================== *)
(** * Further results: the AI URL filter                                  *)
(* ===================================================================== *)

Section ai_filter_more.

Variable value : Type.
Variable empty_list : value.
Variable extend : value → value → option value.
Variable call_openrouter_for_urls : nat → list string → option value.
Variable value_truthy : value → bool.
Variable ai_scores_map : value → option (gmap string (option Z)).

Lemma rescore_item_url scores item item' :
  rescore_item scores item = Some item' → url item' = url item.
Proof.
  unfold rescore_item. destruct (scores !! url item) as [[b|]|]; [| |].
  - by intros [= <-].
  - done.
  - by intros [= <-].
Qed.

Lemma rescore_urls scores items items' :
  mapM (rescore_item scores) items = Some items' →
  url <$> items' = url <$> items.
Proof.
  intros Hm%mapM_Some. induction Hm as [|x y l k Hxy Hlk IH]; [done|].
  rewrite !fmap_cons, IH. f_equal. by apply rescore_item_url in Hxy.
Qed.

Lemma batch_of_subseteq urls batch u :
  batch_of urls batch → u ∈ batch → u ∈ urls.
Proof.
  intros (_ & _ & k & ->) Hu.
  by apply subseteq_take, subseteq_drop in Hu.
Qed.

(** The sorted scored URLs, band by band. *)
Lemma scored_bands S :
  let url_scores := sort_desc score (score_url <$> S) in
  filter (λ item, 60 ≤ score item) url_scores
  ++ filter (λ item, 20 ≤ score item ∧ score item < 60) url_scores
  ++ filter (λ item, 0 < score item ∧ score item < 20) url_scores
  ++ filter (λ item, score item = 0) url_scores
  = url_scores.
Proof.
  cbn zeta. apply bands_of_descending.
  - apply sort_desc_descending.
  - rewrite sort_desc_perm. apply Forall_fmap, Forall_forall.
    intros u _. unfold compose. apply score_url_nonneg.
Qed.

Lemma scored_urls_perm S :
  url <$> sort_desc score (score_url <$> S) ≡ₚ S.
Proof.
  rewrite sort_desc_perm, <- list_fmap_compose.
  rewrite (list_fmap_ext (url ∘ score_url) id) by (intros; apply url_score_url).
  by rewrite list_fmap_id.
Qed.

Lemma uncertain_below_60 S u :
  let url_scores := sort_desc score (score_url <$> S) in
  u ∈ url <$> (filter (λ item, 20 ≤ score item ∧ score item < 60) url_scores
               ++ filter (λ item, 0 < score item ∧ score item < 20) url_scores
               ++ filter (λ item, score item = 0) url_scores) →
  keyword_score u < 60.
Proof.
  cbn zeta. intros (item & -> & Hin)%list_elem_of_fmap.
  assert (Hitem : item ∈ sort_desc score (score_url <$> S)
                  ∧ score item < 60).
  { rewrite !elem_of_app, !list_elem_of_filter in Hin.
    destruct Hin as [[? ?]|[[? ?]|[? ?]]]; split; try done; lia. }
  destruct Hitem as [Hs Hlt]. rewrite sort_desc_perm in Hs.
  apply list_elem_of_fmap in Hs as (u & -> & _).
  rewrite url_score_url. by rewrite keyword_score_unfold.
Qed.

(** X25: with or without the AI filter, and whatever the endpoint
    answers, [discover_urls] ranks every discovered URL exactly once: the
    list it cuts to [max_pages] is a rearrangement of the discovered
    URLs and the count it returns is their number. The filter asks the
    endpoint only about URLs whose keyword score is below 60, and with
    the filter off the result is the keyword ranking. *)
Theorem ai_filter_keeps_every_url (enable_ai_url_filter enabled : bool)
    (discovered : list string) (max_pages : Z) :
  let result :=
    discover_urls_ranked value empty_list extend call_openrouter_for_urls
      value_truthy ai_scores_map enable_ai_url_filter enabled
      discovered max_pages in
  (∃ prioritized_urls,
      prioritized_urls ≡ₚ discovered
      ∧ result.1 = (slice_to prioritized_urls max_pages,
                    Z.of_nat (length discovered)))
  ∧ Forall (Forall (λ u, keyword_score u < 60)) result.2
  ∧ (enable_ai_url_filter = false →
     result = (prioritize_urls discovered max_pages, [])).
Proof.
  cbn zeta. unfold discover_urls_ranked, prioritize_urls. cbn zeta.
  pose proof (scored_bands discovered) as Hb. cbn zeta in Hb.
  pose proof (scored_urls_perm discovered) as Hp.
  pose proof (uncertain_below_60 discovered) as Hu. cbn zeta in Hu.
  set (url_scores := sort_desc score (score_url <$> discovered)) in *.
  set (high := filter (λ item, 60 ≤ score item) url_scores) in *.
  set (uncertain :=
         filter (λ item, 20 ≤ score item ∧ score item < 60) url_scores
         ++ filter (λ item, 0 < score item ∧ score item < 20) url_scores
         ++ filter (λ item, score item = 0) url_scores) in *.
  set (keyword_order :=
         (url <$> high)
         ++ (url <$> filter (λ item, 20 ≤ score item ∧ score item < 60)
                       url_scores)
         ++ (url <$> filter (λ item, 0 < score item ∧ score item < 20)
                       url_scores)
         ++ (url <$> filter (λ item, score item = 0) url_scores)).
  assert (Hko : keyword_order = url <$> url_scores).
  { unfold keyword_order. rewrite <- !fmap_app. fold uncertain.
    by rewrite Hb. }
  assert (Hkp : keyword_order ≡ₚ discovered) by by rewrite Hko.
  assert (Hkeep : ∀ sent,
    Forall (Forall (λ u, keyword_score u < 60)) sent →
    (∃ prioritized_urls,
        prioritized_urls ≡ₚ discovered
        ∧ (slice_to keyword_order max_pages,
           Z.of_nat (length keyword_order))
          = (slice_to prioritized_urls max_pages,
             Z.of_nat (length discovered)))
    ∧ Forall (Forall (λ u, keyword_score u < 60)) sent).
  { intros sent Hsent. split; [|done]. exists keyword_order.
    split; [done|]. by rewrite (Permutation_length Hkp). }
  destruct enable_ai_url_filter; cbn [andb].
  2:{ destruct (Hkeep [] (Forall_nil_2 _)) as [H1 H2].
      split; [exact H1|]. split; [exact H2|done]. }
  enough (Hgoal : ∀ r : (list string * list (list string)),
            (r.1 ≡ₚ discovered
             ∧ Forall (Forall (λ u, keyword_score u < 60)) r.2) →
            (∃ prioritized_urls,
                prioritized_urls ≡ₚ discovered
                ∧ (slice_to r.1 max_pages, Z.of_nat (length r.1))
                  = (slice_to prioritized_urls max_pages,
                     Z.of_nat (length discovered)))
            ∧ Forall (Forall (λ u, keyword_score u < 60)) r.2).
  { destruct enabled.
    2:{ destruct (Hgoal (keyword_order, [])) as [H1 H2];
          [by split|]. cbn [fst snd] in *. split; [exact H1|].
        split; [exact H2|discriminate]. }
    fold uncertain.
    assert (Hout : ∃ r : list string * list (list string),
      (r.1 ≡ₚ discovered
       ∧ Forall (Forall (λ u, keyword_score u < 60)) r.2)
      ∧ match uncertain with
        | [] => (keyword_order, [])
        | _ :: _ =>
            match analyze_urls_for_contacts value empty_list extend
                    call_openrouter_for_urls 2 true (url <$> uncertain)
                    2 [] with
            | Some (Returned ai_results, sent) =>
                if value_truthy ai_results then
                  match ai_scores_map ai_results
                        ≫= (λ scores, mapM (rescore_item scores) uncertain)
                  with
                  | Some uncertain_urls =>
                      (url <$> sort_desc score (high ++ uncertain_urls), sent)
                  | None => (keyword_order, sent)
                  end
                else (keyword_order, sent)
            | Some (Raised, sent) => (keyword_order, sent)
            | None => (keyword_order, [])
            end
        end = r).
    { destruct uncertain as [|item0 rest] eqn:Hunc.
      { exists (keyword_order, []). by repeat split. }
      rewrite <- Hunc in *.
      destruct (analyze_requests value empty_list extend
                  call_openrouter_for_urls true (url <$> uncertain) 2)
        as (r & sent & -> & Hbatches & _ & _).
      assert (Hsent : Forall (Forall (λ u, keyword_score u < 60)) sent).
      { eapply Forall_impl; [exact Hbatches|]. intros batch Hbatch.
        apply Forall_forall. intros u Hin. apply Hu.
        by apply (batch_of_subseteq _ batch). }
      destruct r as [ai_results|]; [|by exists (keyword_order, sent)].
      destruct (value_truthy ai_results);
        [|by exists (keyword_order, sent)].
      destruct (ai_scores_map ai_results) as [scores|]; cbn [mbind option_bind];
        [|by exists (keyword_order, sent)].
      destruct (mapM (rescore_item scores) uncertain) as [uncertain'|] eqn:Hm;
        [|by exists (keyword_order, sent)].
      exists (url <$> sort_desc score (high ++ uncertain'), sent).
      split; [|done]. split; [|done]. cbn [fst].
      rewrite sort_desc_perm, fmap_app, (rescore_urls _ _ _ Hm).
      rewrite <- fmap_app. by rewrite Hb. }
    destruct Hout as (r & Hr & ->).
    destruct (Hgoal r Hr) as [H1 H2]. destruct r as [p s].
    cbn [fst snd] in *. split; [exact H1|]. split; [exact H2|discriminate]. }
  intros [p s] [Hperm Hsent]. cbn [fst snd] in *.
  split; [|done]. exists p. split; [done|].
  by rewrite (Permutation_length Hperm).
Qed.

End ai_filter_more.

Example ai_filter_sample :
  discover_urls_ranked nat 0%nat (λ a b, Some (a + b)%nat)
    sample_url_endpoint (λ n, negb (n =? 0)%nat) sample_scores_map
    true true ["https://u.my/news"; "https://u.my/office"; "https://u.my/staff"]
    2
  = (["https://u.my/office"; "https://u.my/staff"], 3,
     [["https://u.my/office"; "https://u.my/news"];
      ["https://u.my/office"; "https://u.my/news"]])
  ∧ prioritize_urls
      ["https://u.my/news"; "https://u.my/office"; "https://u.my/staff"] 2
    = (["https://u.my/staff"; "https://u.my/office"], 3).
Proof. split; vm_compute; reflexivity. Qed.
